(** * s3sync: a shallow embedding of [main.go] and its synchronisation properties

    The program mirrors a source location onto a destination location.  Either
    side is a directory tree or an S3 bucket.  The development follows the
    layout of the source: strings and paths, the [file] and [location] records,
    the external collaborators (operating system and S3 client) behind one
    interface, the methods of [location], the reconciliation pass
    [oneTimeSync] and the watch loop. *)

From Stdlib Require Import ZArith NArith Ascii.
From stdpp Require Import gmap strings list fin_maps.

Local Open Scope Z_scope.

(** ** Strings

    A Go string is a sequence of bytes; so is a Rocq [string]. *)

Definition slash : ascii := "/"%char.
Definition dot : ascii := "."%char.

(** [strings.HasPrefix s prefix]. *)
Fixpoint HasPrefix (s prefix : string) : bool :=
  match prefix, s with
  | EmptyString, _ => true
  | String _ _, EmptyString => false
  | String a p, String b s' => Ascii.eqb a b && HasPrefix s' p
  end.

(** The slice [s[n:]]; the code only takes it with [n <= len(s)]. *)
Fixpoint slice_from (n : nat) (s : string) : string :=
  match n, s with
  | O, _ => s
  | S _, EmptyString => EmptyString
  | S n', String _ s' => slice_from n' s'
  end.

(** [strings.TrimPrefix s prefix]: [s] without the leading [prefix], or [s]
    itself when it does not start with [prefix]. *)
Definition TrimPrefix (s prefix : string) : string :=
  if HasPrefix s prefix then slice_from (String.length prefix) s else s.

(** ** Paths: [path/filepath] on a system whose separator is [/]

    [Clean], [Base] and [Dir] are library functions of the Go distribution.
    They are transcribed from the library: [Clean] keeps the output buffer and
    the index [dotdot] below which a [..] element cannot backtrack.  The output
    buffer is kept reversed, so that its head is the byte written last. *)

Module filepath.

Definition is_sep (c : ascii) : bool := Ascii.eqb c slash.
Definition is_dot (c : ascii) : bool := Ascii.eqb c dot.

(** True at the end of the path and in front of a separator. *)
Definition at_boundary (rest : list ascii) : bool :=
  match rest with
  | [] => true
  | c :: _ => is_sep c
  end.

(** [out.w--; for out.w > dotdot && out.index(out.w) != '/' { out.w-- }] *)
Fixpoint backtrack (dotdot : nat) (out : list ascii) : list ascii :=
  match out with
  | [] => []
  | c :: out' =>
      if (dotdot <? length out')%nat && negb (is_sep c)
      then backtrack dotdot out'
      else out'
  end.

(** The bytes of the path element at the head of [rest], and what follows. *)
Fixpoint element (rest : list ascii) : list ascii * list ascii :=
  match rest with
  | [] => ([], [])
  | c :: rest' =>
      if is_sep c then ([], rest)
      else let '(e, r) := element rest' in (c :: e, r)
  end.

(** The loop [for r < n] of [Clean].  Every iteration reads at least one byte,
    so the length of the path bounds the number of iterations. *)
Fixpoint clean_loop (fuel : nat) (rooted : bool) (rest out : list ascii)
    (dotdot : nat) : list ascii :=
  match fuel, rest with
  | O, _ => out
  | _, [] => out
  | S fuel', c :: r1 =>
      if is_sep c then
        clean_loop fuel' rooted r1 out dotdot
      else if is_dot c && at_boundary r1 then
        clean_loop fuel' rooted r1 out dotdot
      else if is_dot c && negb (at_boundary r1)
              && is_dot (hd slash r1) && at_boundary (tl r1) then
        let r2 := tl r1 in
        if (dotdot <? length out)%nat then
          clean_loop fuel' rooted r2 (backtrack dotdot out) dotdot
        else if negb rooted then
          let out1 := if (0 <? length out)%nat then slash :: out else out in
          let out2 := dot :: dot :: out1 in
          clean_loop fuel' rooted r2 out2 (length out2)
        else
          clean_loop fuel' rooted r2 out dotdot
      else
        let out1 :=
          if (rooted && negb (length out =? 1)%nat)
             || (negb rooted && negb (length out =? 0)%nat)
          then slash :: out else out in
        let '(e, r') := element rest in
        clean_loop fuel' rooted r' (rev e ++ out1) dotdot
  end.

Definition Clean (path : string) : string :=
  match String.list_ascii_of_string path with
  | [] => "."
  | (c :: r1) as p =>
      let rooted := is_sep c in
      let out :=
        if rooted then clean_loop (length p) rooted r1 [slash] 1%nat
        else clean_loop (length p) rooted p [] 0%nat in
      match out with
      | [] => "."
      | _ => String.string_of_list_ascii (rev out)
      end
  end.

(** Drops the bytes at the head of the list for which [p] holds. *)
Fixpoint skip (p : ascii -> bool) (l : list ascii) : list ascii :=
  match l with
  | [] => []
  | c :: l' => if p c then skip p l' else l
  end.

(** The bytes at the head of the list for which [p] holds. *)
Fixpoint span (p : ascii -> bool) (l : list ascii) : list ascii :=
  match l with
  | [] => []
  | c :: l' => if p c then c :: span p l' else []
  end.

(** [Base]: the last element of the path, after the trailing separators are
    removed; ["."] for the empty path and ["/"] for a path of separators. *)
Definition Base (path : string) : string :=
  match String.list_ascii_of_string path with
  | [] => "."
  | p =>
      let stripped := skip is_sep (rev p) in
      match span (fun c => negb (is_sep c)) stripped with
      | [] => "/"
      | e => String.string_of_list_ascii (rev e)
      end
  end.

(** [Dir]: [Clean] of the path up to and including its last separator. *)
Definition Dir (path : string) : string :=
  let p := String.list_ascii_of_string path in
  Clean (String.string_of_list_ascii (rev (skip (fun c => negb (is_sep c)) (rev p)))).

End filepath.

(** ** The data model *)

(** [time.Time]; the zero value is [0]. *)
Definition Time := Z.

(** What [os.Stat], [os.Lstat] and [ioutil.ReadDir] report about a file. *)
Record FileInfo := mkFileInfo {
  fi_Name : string;
  fi_Size : Z;
  fi_IsDir : bool;
  fi_ModTime : Time;
}.

(** [s3.Object], an entry of a bucket listing. *)
Record s3_Object := mkObject {
  o_Key : string;
  o_Size : Z;
  o_LastModified : Time;
}.

(** The dynamic type of the field [Object] of a [file]. *)
Inductive object :=
  | ObjNil
  | ObjFileInfo (fi : FileInfo)
  | ObjS3 (o : s3_Object).

(** [type file struct]. [Size] is a Go [int]; the program only copies and
    compares sizes, so no arithmetic can wrap. *)
Module file.
Record t := mk {
  Name : string;
  Path : string;
  LastModified : Time;
  Size : Z;
  Object : object;
}.
(** The zero value [var f file]. *)
Definition zero : t :=
  {| Name := EmptyString; Path := EmptyString; LastModified := 0; Size := 0; Object := ObjNil |}.
End file.

(** [fsnotify.Event] and the bits of [fsnotify.Op]. *)
Module fsnotify.
Definition Create : N := 1.
Definition Write : N := 2.
Definition Remove : N := 4.
Definition Rename : N := 8.
Definition Chmod : N := 16.
Record Event := mkEvent {
  Name : string;
  Op : N;
}.
End fsnotify.

(** The argument of [constructFile] is an [interface{}]. *)
Inductive file_like :=
  | InEvent (i : fsnotify.Event)
  | InS3Object (i : s3_Object)
  | InOther.

Inductive LocationType := Source | Destination.

(** The dynamic type of the field [Service] of a [location]. *)
Inductive service :=
  | SvcS3
  | SvcFileInfo (fi : FileInfo)
  | SvcOther.

(** [getLocations] allocates [results := make([]location, 2)] and hands out
    [&results[0]] and [&results[1]]; [null] is the nil pointer. *)
Inductive ptr := null | results0 | results1.

(** [type location struct] *)
Module location.
Record t := mk {
  Service : service;
  Bucket : string;
  Path : string;
  Manifest : gmap string file.t;
  Type_ : LocationType;  (* the field [Type] *)
  Destination : ptr;
}.
Definition with_Manifest (f : gmap string file.t -> gmap string file.t) (l : t) : t :=
  {| Service := Service l; Bucket := Bucket l; Path := Path l;
     Manifest := f (Manifest l); Type_ := Type_ l; Destination := Destination l |}.
End location.

#[global] Instance ptr_eq_dec : EqDecision ptr.
Proof. solve_decision. Defined.
#[global] Instance LocationType_eq_dec : EqDecision LocationType.
Proof. solve_decision. Defined.

(** The two cells of [results]. *)
Record store := mkStore {
  cell0 : location.t;
  cell1 : location.t;
}.

(** The flags of the command [sync], as parsed by the command-line library. *)
Module cli.
Record Context := mk {
  noop_flag : bool;
  recursive_flag : bool;
  delete_flag : bool;
  one_time_flag : bool;
}.
(** [c.Bool(name)]: the flags are declared as ["noop, n"], ["recursive, r"],
    ["delete, d"] and ["one-time"]; a name that was not declared reads false. *)
Definition Bool (c : Context) (name : string) : bool :=
  if decide (name = "noop" \/ name = "n") then noop_flag c
  else if decide (name = "recursive" \/ name = "r") then recursive_flag c
  else if decide (name = "delete" \/ name = "d") then delete_flag c
  else if decide (name = "one-time") then one_time_flag c
  else false.
End cli.

(** A call of a method of [location] that reaches a backend. *)
Inductive call :=
  | CallPut (l : ptr) (key : string) (f : file.t)
  | CallDelete (l : ptr) (key : string).

(** ** The external collaborators

    The operating system and the S3 client are not part of the program.  They
    act on a world [W], and every operation may fail.  [None] is a non-nil
    [error]. *)
Class Backend (W : Type) := {
  os_Stat : string -> W -> option FileInfo;
  os_Lstat : string -> W -> option FileInfo;
  ioutil_ReadDir : string -> W -> option (list FileInfo);
  (* [os.Open]: the bytes a reader of the file yields *)
  os_Open : string -> W -> option string;
  os_Create : string -> W -> option W;
  (* [io.Copy(out, reader)] for the file [out] created at a path *)
  io_Copy : string -> string -> W -> option W;
  os_Remove : string -> W -> option W;
  (* [PutObject] with [Bucket], [Key] and [Body]; the body may be nil *)
  s3_PutObject : string -> string -> option string -> W -> option W;
  s3_DeleteObject : string -> string -> W -> option W;
  (* [ListObjectsV2Pages] with [Bucket] and [Prefix]: the pages handed to
      the callback, and whether the listing ended without an error *)
  s3_ListObjectsV2Pages : string -> string -> W -> list (list s3_Object) * bool;
}.

(** The order in which [range] visits a map is not specified by the language:
    any enumeration of the entries can occur. *)
Class MapRange := {
  range : gmap string file.t -> list (string * file.t);
  range_perm : forall m, range m ≡ₚ map_to_list m;
}.

(** ** The state of the process

    The package variables [noop] and [recurse], the two locations, the paths
    registered with the watcher, the world of the collaborators, and the
    calls of [Put] and [Delete] made so far (the last one is kept for the
    statements only, the program does not read it). *)
Record machine (W : Type) := mkMachine {
  noop : bool;
  recurse : bool;
  heap : store;
  watched : list string;
  world : W;
  calls : list call;
}.
Arguments mkMachine {W}.
Arguments noop {W}.
Arguments recurse {W}.
Arguments heap {W}.
Arguments watched {W}.
Arguments world {W}.
Arguments calls {W}.

(** How a computation ends: it returns, [log.Fatal] ends the process, or the
    runtime panics. *)
Inductive outcome (A : Type) :=
  | Ok (a : A)
  | Fatal (msg : string)
  | Panic (msg : string).
Arguments Ok {A}.
Arguments Fatal {A}.
Arguments Panic {A}.

Section Program.
Context {W : Type} `{!Backend W} `{!MapRange}.

Definition M (A : Type) : Type := machine W -> outcome A * machine W.

Definition ret {A} (a : A) : M A := fun m => (Ok a, m).

Definition bind {A B} (c : M A) (k : A -> M B) : M B :=
  fun m =>
    match c m with
    | (Ok a, m') => k a m'
    | (Fatal msg, m') => (Fatal msg, m')
    | (Panic msg, m') => (Panic msg, m')
    end.

Notation "x <- c ;; k" := (bind c (fun x => k))
  (at level 100, c at next level, k at level 200, right associativity).
Notation "c ;; k" := (bind c (fun _ => k))
  (at level 100, k at level 200, right associativity).

Definition fatal {A} (msg : string) : M A := fun m => (Fatal msg, m).
Definition panic {A} (msg : string) : M A := fun m => (Panic msg, m).

(** [for _, x := range xs { body }] over the entries already enumerated. *)
Fixpoint for_each {A} (xs : list A) (body : A -> M unit) : M unit :=
  match xs with
  | [] => ret tt
  | x :: xs' => body x ;; for_each xs' body
  end.

Definition with_heap (h : store) (m : machine W) : machine W :=
  mkMachine (noop m) (recurse m) h (watched m) (world m) (calls m).
Definition with_world (w : W) (m : machine W) : machine W :=
  mkMachine (noop m) (recurse m) (heap m) (watched m) w (calls m).
Definition with_calls (cs : list call) (m : machine W) : machine W :=
  mkMachine (noop m) (recurse m) (heap m) (watched m) (world m) cs.
Definition with_watched (ws : list string) (m : machine W) : machine W :=
  mkMachine (noop m) (recurse m) (heap m) ws (world m) (calls m).
Definition with_noop (b : bool) (m : machine W) : machine W :=
  mkMachine b (recurse m) (heap m) (watched m) (world m) (calls m).
Definition with_recurse (b : bool) (m : machine W) : machine W :=
  mkMachine (noop m) b (heap m) (watched m) (world m) (calls m).

Definition deref (p : ptr) (h : store) : option location.t :=
  match p with
  | null => None
  | results0 => Some (cell0 h)
  | results1 => Some (cell1 h)
  end.

Definition assign (p : ptr) (l : location.t) (h : store) : store :=
  match p with
  | null => h
  | results0 => mkStore l (cell1 h)
  | results1 => mkStore (cell0 h) l
  end.

(** Reading through a pointer; through nil the runtime panics. *)
Definition load (p : ptr) : M location.t :=
  fun m =>
    match deref p (heap m) with
    | Some l => (Ok l, m)
    | None => (Panic "nil pointer dereference", m)
    end.

(** [l.Manifest[key] = f] and [delete(l.Manifest, key)]: an update of the map
    of the location [p] points to. *)
Definition update_Manifest (p : ptr)
    (f : gmap string file.t -> gmap string file.t) : M unit :=
  l <- load p ;;
  fun m => (Ok tt, with_heap (assign p (location.with_Manifest f l) (heap m)) m).

Definition record (c : call) : M unit :=
  fun m => (Ok tt, with_calls (calls m ++ [c]) m).

(** A collaborator that reads the world; an error is fatal. *)
Definition ask {A} (op : W -> option A) (msg : string) : M A :=
  fun m =>
    match op (world m) with
    | Some a => (Ok a, m)
    | None => (Fatal msg, m)
    end.

(** A collaborator that changes the world; an error is fatal. *)
Definition perform (op : W -> option W) (msg : string) : M unit :=
  fun m =>
    match op (world m) with
    | Some w => (Ok tt, with_world w m)
    | None => (Fatal msg, m)
    end.

(** A collaborator whose answer the program looks at itself. *)
Definition inspect {A} (q : W -> A) : M A :=
  fun m => (Ok (q (world m)), m).

(** The package variables [noop] and [recurse]. *)
Definition get_recurse : M bool := fun m => (Ok (recurse m), m).
Definition set_noop (b : bool) : M unit := fun m => (Ok tt, with_noop b m).
Definition set_recurse (b : bool) : M unit := fun m => (Ok tt, with_recurse b m).

(** [watcher.Add(path)]; the program drops the error it returns. *)
Definition watcher_Add (path : string) : M unit :=
  fun m => (Ok tt, with_watched (watched m ++ [path]) m).

(** [l.Path + "/" + key] in [Put] and [Delete], [dir + "/" + fi.Name()] in
    the directory walk, [f.Path + "/" + f.Name] in [Open]: the two strings with
    a separator in between. *)
Definition join (root key : string) : string := root +:+ "/" +:+ key.

(** *** [func (f *file) Open() io.ReadSeeker]

    A file whose [Object] is an [os.FileInfo] is opened at [f.Path + "/" +
    f.Name]; for every other file the method returns a nil reader. *)
Definition file_Open (f : file.t) : M (option string) :=
  match file.Object f with
  | ObjFileInfo _ =>
      r <- ask (os_Open (join (file.Path f) (file.Name f))) "error opening file:" ;;
      ret (Some r)
  | _ => ret None
  end.

(** *** [func constructFile(input interface{}) file] *)
Definition constructFile (input : file_like) : M file.t :=
  match input with
  | InEvent i =>
      o <- ask (os_Stat (fsnotify.Name i)) "os.Stat" ;;
      ret {| file.Name := filepath.Base (fsnotify.Name i);
             file.Path := filepath.Dir (fsnotify.Name i);
             file.LastModified := file.LastModified file.zero;
             file.Size := file.Size file.zero;
             file.Object := ObjFileInfo o |}
  | InS3Object i =>
      ret {| file.Name := filepath.Base (o_Key i);
             file.Path := filepath.Dir (o_Key i);
             file.LastModified := o_LastModified i;
             file.Size := o_Size i;
             file.Object := ObjS3 i |}
  | InOther => ret file.zero
  end.

(** *** [func (l *location) Put(key string, f file)] *)
Definition Put (l : ptr) (key : string) (f : file.t) : M unit :=
  record (CallPut l key f) ;;
  reader <- file_Open f ;;
  loc <- load l ;;
  match location.Service loc with
  | SvcS3 =>
      perform (s3_PutObject (location.Bucket loc) key reader) "PutObject" ;;
      update_Manifest l (insert key f)
  | SvcFileInfo _ =>
      let out := join (location.Path loc) key in
      perform (os_Create out) "error creating:" ;;
      match reader with
      | Some content => perform (io_Copy out content) "io.Copy"
      | None => panic "nil pointer dereference"
      end
  | SvcOther => fatal "can't handle"
  end.

(** *** [func (l *location) Delete(key string)] *)
Definition Delete (l : ptr) (key : string) : M unit :=
  record (CallDelete l key) ;;
  loc <- load l ;;
  match location.Service loc with
  | SvcS3 => perform (s3_DeleteObject (location.Bucket loc) key) "DeleteObject"
  | SvcFileInfo _ => perform (os_Remove (join (location.Path loc) key)) "os.Remove"
  | SvcOther => fatal "can't handle"
  end ;;
  update_Manifest l (delete key).

(** *** [func (l *location) handleEvent(key string, event fsnotify.Event)]

    The [switch] compares [event.Op] with each constant and has no default
    case. *)
Definition handleEvent (l : ptr) (key : string) (event : fsnotify.Event) : M unit :=
  loc <- load l ;;
  if decide (location.Type_ loc = Source) then
    if decide (fsnotify.Op event = fsnotify.Create) then
      f <- constructFile (InEvent event) ;;
      update_Manifest l (insert key f) ;;
      Put (location.Destination loc) key f
    else if decide (fsnotify.Op event = fsnotify.Write) then
      f <- constructFile (InEvent event) ;;
      Put (location.Destination loc) key f
    else if decide (fsnotify.Op event = fsnotify.Remove) then
      Delete (location.Destination loc) key ;;
      update_Manifest l (delete key)
    else ret tt
  else fatal "we don't do this".

(** *** The relative keys *)

(** [Watch]: [key := strings.TrimPrefix(event.Name, l.Path)] *)
Definition watchKey (root name : string) : string := TrimPrefix name root.

(** [buildDirManifest]: [key = filepath.Clean(strings.TrimPrefix(key, l.Path))] *)
Definition dirKey (root name : string) : string :=
  filepath.Clean (TrimPrefix name root).

(** [buildManifest]: [key] is ["/"] followed by [strings.TrimPrefix] of the
    key of the object and [l.Path] *)
Definition s3Key (root name : string) : string := "/" +:+ TrimPrefix name root.

(** *** [func (l *location) buildDirManifest(dir string)]

    The method calls itself for every subdirectory.  [depth] is the number of
    nested calls the stack of the goroutine has room for. *)
Fixpoint buildDirManifest (depth : nat) (l : ptr) (dir : string) : M unit :=
  match depth with
  | O => panic "stack overflow"
  | S depth' =>
      files <- ask (ioutil_ReadDir dir) "ioutil.ReadDir" ;;
      for_each files (fun fi =>
        if fi_IsDir fi then
          buildDirManifest depth' l (join dir (fi_Name fi))
        else
          loc <- load l ;;
          let key := dirKey (location.Path loc) (join dir (fi_Name fi)) in
          let f := {| file.Name := fi_Name fi;
                      file.Path := dir;
                      file.LastModified := fi_ModTime fi;
                      file.Size := fi_Size fi;
                      file.Object := ObjFileInfo fi |} in
          update_Manifest l (insert key f))
  end.

(** *** [func (l *location) buildManifest()]

    The callback of the listing always asks for the next page; the error of the
    listing is looked at when the listing is over. *)
Definition buildManifest (depth : nat) (l : ptr) : M unit :=
  update_Manifest l (fun _ => ∅) ;;
  loc <- load l ;;
  match location.Service loc with
  | SvcS3 =>
      listing <- inspect (s3_ListObjectsV2Pages (location.Bucket loc)
                            (location.Path loc)) ;;
      for_each (fst listing) (fun page =>
        for_each page (fun o =>
          f <- constructFile (InS3Object o) ;;
          loc' <- load l ;;
          update_Manifest l (insert (s3Key (location.Path loc') (o_Key o)) f))) ;;
      if snd listing then ret tt else fatal "ListObjectsV2Pages"
  | SvcFileInfo _ => buildDirManifest depth l (location.Path loc)
  | SvcOther => fatal "unknown type"
  end.

(** *** [func (l *location) listManifest()]

    The method logs every entry and changes nothing. *)
Definition listManifest (l : ptr) : M unit :=
  _ <- load l ;;
  ret tt.

(** *** [func oneTimeSync(c *cli.Context, source, destination *location)]

    The first loop ranges over the manifest of the source and changes only
    the destination.  The second loop ranges over the manifest of the
    destination and removes at most the entry it is visiting, so the entries
    enumerated when the loop starts are the entries it visits.  [push] and
    [prune] are the bodies of the two loops. *)
Definition push (destination : ptr) (entry : string * file.t) : M unit :=
  let '(key, f) := entry in
  dst <- load destination ;;
  match location.Manifest dst !! key with
  | None => Put destination key f
  | Some destF =>
      if decide (file.Size f ≠ file.Size destF) then Put destination key f
      else ret tt
  end.

Definition prune (source destination : ptr) (entry : string * file.t) : M unit :=
  let '(key, _) := entry in
  src <- load source ;;
  match location.Manifest src !! key with
  | None => Delete destination key
  | Some _ => ret tt
  end.

Definition oneTimeSync (c : cli.Context) (source destination : ptr) : M unit :=
  src <- load source ;;
  for_each (range (location.Manifest src)) (push destination) ;;
  if cli.Bool c "delete" then
    dst <- load destination ;;
    for_each (range (location.Manifest dst)) (prune source destination)
  else ret tt.

(** *** [func (l *location) Watch()]

    The loop of [Watch] never ends; [events] are the events the watcher has
    delivered so far, in the order of their delivery.  [os.Lstat] of a path
    that is gone returns a nil [FileInfo], and [fi.IsDir()] panics on it. *)
Definition Watch_event (l : ptr) (event : fsnotify.Event) : M unit :=
  fi <- inspect (os_Lstat (fsnotify.Name event)) ;;
  match fi with
  | None => panic "nil pointer dereference"
  | Some fi =>
      if fi_IsDir fi then
        rec <- get_recurse ;;
        if rec : bool then watcher_Add (fsnotify.Name event) else ret tt
      else
        loc <- load l ;;
        handleEvent l (watchKey (location.Path loc) (fsnotify.Name event)) event
  end.

Definition Watch (l : ptr) (events : list fsnotify.Event) : M unit :=
  loc <- load l ;;
  watcher_Add (location.Path loc) ;;
  rec <- get_recurse ;;
  (if rec : bool then
     files <- ask (ioutil_ReadDir (location.Path loc)) "ioutil.ReadDir" ;;
     for_each files (fun f =>
       if fi_IsDir f then watcher_Add (join (location.Path loc) (fi_Name f))
       else ret tt)
   else ret tt) ;;
  for_each events (Watch_event l).

(** *** The hook [Before] of the command and [func sync(c *cli.Context) error]

    [Before] first refuses to run without a terminal; what follows is the
    rest of it.  It reads the flag ["recurse"], which is not the name the flag
    ["recursive, r"] was declared with. *)
Definition Before (c : cli.Context) : M unit :=
  (if cli.Bool c "noop" then set_noop true else ret tt) ;;
  (if cli.Bool c "recurse" then set_recurse true else ret tt).

(** [sync] once [getLocations] has returned the two locations. *)
Definition sync (c : cli.Context) (depth : nat) (source destination : ptr)
    (events : list fsnotify.Event) : M unit :=
  buildManifest depth source ;;
  listManifest source ;;
  buildManifest depth destination ;;
  listManifest destination ;;
  oneTimeSync c source destination ;;
  Watch source events.

End Program.

Arguments M W : clear implicits.

(** The manifest of the location a pointer refers to. *)
Definition manifest_at {W} (p : ptr) (m : machine W) : gmap string file.t :=
  match deref p (heap m) with
  | Some l => location.Manifest l
  | None => ∅
  end.

(** ** A small world to run the program in

    A disk is a list of files by cleaned path together with the directories
    that exist; a bucket store is a list of objects by bucket and key.  The
    maps are visited in the order [map_to_list] gives. *)
Module Toy.

Record t := mk {
  disk : list (string * string);
  dirs : list string;
  objects : list ((string * string) * string);
}.

Fixpoint assoc {K V} `{EqDecision K} (k : K) (l : list (K * V)) : option V :=
  match l with
  | [] => None
  | (k', v) :: l' => if decide (k = k') then Some v else assoc k l'
  end.

Definition remove {K V} `{EqDecision K} (k : K) (l : list (K * V)) : list (K * V) :=
  filter (fun e => e.1 ≠ k) l.

Definition set {K V} `{EqDecision K} (k : K) (v : V) (l : list (K * V)) : list (K * V) :=
  remove k l ++ [(k, v)].

Definition is_dir (p : string) (w : t) : bool :=
  bool_decide (filepath.Clean p ∈ dirs w).

Definition stat (p : string) (w : t) : option FileInfo :=
  match assoc (filepath.Clean p) (disk w) with
  | Some c => Some (mkFileInfo (filepath.Base p) (Z.of_nat (String.length c)) false 0)
  | None =>
      if is_dir p w then Some (mkFileInfo (filepath.Base p) 0 true 0) else None
  end.

Definition read_dir (d : string) (w : t) : option (list FileInfo) :=
  if is_dir d w then
    Some (omap (fun e => if decide (filepath.Dir e.1 = filepath.Clean d)
                         then stat e.1 w else None) (disk w)
          ++ omap (fun p => if decide (filepath.Dir p = filepath.Clean d /\ p ≠ filepath.Clean d)
                            then stat p w else None) (dirs w))
  else None.

Definition create (p : string) (w : t) : option t :=
  if is_dir (filepath.Dir (filepath.Clean p)) w
  then Some (mk (set (filepath.Clean p) EmptyString (disk w)) (dirs w) (objects w))
  else None.

Definition copy (p content : string) (w : t) : option t :=
  Some (mk (set (filepath.Clean p) content (disk w)) (dirs w) (objects w)).

Definition unlink (p : string) (w : t) : option t :=
  match assoc (filepath.Clean p) (disk w) with
  | Some _ => Some (mk (remove (filepath.Clean p) (disk w)) (dirs w) (objects w))
  | None => None
  end.

Definition put_object (b k : string) (body : option string) (w : t) : option t :=
  Some (mk (disk w) (dirs w) (set (b, k) (default EmptyString body) (objects w))).

Definition delete_object (b k : string) (w : t) : option t :=
  Some (mk (disk w) (dirs w) (remove (b, k) (objects w))).

Definition list_objects (b prefix : string) (w : t) : list (list s3_Object) * bool :=
  ([omap (fun e => if bool_decide (e.1.1 = b) && HasPrefix e.1.2 prefix
                   then Some (mkObject e.1.2 (Z.of_nat (String.length e.2)) 0)
                   else None) (objects w)], true).

#[global] Instance backend : Backend t := {|
  os_Stat := stat;
  os_Lstat := stat;
  ioutil_ReadDir := read_dir;
  os_Open p w := assoc (filepath.Clean p) (disk w);
  os_Create := create;
  io_Copy := copy;
  os_Remove := unlink;
  s3_PutObject := put_object;
  s3_DeleteObject := delete_object;
  s3_ListObjectsV2Pages := list_objects;
|}.

#[global] Instance map_range : MapRange := {|
  range := map_to_list;
  range_perm m := reflexivity (map_to_list m);
|}.

(** A directory [/src] with the files [a] (ten bytes) and [b] (five bytes). *)
Definition src_dir : FileInfo := mkFileInfo "src" 0 true 0.
Definition dst_dir : FileInfo := mkFileInfo "dst" 0 true 0.

Definition file_a : file.t :=
  file.mk "a" "/src" 0 10 (ObjFileInfo (mkFileInfo "a" 10 false 0)).
Definition file_b : file.t :=
  file.mk "b" "/src" 0 5 (ObjFileInfo (mkFileInfo "b" 5 false 0)).
Definition dst_b : file.t :=
  file.mk "b" "/dst" 0 5 (ObjFileInfo (mkFileInfo "b" 5 false 0)).
Definition dst_c : file.t :=
  file.mk "c" "/dst" 0 1 (ObjFileInfo (mkFileInfo "c" 1 false 0)).

Definition source_loc (manifest : gmap string file.t) : location.t :=
  location.mk (SvcFileInfo src_dir) EmptyString "/src" manifest Source results1.

(** The destination as a directory [/dst] and as a bucket. *)
Definition dir_loc (manifest : gmap string file.t) : location.t :=
  location.mk (SvcFileInfo dst_dir) EmptyString "/dst" manifest Destination null.
Definition s3_loc (manifest : gmap string file.t) : location.t :=
  location.mk SvcS3 "bucket" "s3://bucket/" manifest Destination null.

Definition the_world : t :=
  mk [("/src/a", "0123456789"); ("/src/b", "01234"); ("/dst/b", "43210"); ("/dst/c", "9")]
     ["/src"; "/dst"]
     [(("bucket", "/b"), "43210"); (("bucket", "/c"), "9")].

Definition machine_of (source destination : location.t) : machine t :=
  mkMachine false false (mkStore source destination) [] the_world [].

(** The scenario of the specification: the source holds [a] and [b], the
    destination holds [b] with the same size and [c]. *)
Definition A : gmap string file.t := {[ "/a" := file_a; "/b" := file_b ]}.
Definition B : gmap string file.t := {[ "/b" := dst_b; "/c" := dst_c ]}.

Definition to_directory : machine t := machine_of (source_loc A) (dir_loc B).
Definition to_bucket : machine t := machine_of (source_loc A) (s3_loc B).

Definition flags (delete : bool) : cli.Context := cli.mk false false delete false.

(** A new process in the world an earlier one has left. *)
Definition restart (source destination : location.t) (m : machine t) : machine t :=
  mkMachine false false (mkStore source destination) [] (world m) [].

(** The same directories before anything was listed. *)
Definition unlisted : machine t := machine_of (source_loc ∅) (dir_loc ∅).

(** What [os.Stat] reports for [/src/a]. *)
Definition stat_a : FileInfo := mkFileInfo "a" 10 false 0.

End Toy.

(** ** Where the backends keep an object

    What [Put] writes and what [Delete] removes at a location, as one change
    of the world; [None] when the collaborator reports an error or the
    location has no service the methods handle. *)
Section Backend_effects.
Context {W : Type} `{!Backend W}.

Definition backend_delete (loc : location.t) (key : string) (w : W) : option W :=
  match location.Service loc with
  | SvcS3 => s3_DeleteObject (location.Bucket loc) key w
  | SvcFileInfo _ => os_Remove (join (location.Path loc) key) w
  | SvcOther => None
  end.

(** The bytes [f.Open()] yields: [Some None] is the nil reader. *)
Definition opened (f : file.t) (w : W) : option (option string) :=
  match file.Object f with
  | ObjFileInfo _ => Some <$> os_Open (join (file.Path f) (file.Name f)) w
  | _ => Some None
  end.

Definition backend_put (loc : location.t) (key : string) (f : file.t) (w : W) : option W :=
  match opened f w, location.Service loc with
  | Some reader, SvcS3 => s3_PutObject (location.Bucket loc) key reader w
  | Some (Some content), SvcFileInfo _ =>
      w' ← os_Create (join (location.Path loc) key) w;
      io_Copy (join (location.Path loc) key) content w'
  | _, _ => None
  end.

End Backend_effects.

(** What a completed [Put] does to the manifest of a location with the given
    service: the branch for a bucket stores the file under the key, the
    branch for a directory has no such statement. *)
Definition Put_Manifest (svc : service) (key : string) (f : file.t)
    (manifest : gmap string file.t) : gmap string file.t :=
  match svc with
  | SvcS3 => <[key := f]> manifest
  | _ => manifest
  end.

(** The file [constructFile] makes of an event whose path [os.Stat] finds. *)
Definition event_file (name : string) (fi : FileInfo) : file.t :=
  {| file.Name := filepath.Base name;
     file.Path := filepath.Dir name;
     file.LastModified := 0;
     file.Size := 0;
     file.Object := ObjFileInfo fi |}.

(** The machine after a call of [Put] on the location [loc] at [l] that
    completes and leaves the world [w'], and the same for [Delete]. *)
Definition after_Put {W} (l : ptr) (loc : location.t) (key : string) (f : file.t)
    (w' : W) (m : machine W) : machine W :=
  mkMachine (noop m) (recurse m)
    (assign l (location.with_Manifest (Put_Manifest (location.Service loc) key f) loc)
       (heap m))
    (watched m) w' (calls m ++ [CallPut l key f]).

Definition after_Delete {W} (l : ptr) (loc : location.t) (key : string)
    (w' : W) (m : machine W) : machine W :=
  mkMachine (noop m) (recurse m)
    (assign l (location.with_Manifest (delete key) loc) (heap m))
    (watched m) w' (calls m ++ [CallDelete l key]).

(** ** What the reconciliation decides

    An entry of the source is pushed when the destination has no entry for
    its key or one of another size; an entry of the destination is pruned
    when the source has no entry for its key. *)
Definition needs_put (B : gmap string file.t) (entry : string * file.t) : bool :=
  match B !! entry.1 with
  | None => true
  | Some destF => bool_decide (file.Size entry.2 ≠ file.Size destF)
  end.

Definition needs_delete (A : gmap string file.t) (entry : string * file.t) : bool :=
  bool_decide (A !! entry.1 = None).

(** The manifest of a destination with service [svc] along the first loop,
    and the calls the loop makes. *)
Definition put_step (svc : service) (B : gmap string file.t)
    (entry : string * file.t) : gmap string file.t :=
  if needs_put B entry then Put_Manifest svc entry.1 entry.2 B else B.

Definition put_call (destination : ptr) (B : gmap string file.t)
    (entry : string * file.t) : option call :=
  if needs_put B entry then Some (CallPut destination entry.1 entry.2) else None.

Fixpoint put_calls (svc : service) (destination : ptr) (B : gmap string file.t)
    (entries : list (string * file.t)) : list call :=
  match entries with
  | [] => []
  | entry :: entries' =>
      (if needs_put B entry then [CallPut destination entry.1 entry.2] else [])
      ++ put_calls svc destination (put_step svc B entry) entries'
  end.

(** The same for the second loop. *)
Definition delete_step (A B : gmap string file.t)
    (entry : string * file.t) : gmap string file.t :=
  if needs_delete A entry then delete entry.1 B else B.

Definition delete_call (destination : ptr) (A : gmap string file.t)
    (entry : string * file.t) : option call :=
  if needs_delete A entry then Some (CallDelete destination entry.1) else None.

Definition delete_calls (destination : ptr) (A : gmap string file.t)
    (entries : list (string * file.t)) : list call :=
  omap (delete_call destination A) entries.

(** ** The variable [noop]

    A computation does not consult [noop] when a change of the variable
    before it runs shows in nothing but the variable afterwards. *)
Definition oblivious {W A} (c : M W A) : Prop :=
  forall (b : bool) (m : machine W),
    c (with_noop b m) = (fst (c m), with_noop b (snd (c m))).

(** The command line [c] with the flag [noop] given or not. *)
Definition with_noop_flag (flag : bool) (c : cli.Context) : cli.Context :=
  cli.mk flag (cli.recursive_flag c) (cli.delete_flag c) (cli.one_time_flag c).

(** The command [sync] from its hook [Before] on. *)
Definition command {W} `{!Backend W} `{!MapRange} (c : cli.Context) (depth : nat)
    (source destination : ptr) (events : list fsnotify.Event) : M W unit :=
  bind (Before c) (fun _ => sync c depth source destination events).

(** ** Keys in canonical form

    A name is plain when it is a path element that [Clean] keeps: not empty,
    without a separator, and neither [.] nor [..].  A rooted key is a
    sequence of plain names, each behind a separator, as in [/foo/bar]. *)
Definition plain_name (n : list ascii) : Prop :=
  n <> [] /\ Forall (fun c => c <> slash) n /\ n <> [dot] /\ n <> [dot; dot].

Definition rooted_path (names : list (list ascii)) : list ascii :=
  concat (map (cons slash) names).

Definition rooted_key (names : list (list ascii)) : string :=
  String.string_of_list_ascii (rooted_path names).

(** ** Statements of the specification the program does not meet as written

    Each is kept as a proposition, so that the program can be compared with
    it. *)


(** "[written] ... both end in the same put+manifest-update outcome": the
    same calls reach the destination and the source manifest ends with the
    same entry for the key. *)
Definition written_same_as_created : Prop :=
  forall (W : Type) (B : Backend W) (m : machine W) l loc key name,
    deref l (heap m) = Some loc ->
    location.Type_ loc = Source ->
    let created := snd (handleEvent l key (fsnotify.mkEvent name fsnotify.Create) m) in
    let written := snd (handleEvent l key (fsnotify.mkEvent name fsnotify.Write) m) in
    calls created = calls written /\
    manifest_at l created !! key = manifest_at l written !! key.

(** "Joining a Location's root with a relative key [and] deriving the
    relative key back ... yields the original key unchanged", for the
    derivation of the watcher and of the two builders. *)
Definition key_round_trip : Prop :=
  forall root key : string,
    watchKey root (join root key) = key /\
    dirKey root (join root key) = key /\
    s3Key root (join root key) = key.

(** ** What a computation leaves alone

    [within R c]: however [c] ends, the machine it leaves is related by [R]
    to the machine it started in.  The relations below say what a method may
    have changed. *)
Definition within {W A} (R : relation (machine W)) (c : M W A) : Prop :=
  forall m, R m (snd (c m)).

(** Two values of a location that differ in the manifest at most. *)
Definition same_but_Manifest (loc loc' : location.t) : Prop :=
  loc' = location.with_Manifest (fun _ => location.Manifest loc') loc.

(** Two stores whose locations are related, pointer by pointer. *)
Definition stores_related (rel : ptr -> relation location.t) (h h' : store) : Prop :=
  forall p, option_Forall2 (rel p) (deref p h) (deref p h').

(** The location at [l] may differ in its manifest, the other one is the
    same. *)
Definition but_Manifest_of (l p : ptr) : relation location.t :=
  if decide (p = l) then same_but_Manifest else eq.

(** Nothing has changed but the manifest of the location at [l]: the world,
    the calls, the watches, the package variables and the other location are
    the same. *)
Definition lists_only {W} (l : ptr) (m m' : machine W) : Prop :=
  world m' = world m /\ calls m' = calls m /\ watched m' = watched m /\
  noop m' = noop m /\ recurse m' = recurse m /\
  stores_related (but_Manifest_of l) (heap m) (heap m').

(** A call the reconciliation may make: a [Put] on the destination, and a
    [Delete] on the destination when the flag [delete] is given. *)
Definition on_destination (d : ptr) (deletes : bool) (c : call) : Prop :=
  match c with
  | CallPut p _ _ => p = d
  | CallDelete p _ => p = d /\ deletes = true
  end.

(** The calls made since are calls the reconciliation may make, and nothing
    has changed but the world and the manifest of the destination. *)
Definition reconciles_only {W} (d : ptr) (deletes : bool) (m m' : machine W) : Prop :=
  (exists cs, calls m' = calls m ++ cs /\ Forall (on_destination d deletes) cs) /\
  watched m' = watched m /\ noop m' = noop m /\ recurse m' = recurse m /\
  stores_related (but_Manifest_of d) (heap m) (heap m').

(** The two locations are what they were but for their manifests. *)
Definition only_Manifests {W} (m m' : machine W) : Prop :=
  stores_related (fun _ => same_but_Manifest) (heap m) (heap m').

(** A location is what it was but for its manifest, and the manifest has at
    the key [k] what it had; the same for the two locations of a machine. *)
Definition same_at (k : string) (loc loc' : location.t) : Prop :=
  same_but_Manifest loc loc' /\
  location.Manifest loc' !! k = location.Manifest loc !! k.

Definition keeps_key {W} (k : string) (m m' : machine W) : Prop :=
  stores_related (fun _ => same_at k) (heap m) (heap m').

(** ** What a listing stores

    The file [buildDirManifest] stores for an entry [fi] of the directory
    [dir], the file [constructFile] makes of an object of a bucket, and the
    manifests the two listings build from the entries they are given. *)
Definition walk_file (dir : string) (fi : FileInfo) : file.t :=
  {| file.Name := fi_Name fi;
     file.Path := dir;
     file.LastModified := fi_ModTime fi;
     file.Size := fi_Size fi;
     file.Object := ObjFileInfo fi |}.

Definition s3_file (o : s3_Object) : file.t :=
  {| file.Name := filepath.Base (o_Key o);
     file.Path := filepath.Dir (o_Key o);
     file.LastModified := o_LastModified o;
     file.Size := o_Size o;
     file.Object := ObjS3 o |}.

Definition walked (root dir : string) (files : list FileInfo)
    (manifest : gmap string file.t) : gmap string file.t :=
  foldl (fun M fi => <[dirKey root (join dir (fi_Name fi)) := walk_file dir fi]> M)
    manifest files.

(** An entry the walk stores: a file that is no directory, as [ReadDir]
    reports it in some directory [dir], under the key made of its path. *)
Definition walked_entry {W} `{!Backend W} (w : W) (root k : string) (f : file.t) : Prop :=
  exists dir files fi,
    ioutil_ReadDir dir w = Some files /\ fi ∈ files /\ fi_IsDir fi = false /\
    k = dirKey root (join dir (fi_Name fi)) /\ f = walk_file dir fi.

Definition listed (root : string) (objects : list s3_Object)
    (manifest : gmap string file.t) : gmap string file.t :=
  foldl (fun M o => <[s3Key root (o_Key o) := s3_file o]> M) manifest objects.

(** ** What an event asks for

    A call without the file it carries, and the call an event of the watcher
    stands for at a source with the root [root] and the destination [d]: a
    [Put] for [Create] and [Write], a [Delete] for [Remove], nothing for any
    other operation. *)
Inductive action :=
  | PutAt (d : ptr) (key : string)
  | DeleteAt (d : ptr) (key : string).

Definition action_of (c : call) : action :=
  match c with
  | CallPut p key _ => PutAt p key
  | CallDelete p key => DeleteAt p key
  end.

Definition event_action (d : ptr) (root : string) (event : fsnotify.Event) : option action :=
  let key := watchKey root (fsnotify.Name event) in
  if decide (fsnotify.Op event = fsnotify.Create) then Some (PutAt d key)
  else if decide (fsnotify.Op event = fsnotify.Write) then Some (PutAt d key)
  else if decide (fsnotify.Op event = fsnotify.Remove) then Some (DeleteAt d key)
  else None.

(** ** What the run leaves as it was

    The variable [recurse] and the watches are what they were, and the two
    locations are what they were but for their manifests. *)
Definition settled {W} (m m' : machine W) : Prop :=
  recurse m' = recurse m /\ watched m' = watched m /\ only_Manifests m m'.

(** ** [func getLocations(c *cli.Context)]

    [url.Parse] and the creation of the session are collaborators of their
    own.  The function fills the two cells of [results]; the map of a new
    location is nil, which reads as the empty map.  The error it returns
    from inside the loop, [sync] hands on to the caller. *)
Module url.
Record URL := mk {
  Scheme : string;
  Host : string;
}.
End url.

Class Client (W : Type) := {
  (* [url.Parse]: [None] is a non-nil error *)
  url_Parse : string -> option url.URL;
  (* [session.NewSessionWithOptions]: [None] is a non-nil error *)
  session_NewSession : W -> option unit;
}.

Inductive error :=
  | ParseError (param : string)
  | Unsupported (scheme param : string).

Inductive located :=
  | Located (source destination : ptr)
  | Refused (err : error).

(** The zero value of [location]. *)
Definition location_zero : location.t :=
  location.mk SvcOther EmptyString EmptyString ∅ Source null.

Section Locations.
Context {W : Type} `{!Backend W} `{!MapRange} `{!Client W}.

(** [&results[i]] *)
Definition result (i : nat) : ptr :=
  match i with
  | 0%nat => results0
  | 1%nat => results1
  | _ => null
  end.

(** [results[i] = loc] *)
Definition set_result (i : nat) (loc : location.t) : M W unit :=
  match result i with
  | null => panic "index out of range"
  | p => fun m => (Ok tt, with_heap (assign p loc (heap m)) m)
  end.

(** One iteration of the loop: [Some err] when the function returns [err]
    from it. *)
Definition locate (i : nat) (param : string) : M W (option error) :=
  let type := match i with 1%nat => Destination | _ => Source end in
  match url_Parse param with
  | None => ret (Some (ParseError param))
  | Some u =>
      if decide (url.Scheme u = EmptyString) then
        bind (ask (os_Lstat param) "os.Lstat") (fun fi =>
        bind (set_result i
                (location.mk (SvcFileInfo fi) EmptyString param ∅ type null)) (fun _ =>
        ret None))
      else if decide (url.Scheme u = "s3") then
        bind (ask session_NewSession "session.NewSessionWithOptions") (fun _ =>
        bind (set_result i
                (location.mk SvcS3 (url.Host u) param ∅ type null)) (fun _ =>
        ret None))
      else ret (Some (Unsupported (url.Scheme u) param))
  end.

Fixpoint locate_all (i : nat) (params : list string) : M W (option error) :=
  match params with
  | [] => ret None
  | param :: params' =>
      bind (locate i param) (fun e =>
      match e with
      | Some err => ret (Some err)
      | None => locate_all (S i) params'
      end)
  end.

Definition getLocations (args : list string) : M W located :=
  if decide (length args = 2%nat) then
    bind (fun m => (Ok tt, with_heap (mkStore location_zero location_zero) m)) (fun _ =>
    bind (locate_all 0 args) (fun e =>
    match e with
    | Some err => ret (Refused err)
    | None =>
        bind (load results0) (fun r0 =>
        bind (fun m =>
                (Ok tt,
                 with_heap
                   (assign results0
                      (location.mk (location.Service r0) (location.Bucket r0)
                         (location.Path r0) (location.Manifest r0)
                         (location.Type_ r0) results1)
                      (heap m)) m)) (fun _ =>
        ret (Located results0 results1)))
    end))
  else fatal "must pass 2 args".

(** [func sync(c *cli.Context) error] from its first line on, for the
    arguments [c.Args()]. *)
Definition sync_Action (c : cli.Context) (depth : nat) (args : list string)
    (events : list fsnotify.Event) : M W unit :=
  bind (getLocations args) (fun r =>
  match r with
  | Located source destination => sync c depth source destination events
  | Refused _ => ret tt
  end).

End Locations.

(** A parser for the small world: an argument that starts with [s3://] has
    the scheme [s3] and the host up to the next separator, any other argument
    has no scheme. *)
Fixpoint until_sep (s : string) : string :=
  match s with
  | EmptyString => EmptyString
  | String c s' => if Ascii.eqb c slash then EmptyString else String c (until_sep s')
  end.

Definition toy_parse (param : string) : option url.URL :=
  if HasPrefix param "s3://" then Some (url.mk "s3" (until_sep (slice_from 5 param)))
  else Some (url.mk EmptyString EmptyString).

#[global] Instance toy_client : Client Toy.t := {|
  url_Parse := toy_parse;
  session_NewSession _ := Some tt;
|}.

(** ** How a computation does not end

    [never msg c]: [c] does not end in the [log.Fatal] with the message
    [msg]; [safe I msg c]: from a machine in [I], [c] does not end in it and
    leaves a machine in [I].  [is_source l]: the location at [l] is a
    source.  [refusal] is the message of [handleEvent] on a location that is
    no source. *)
Definition refusal : string := "we don't do this".

Definition never {W A} (msg : string) (c : M W A) : Prop :=
  forall m, fst (c m) <> Fatal msg.

Definition safe {W A} (I : machine W -> Prop) (msg : string) (c : M W A) : Prop :=
  forall m, I m -> fst (c m) <> Fatal msg /\ I (snd (c m)).

Definition is_source {W} (l : ptr) (m : machine W) : Prop :=
  exists loc, deref l (heap m) = Some loc /\ location.Type_ loc = Source.

(** ** The directories a walk gets to

    The directories below [root] in the world [w]: [root] itself, and every
    directory that [ReadDir] reports in one of them. *)
Inductive reached {W} `{!Backend W} (w : W) (root : string) : string -> Prop :=
  | reached_root : reached w root root
  | reached_sub dir files fi :
      reached w root dir ->
      ioutil_ReadDir dir w = Some files ->
      fi ∈ files ->
      fi_IsDir fi = true ->
      reached w root (join dir (fi_Name fi)).

(** The walk is at work on the location at [l], whose path is [root], in the
    world [w]. *)
Definition walking {W} (w : W) (l : ptr) (root : string) (m : machine W) : Prop :=
  world m = w /\ exists loc, deref l (heap m) = Some loc /\ location.Path loc = root.

(** The location at [l] gains keys and loses none. *)
Definition gains_keys {W} (l : ptr) (m m' : machine W) : Prop :=
  forall k, is_Some (manifest_at l m !! k) -> is_Some (manifest_at l m' !! k).

(** ** Further scenes in the small world

    A bucket location whose prefix the keys of the stored objects start
    with; a source and a directory that hold [b] in the same size and with
    other bytes; the events of a file that is created, written and removed. *)
Definition prefix_loc (manifest : gmap string file.t) : location.t :=
  location.mk SvcS3 "bucket" "/" manifest Destination null.

Definition listed_anew : machine Toy.t :=
  Toy.machine_of (Toy.source_loc Toy.A) (prefix_loc Toy.A).

Definition same_sizes : machine Toy.t :=
  Toy.machine_of (Toy.source_loc {[ "/b" := Toy.file_b ]})
    (Toy.dir_loc {[ "/b" := Toy.dst_b ]}).

(** The source after [/src/b] was removed from the disk, the manifests still
    holding it, and the events the watcher delivers then. *)
Definition b_removed : machine Toy.t :=
  mkMachine false false (mkStore (Toy.source_loc Toy.A) (Toy.s3_loc Toy.B)) []
    (Toy.mk [("/src/a", "0123456789")] ["/src"; "/dst"]
       [(("bucket", "/b"), "43210"); (("bucket", "/c"), "9")]) [].

Definition events_of_b : list fsnotify.Event :=
  [fsnotify.mkEvent "/src/b" fsnotify.Remove;
   fsnotify.mkEvent "/src/a" fsnotify.Write].

(** The same disk with a bucket that holds [/c] only: both files of the
    source are to be put, and [/c] is to be deleted. *)
Definition b_unreadable : machine Toy.t :=
  mkMachine false false
    (mkStore (Toy.source_loc Toy.A) (Toy.s3_loc {[ "/c" := Toy.dst_c ]})) []
    (world b_removed) [].

(** The source with a directory [sub] that holds the file [x]. *)
Definition nested : machine Toy.t :=
  mkMachine false false (mkStore (Toy.source_loc ∅) (Toy.s3_loc ∅)) []
    (Toy.mk [("/src/a", "0123456789"); ("/src/sub/x", "12")] ["/src"; "/src/sub"] [])
    [].

Definition events_of_a : list fsnotify.Event :=
  [fsnotify.mkEvent "/src/a" fsnotify.Create;
   fsnotify.mkEvent "/src/a" fsnotify.Chmod;
   fsnotify.mkEvent "/src/a" fsnotify.Write].

(** * Properties *)

Example Clean_examples :
  map filepath.Clean
    ["/foo"; "//foo"; "/a/../b/./c/"; "a//b"; "../../x"; "/.."; EmptyString;
     "a/.."; "/a/b/../../.."; "abc/def/../.."; "..a/b"]
  = ["/foo"; "/foo"; "/b/c"; "a/b"; "../../x"; "/"; "."; "."; "/"; "."; "..a/b"].
Proof. reflexivity. Qed.

Example Base_Dir_examples :
  map filepath.Base ["/tmp/bar/foo"; "foo"; "/"; EmptyString; "a/b/"]
  = ["foo"; "foo"; "/"; "."; "b"]
  /\ map filepath.Dir ["/tmp/bar/foo"; "foo"; "/"; EmptyString; "a/b/"; "/foo"]
  = ["/tmp/bar"; "."; "/"; "."; "a/b"; "/"].
Proof. split; reflexivity. Qed.


(** ** Strings and keys *)

Lemma HasPrefix_app (root s : string) : HasPrefix (root +:+ s) root = true.
Proof.
  induction root as [|a root IH]; simpl; [by destruct s|].
  by rewrite Ascii.eqb_refl, IH.
Qed.

Lemma slice_from_app (root s : string) :
  slice_from (String.length root) (root +:+ s) = s.
Proof. induction root as [|a root IH]; simpl; [done|apply IH]. Qed.

(** [strings.TrimPrefix] takes off what [+] has put in front. *)
Lemma TrimPrefix_app (root s : string) : TrimPrefix (root +:+ s) root = s.
Proof. unfold TrimPrefix. by rewrite HasPrefix_app, slice_from_app. Qed.

Lemma watchKey_app root key : watchKey root (root +:+ key) = key.
Proof. apply TrimPrefix_app. Qed.

Lemma watchKey_join root key : watchKey root (join root key) = "/" +:+ key.
Proof. apply TrimPrefix_app. Qed.

Lemma dirKey_app root key : dirKey root (root +:+ key) = filepath.Clean key.
Proof. unfold dirKey. by rewrite TrimPrefix_app. Qed.

Lemma dirKey_join root key :
  dirKey root (join root key) = filepath.Clean ("/" +:+ key).
Proof. unfold dirKey, join. by rewrite TrimPrefix_app. Qed.

Lemma s3Key_app root key : s3Key root (root +:+ key) = "/" +:+ key.
Proof. unfold s3Key. by rewrite TrimPrefix_app. Qed.

Lemma s3Key_join root key : s3Key root (join root key) = "//" +:+ key.
Proof. unfold s3Key, join. by rewrite TrimPrefix_app. Qed.

(** ** [Clean] on rooted keys *)

Lemma at_boundary_rooted_path ns : filepath.at_boundary (rooted_path ns) = true.
Proof. by destruct ns. Qed.

Lemma is_sep_false c : c <> slash -> filepath.is_sep c = false.
Proof. intros Hc. by apply Ascii.eqb_neq. Qed.

Lemma element_plain n rest :
  Forall (fun c => c <> slash) n ->
  filepath.at_boundary rest = true ->
  filepath.element (n ++ rest) = (n, rest).
Proof.
  intros Hn Hrest. induction Hn as [|c n Hc Hn IH]; simpl.
  - destruct rest as [|c rest]; simpl in *; [done|]. by rewrite Hrest.
  - by rewrite is_sep_false, IH.
Qed.

(** The first byte of a plain name starts neither a [.] nor a [..] element. *)
Lemma plain_name_head c n rest :
  plain_name (c :: n) ->
  filepath.at_boundary rest = true ->
  filepath.is_sep c = false /\
  filepath.is_dot c && filepath.at_boundary (n ++ rest) = false /\
  filepath.is_dot c && negb (filepath.at_boundary (n ++ rest))
    && filepath.is_dot (hd slash (n ++ rest))
    && filepath.at_boundary (tl (n ++ rest)) = false.
Proof.
  intros (_ & Hsep & Hdot & Hdotdot) Hrest.
  apply Forall_cons in Hsep as [Hc Hn].
  split; [by apply is_sep_false|].
  destruct n as [|c2 n]; simpl.
  - rewrite Hrest; simpl. rewrite andb_false_r.
    destruct (filepath.is_dot c) eqn:Hd; [|done].
    apply Ascii.eqb_eq in Hd as ->. done.
  - apply Forall_cons in Hn as [Hc2 Hn].
    rewrite (is_sep_false c2) by done. simpl. rewrite andb_false_r, andb_true_r.
    split; [done|].
    destruct n as [|c3 n]; simpl.
    + rewrite Hrest, andb_true_r.
      destruct (filepath.is_dot c) eqn:Hd; [|done].
      destruct (filepath.is_dot c2) eqn:Hd2; [|done].
      apply Ascii.eqb_eq in Hd as ->. apply Ascii.eqb_eq in Hd2 as ->. done.
    + apply Forall_cons in Hn as [Hc3 Hn].
      by rewrite (is_sep_false c3), andb_false_r by done.
Qed.

Lemma length_rooted_path ns :
  Forall plain_name ns -> (2 * length ns <= length (rooted_path ns))%nat.
Proof.
  induction 1 as [|n ns (Hn & _) _ IH]; simpl; [done|].
  rewrite length_app. destruct n; [done|]. unfold rooted_path in *. simpl. lia.
Qed.

(** One iteration of the loop of [Clean] at a plain name of a rooted path. *)
Lemma clean_loop_name n rest fuel out :
  plain_name n ->
  filepath.at_boundary rest = true ->
  filepath.clean_loop (S fuel) true (n ++ rest) out 1
  = filepath.clean_loop fuel true rest
      (rev n ++ (if (length out =? 1)%nat then out else slash :: out)) 1.
Proof.
  intros Hn Hrest. destruct n as [|c n]; [by destruct Hn|].
  pose proof (plain_name_head c n rest Hn Hrest) as (Hsep & Hdot & Hdotdot).
  destruct Hn as (_ & Hnosep & _).
  cbn [filepath.clean_loop app]. rewrite Hsep, Hdot, Hdotdot.
  change (c :: n ++ rest) with ((c :: n) ++ rest).
  rewrite element_plain by done.
  cbn [andb negb orb]. rewrite orb_false_r.
  by destruct (length out =? 1)%nat.
Qed.

(** The loop of [Clean] copies a rooted sequence of plain names as it is. *)
Lemma clean_loop_plain ns : forall n fuel out,
  plain_name n ->
  Forall plain_name ns ->
  (1 + 2 * length ns <= fuel)%nat ->
  (1 <= length out)%nat ->
  filepath.clean_loop fuel true (n ++ rooted_path ns) out 1
  = rev (rooted_path ns) ++ rev n
      ++ (if (length out =? 1)%nat then out else slash :: out).
Proof.
  induction ns as [|n2 ns IH]; intros n fuel out Hn Hns Hfuel Hout.
  all: destruct fuel as [|fuel]; [lia|].
  all: rewrite clean_loop_name by auto using at_boundary_rooted_path.
  - by destruct fuel.
  - apply Forall_cons in Hns as [Hn2 Hns].
    destruct fuel as [|fuel]; [simpl in Hfuel; lia|].
    change (rooted_path (n2 :: ns)) with (slash :: n2 ++ rooted_path ns).
    cbn [filepath.clean_loop]. change (filepath.is_sep slash) with true. cbn iota.
    rewrite IH; [|done|done|simpl in *; lia|].
    2:{ rewrite length_app, length_rev. destruct (length out =? 1)%nat; simpl; lia. }
    replace (length (rev n ++ _) =? 1)%nat with false.
    2:{ symmetry. apply Nat.eqb_neq. rewrite length_app, length_rev.
        destruct Hn as (Hne & _). destruct n; [done|].
        destruct (length out =? 1)%nat; simpl; lia. }
    cbn [rev]. rewrite rev_app_distr. by rewrite <- !app_assoc.
Qed.

Lemma clean_loop_sep fuel rooted rest out dotdot :
  filepath.clean_loop (S fuel) rooted (slash :: rest) out dotdot
  = filepath.clean_loop fuel rooted rest out dotdot.
Proof. done. Qed.

(** [Clean] of a rooted path that may start with more than one separator. *)
Lemma Clean_rooted_path n ns fuel :
  plain_name n -> Forall plain_name ns ->
  (1 + 2 * length ns <= fuel)%nat ->
  let out := filepath.clean_loop fuel true (n ++ rooted_path ns) [slash] 1 in
  match out with
  | [] => "."
  | _ => String.string_of_list_ascii (rev out)
  end = rooted_key (n :: ns).
Proof.
  intros Hn Hns Hfuel. cbv zeta.
  rewrite clean_loop_plain by (done || simpl; lia).
  change (length [slash] =? 1)%nat with true. cbn iota.
  assert (Hout : forall out : list ascii, out <> [] ->
            match out with
            | [] => "."
            | _ => String.string_of_list_ascii (rev out)
            end = String.string_of_list_ascii (rev out)) by (by intros []).
  rewrite Hout.
  - by rewrite !rev_app_distr, !rev_involutive.
  - intros Heq. apply (f_equal length) in Heq. rewrite !length_app in Heq.
    simpl in Heq. lia.
Qed.

(** [Clean] returns a rooted key as it is, and takes a doubled leading
    separator off it. *)
Lemma Clean_rooted_key ns :
  ns <> [] -> Forall plain_name ns ->
  filepath.Clean (rooted_key ns) = rooted_key ns /\
  filepath.Clean ("/" +:+ rooted_key ns) = rooted_key ns.
Proof.
  intros Hne Hns. destruct ns as [|n ns]; [done|].
  apply Forall_cons in Hns as [Hn Hns].
  pose proof (length_rooted_path ns Hns) as Hlen.
  split.
  - unfold filepath.Clean. unfold rooted_key at 1.
    rewrite String.list_ascii_of_string_of_list_ascii.
    change (rooted_path (n :: ns)) with (slash :: n ++ rooted_path ns).
    change (filepath.is_sep slash) with true. cbn iota.
    apply (Clean_rooted_path n ns); [done..|]. simpl. rewrite length_app. lia.
  - unfold filepath.Clean. unfold rooted_key at 1.
    change ("/" +:+ ?s) with (String slash s). cbn [String.list_ascii_of_string].
    rewrite String.list_ascii_of_string_of_list_ascii.
    change (rooted_path (n :: ns)) with (slash :: n ++ rooted_path ns).
    change (filepath.is_sep slash) with true. cbn iota.
    change (length (slash :: ?l)) with (S (length l)).
    rewrite clean_loop_sep.
    apply (Clean_rooted_path n ns); [done..|]. simpl. rewrite length_app. lia.
Qed.

(** C8, amended. For every root and every key in canonical form (plain
    names, each behind one separator): the watcher and the directory builder
    return the key unchanged from the plain concatenation of root and key; from
    the join of [Put] and [Delete], which puts a separator in between, the
    directory builder still returns the key, while the watcher returns the key
    behind one more separator; the bucket builder puts a separator in front of
    whatever follows the root. *)
Theorem key_derivation root names :
  names <> [] ->
  Forall plain_name names ->
  let key := rooted_key names in
  watchKey root (root +:+ key) = key /\
  dirKey root (root +:+ key) = key /\
  dirKey root (join root key) = key /\
  watchKey root (join root key) = "/" +:+ key /\
  s3Key root (root +:+ key) = "/" +:+ key /\
  s3Key root (join root key) = "//" +:+ key.
Proof.
  intros Hne Hnames key. subst key.
  destruct (Clean_rooted_key names Hne Hnames) as [Hclean Hclean'].
  rewrite watchKey_app, watchKey_join, dirKey_app, dirKey_join, s3Key_app, s3Key_join.
  by rewrite Hclean, Hclean'.
Qed.

(** The derivations at the root [/tmp/bar] and the key [/foo]. *)
Lemma key_derivation_witness :
  watchKey "/tmp/bar" "/tmp/bar/foo" = "/foo" /\
  dirKey "/tmp/bar" "/tmp/bar/foo" = "/foo" /\
  dirKey "/tmp/bar" "/tmp/bar//foo" = "/foo" /\
  watchKey "/tmp/bar" "/tmp/bar//foo" = "//foo" /\
  s3Key "/tmp/bar" "/tmp/bar/foo" = "//foo" /\
  s3Key "/tmp/bar" "/tmp/bar//foo" = "///foo".
Proof.
  apply (key_derivation "/tmp/bar" [String.list_ascii_of_string "foo"]).
  - done.
  - repeat constructor; done.
Defined.

(** The round trip as the specification states it (C8) fails for the key
    [foo] under the root [/tmp/bar]: none of the three derivations returns
    [foo] from [/tmp/bar/foo]. *)
Lemma key_round_trip_fails :
  watchKey "/tmp/bar" (join "/tmp/bar" "foo") = "/foo" /\
  dirKey "/tmp/bar" (join "/tmp/bar" "foo") = "/foo" /\
  s3Key "/tmp/bar" (join "/tmp/bar" "foo") = "//foo" /\
  ~ key_round_trip.
Proof.
  repeat split; try reflexivity.
  intros Hclaim. by destruct (Hclaim "/tmp/bar" "foo") as [? _].
Qed.

(** ** The decisions of the reconciliation *)

Lemma put_step_lookup_ne svc B entry k :
  k <> entry.1 -> put_step svc B entry !! k = B !! k.
Proof.
  intros Hne. unfold put_step, Put_Manifest.
  destruct (needs_put B entry), svc; by rewrite ?lookup_insert_ne.
Qed.

Lemma needs_put_ext B B' entry :
  B !! entry.1 = B' !! entry.1 -> needs_put B entry = needs_put B' entry.
Proof. unfold needs_put. by intros ->. Qed.

(** The keys of a map are visited once each, so an entry is judged against
    the destination as it was before the loop. *)
Lemma put_calls_keys svc dst entries : forall B B0,
  NoDup entries.*1 ->
  (forall entry, entry ∈ entries -> B !! entry.1 = B0 !! entry.1) ->
  put_calls svc dst B entries = omap (put_call dst B0) entries.
Proof.
  induction entries as [|entry entries IH]; intros B B0 Hnodup Hsame; [done|].
  rewrite fmap_cons in Hnodup. apply NoDup_cons in Hnodup as [Hfresh Hnodup].
  simpl. unfold put_call at 1.
  rewrite <- (needs_put_ext B B0 entry) by (apply Hsame; left).
  rewrite (IH (put_step svc B entry) B0 Hnodup).
  - by destruct (needs_put B entry).
  - intros entry' Hin. rewrite put_step_lookup_ne; [apply Hsame; by right|].
    intros Heq. apply Hfresh. rewrite <- Heq. by apply list_elem_of_fmap_2.
Qed.

Lemma foldl_put_step_other svc B entries :
  svc <> SvcS3 -> foldl (put_step svc) B entries = B.
Proof.
  intros Hsvc. induction entries as [|entry entries IH]; simpl; [done|].
  replace (put_step svc B entry) with B; [done|].
  unfold put_step, Put_Manifest. by destruct (needs_put B entry), svc.
Qed.

Lemma foldl_put_step_fresh svc entries : forall B k,
  k ∉ entries.*1 -> foldl (put_step svc) B entries !! k = B !! k.
Proof.
  induction entries as [|entry entries IH]; intros B k Hk; simpl; [done|].
  rewrite fmap_cons in Hk. apply not_elem_of_cons in Hk as [Hne Hk].
  by rewrite IH, put_step_lookup_ne.
Qed.

Lemma foldl_put_step_lookup entries : forall B k f,
  NoDup entries.*1 ->
  (k, f) ∈ entries ->
  foldl (put_step SvcS3) B entries !! k
  = if needs_put B (k, f) then Some f else B !! k.
Proof.
  induction entries as [|entry entries IH]; intros B k f Hnodup Hin; [by inversion Hin|].
  rewrite fmap_cons in Hnodup. apply NoDup_cons in Hnodup as [Hfresh Hnodup].
  simpl. apply elem_of_cons in Hin as [<- | Hin].
  - rewrite foldl_put_step_fresh by done. unfold put_step, Put_Manifest; simpl.
    destruct (needs_put B (k, f)); [apply lookup_insert_eq|done].
  - assert (Hne : k <> entry.1).
    { intros ->. apply Hfresh. by apply (list_elem_of_fmap_2 fst _ (entry.1, f)). }
    rewrite (IH _ k f) by done.
    rewrite (needs_put_ext _ B (k, f)) by by apply put_step_lookup_ne.
    by rewrite put_step_lookup_ne.
Qed.

Lemma delete_step_lookup A B entry k :
  delete_step A B entry !! k
  = if bool_decide (k = entry.1 /\ A !! k = None) then None else B !! k.
Proof.
  unfold delete_step, needs_delete.
  destruct (decide (k = entry.1)) as [->|Hne].
  - destruct (decide (A !! entry.1 = None)) as [HA|HA].
    + rewrite !bool_decide_eq_true_2 by done. apply lookup_delete_eq.
    + by rewrite !bool_decide_eq_false_2 by tauto.
  - rewrite (bool_decide_eq_false_2 (k = _ /\ _)) by tauto.
    destruct (bool_decide _); [by rewrite lookup_delete_ne|done].
Qed.

Lemma foldl_delete_step_lookup A entries : forall B k,
  foldl (delete_step A) B entries !! k
  = if bool_decide (k ∈ entries.*1 /\ A !! k = None) then None else B !! k.
Proof.
  induction entries as [|entry entries IH]; intros B k; simpl.
  - done.
  - rewrite IH, delete_step_lookup.
    destruct (decide (k = entry.1 /\ A !! k = None)) as [[-> HA]|Hfirst].
    + rewrite (bool_decide_eq_true_2 (entry.1 = entry.1 /\ _)) by done.
      rewrite (bool_decide_eq_true_2 (_ ∈ _ :: _ /\ _)) by (split; [left|done]).
      by destruct (bool_decide _).
    + rewrite (bool_decide_eq_false_2 _ Hfirst).
      apply (f_equal (fun b : bool => if b then None else B !! k)).
      apply bool_decide_ext. rewrite elem_of_cons. tauto.
Qed.

Section Properties.
Context {W : Type} `{!Backend W} `{!MapRange}.
Implicit Types (m : machine W) (l d p q : ptr) (key : string) (f : file.t).
Implicit Types (loc : location.t) (h : store).

(** ** The store *)

Lemma deref_not_null p h loc : deref p h = Some loc -> p <> null.
Proof. by destruct p. Qed.

Lemma deref_assign_eq p h loc : p <> null -> deref p (assign p loc h) = Some loc.
Proof. by destruct p. Qed.

Lemma deref_assign_ne p q h loc : p <> q -> deref q (assign p loc h) = deref q h.
Proof. by destruct p, q. Qed.

Lemma assign_same p h loc : deref p h = Some loc -> assign p loc h = h.
Proof. destruct p, h; simpl; congruence. Qed.

Lemma assign_assign p h loc loc' : assign p loc' (assign p loc h) = assign p loc' h.
Proof. by destruct p. Qed.

Lemma manifest_at_deref p m loc :
  deref p (heap m) = Some loc -> manifest_at p m = location.Manifest loc.
Proof. unfold manifest_at. by intros ->. Qed.

(** ** [Put] and [Delete], one call at a time *)

(** Unfolds the operations of the monad and the methods built from them. *)
Ltac unfold_M :=
  cbv beta iota delta [Put Delete handleEvent constructFile file_Open update_Manifest
    load record ask perform watcher_Add bind ret fatal panic];
  simpl.

(** Splits on a scrutinee that has no [match] inside: a result of a
    collaborator, a pointer, a service. *)
Ltac case_inner :=
  match goal with
  | |- context [match ?x with _ => _ end] =>
      lazymatch x with
      | context [match _ with _ => _ end] => fail
      | _ => destruct x eqn:?; simpl in *
      end
  end.

Lemma Put_completes l loc key f w' m :
  deref l (heap m) = Some loc ->
  backend_put loc key f (world m) = Some w' ->
  Put l key f m = (Ok tt, after_Put l loc key f w' m).
Proof.
  intros Hl Hput. unfold backend_put, opened in Hput.
  unfold Put, bind, record, file_Open, load, ask, perform, update_Manifest, bind, load, ret,
    after_Put; simpl.
  destruct (file.Object f) eqn:Hobj; simpl in *; rewrite ?Hl; simpl.
  - destruct (location.Service loc) eqn:Hsvc; try discriminate; simpl.
    rewrite Hput; simpl. by rewrite Hl.
  - destruct (os_Open _ _) as [content|] eqn:Hopen; simpl in *; [|discriminate].
    rewrite Hl; simpl.
    destruct (location.Service loc) eqn:Hsvc; try discriminate; simpl.
    + rewrite Hput; simpl. by rewrite Hl.
    + destruct (os_Create _ _) as [w1|] eqn:Hcreate; simpl in *; [|discriminate].
      rewrite Hput; simpl. unfold with_world, with_calls; simpl.
      rewrite (assign_same l (heap m)); [done|].
      rewrite Hl. f_equal. by destruct loc.
  - destruct (location.Service loc) eqn:Hsvc; try discriminate; simpl.
    rewrite Hput; simpl. by rewrite Hl.
Qed.

(** A call of [Put] is recorded once, however it ends, and only a completed
    call touches the store. *)
Lemma Put_calls l key f m :
  calls (snd (Put l key f m)) = calls m ++ [CallPut l key f].
Proof.
  unfold Put, bind, record, file_Open, load, ask, perform, update_Manifest, bind, load,
    ret, fatal, panic; simpl.
  repeat case_inner; done.
Qed.

Lemma Put_fails l loc key f m :
  deref l (heap m) = Some loc ->
  backend_put loc key f (world m) = None ->
  fst (Put l key f m) <> Ok tt /\ heap (snd (Put l key f m)) = heap m.
Proof.
  intros Hl Hput. unfold backend_put, opened in Hput.
  unfold Put, bind, record, file_Open, load, ask, perform, update_Manifest, bind, load,
    ret, fatal, panic; simpl.
  rewrite ?Hl; simpl.
  repeat (case_inner; rewrite ?Hl; simpl; try done).
Qed.

Lemma Delete_completes l loc key w' m :
  deref l (heap m) = Some loc ->
  backend_delete loc key (world m) = Some w' ->
  Delete l key m = (Ok tt, after_Delete l loc key w' m).
Proof.
  intros Hl Hdel. unfold backend_delete in Hdel.
  unfold Delete, bind, record, load, perform, update_Manifest, bind, load, fatal,
    after_Delete; simpl.
  rewrite Hl; simpl.
  destruct (location.Service loc); try discriminate; simpl;
    rewrite Hdel; simpl; by rewrite Hl.
Qed.

Lemma Delete_calls l key m :
  calls (snd (Delete l key m)) = calls m ++ [CallDelete l key].
Proof.
  unfold Delete, bind, record, load, perform, update_Manifest, bind, load, fatal; simpl.
  repeat case_inner; done.
Qed.

Lemma Delete_fails l loc key m :
  deref l (heap m) = Some loc ->
  backend_delete loc key (world m) = None ->
  fst (Delete l key m) <> Ok tt /\ heap (snd (Delete l key m)) = heap m.
Proof.
  intros Hl Hdel. unfold backend_delete in Hdel.
  unfold Delete, bind, record, load, perform, update_Manifest, bind, load, fatal; simpl.
  rewrite Hl; simpl.
  destruct (location.Service loc); simpl; rewrite ?Hdel; simpl; done.
Qed.

(** On a directory [Put] leaves the two locations as they are, however it
    ends; on a bucket a completed [Put] has stored the file under the key. *)
Lemma Put_directory_heap l loc fi key f m :
  deref l (heap m) = Some loc ->
  location.Service loc = SvcFileInfo fi ->
  heap (snd (Put l key f m)) = heap m.
Proof.
  intros Hl Hsvc.
  destruct (backend_put loc key f (world m)) as [w'|] eqn:Hput.
  - rewrite (Put_completes l loc key f w' m Hl Hput); simpl. rewrite Hsvc. simpl.
    apply assign_same. rewrite Hl. f_equal. by destruct loc.
  - apply (Put_fails l loc key f m Hl Hput).
Qed.

Lemma Put_bucket_Manifest l loc key f m m' :
  deref l (heap m) = Some loc ->
  location.Service loc = SvcS3 ->
  Put l key f m = (Ok tt, m') ->
  manifest_at l m' = <[key := f]> (location.Manifest loc).
Proof.
  intros Hl Hsvc Hrun.
  destruct (backend_put loc key f (world m)) as [w'|] eqn:Hput.
  - rewrite (Put_completes l loc key f w' m Hl Hput) in Hrun. injection Hrun as <-.
    unfold manifest_at, after_Put; simpl.
    rewrite deref_assign_eq by eauto using deref_not_null. simpl. by rewrite Hsvc.
  - destruct (Put_fails l loc key f m Hl Hput) as [Hfail _]. by rewrite Hrun in Hfail.
Qed.

(** [Put] changes the manifest of no location but its receiver, and there it
    stores the file under the key or changes nothing. *)
Lemma Put_manifest_at p l key f m :
  manifest_at p (snd (Put l key f m)) = manifest_at p m \/
  (p = l /\ manifest_at p (snd (Put l key f m)) = <[key := f]> (manifest_at p m)).
Proof.
  destruct (deref l (heap m)) as [loc|] eqn:Hl.
  - destruct (backend_put loc key f (world m)) as [w'|] eqn:Hput.
    + rewrite (Put_completes l loc key f w' m Hl Hput); simpl.
      unfold manifest_at, after_Put; simpl.
      destruct (decide (p = l)) as [->|Hne].
      * rewrite deref_assign_eq by eauto using deref_not_null. rewrite Hl; simpl.
        unfold Put_Manifest. destruct (location.Service loc); auto.
      * rewrite deref_assign_ne by done. auto.
    + left. unfold manifest_at. by rewrite (proj2 (Put_fails l loc key f m Hl Hput)).
  - left. unfold manifest_at.
    replace (heap (snd (Put l key f m))) with (heap m); [done|].
    unfold_M. by repeat (case_inner; rewrite ?Hl; simpl; try done).
Qed.

Lemma assign_comm p q h loc loc' :
  p <> q -> assign p loc (assign q loc' h) = assign q loc' (assign p loc h).
Proof. by destruct p, q. Qed.

(** A call of [Put] on one location does not read the other location. *)
Lemma Put_frame l d loc key f m :
  d <> l ->
  Put d key f (with_heap (assign l loc (heap m)) m)
  = (fst (Put d key f m),
     with_heap (assign l loc (heap (snd (Put d key f m)))) (snd (Put d key f m))).
Proof.
  intros Hne. unfold_M.
  repeat (case_inner; rewrite ?(deref_assign_ne l d) in * by done; simpl;
          simplify_eq; try done).
  all: unfold with_heap; simpl; by rewrite assign_comm.
Qed.

(** ** The two loops of [oneTimeSync] *)

Lemma bind_Ok {A B} (c : M W A) (k : A -> M W B) m b m' :
  bind c k m = (Ok b, m') ->
  exists a m1, c m = (Ok a, m1) /\ k a m1 = (Ok b, m').
Proof.
  unfold bind. destruct (c m) as [[a|msg|msg] m1]; [eauto|done..].
Qed.

Lemma with_Manifest_const loc :
  location.with_Manifest (fun _ => location.Manifest loc) loc = loc.
Proof. by destruct loc. Qed.

(** One iteration of the first loop that completes. *)
Lemma push_completes dst dl entry m m' :
  deref dst (heap m) = Some dl ->
  push dst entry m = (Ok tt, m') ->
  (needs_put (location.Manifest dl) entry = false /\ m' = m) \/
  (needs_put (location.Manifest dl) entry = true /\
   exists w', m' = after_Put dst dl entry.1 entry.2 w' m).
Proof.
  intros Hd Hrun. destruct entry as [key f]. unfold needs_put; simpl.
  unfold push in Hrun. apply bind_Ok in Hrun as (dl' & m1 & Hload & Hrun).
  unfold load in Hload. rewrite Hd in Hload. injection Hload as <- <-.
  assert (HPut : Put dst key f m = (Ok tt, m') ->
                 exists w', m' = after_Put dst dl key f w' m).
  { intros HPut. destruct (backend_put dl key f (world m)) as [w'|] eqn:Hbackend.
    - exists w'. rewrite (Put_completes dst dl key f w' m Hd Hbackend) in HPut.
      by injection HPut.
    - destruct (Put_fails dst dl key f m Hd Hbackend) as [Hfail _].
      by rewrite HPut in Hfail. }
  destruct (location.Manifest dl !! key) as [destF|]; [|auto].
  destruct (decide (file.Size f <> file.Size destF)) as [Hne|Heq].
  - rewrite bool_decide_eq_true_2 by done. auto.
  - rewrite bool_decide_eq_false_2 by done. left. split; [done|].
    unfold ret in Hrun. by injection Hrun.
Qed.

(** The first loop: the manifest of the destination and the calls follow
    [put_step] and [put_calls], and nothing else changes but the world. *)
Lemma push_loop dst entries : forall dl m m',
  deref dst (heap m) = Some dl ->
  for_each entries (push dst) m = (Ok tt, m') ->
  deref dst (heap m')
    = Some (location.with_Manifest
              (fun _ => foldl (put_step (location.Service dl)) (location.Manifest dl) entries)
              dl) /\
  (forall p, p <> dst -> deref p (heap m') = deref p (heap m)) /\
  calls m' = calls m
    ++ put_calls (location.Service dl) dst (location.Manifest dl) entries.
Proof.
  induction entries as [|entry entries IH]; intros dl m m' Hd Hrun; simpl in *.
  - unfold ret in Hrun. injection Hrun as <-.
    by rewrite with_Manifest_const, app_nil_r.
  - apply bind_Ok in Hrun as ([] & m1 & Hpush & Hrun).
    assert (Hnull : dst <> null) by eauto using deref_not_null.
    destruct (push_completes dst dl entry m m1 Hd Hpush)
      as [[Hno ->] | [Hyes [w' ->]]]; unfold put_step; rewrite ?Hno, ?Hyes.
    + by apply IH.
    + set (dl1 := location.with_Manifest
                    (Put_Manifest (location.Service dl) entry.1 entry.2) dl) in *.
      destruct (IH dl1 (after_Put dst dl entry.1 entry.2 w' m) m'
                  (deref_assign_eq dst (heap m) dl1 Hnull) Hrun)
        as (Hdst & Hother & Hcalls).
      split; [|split].
      * rewrite Hdst. by destruct dl.
      * intros p Hp. rewrite Hother by done. simpl. by rewrite deref_assign_ne.
      * rewrite Hcalls. simpl. by rewrite <- app_assoc.
Qed.

(** One iteration of the second loop that completes. *)
Lemma prune_completes src dst sl dl entry m m' :
  deref src (heap m) = Some sl ->
  deref dst (heap m) = Some dl ->
  prune src dst entry m = (Ok tt, m') ->
  (needs_delete (location.Manifest sl) entry = false /\ m' = m) \/
  (needs_delete (location.Manifest sl) entry = true /\
   exists w', m' = after_Delete dst dl entry.1 w' m).
Proof.
  intros Hs Hd Hrun. destruct entry as [key f]. unfold needs_delete; simpl.
  unfold prune in Hrun. apply bind_Ok in Hrun as (sl' & m1 & Hload & Hrun).
  unfold load in Hload. rewrite Hs in Hload. injection Hload as <- <-.
  destruct (location.Manifest sl !! key) as [srcF|] eqn:Hkey.
  - left. rewrite bool_decide_eq_false_2 by done. split; [done|].
    unfold ret in Hrun. by injection Hrun.
  - right. rewrite bool_decide_eq_true_2 by done. split; [done|].
    destruct (backend_delete dl key (world m)) as [w'|] eqn:Hbackend.
    + exists w'. rewrite (Delete_completes dst dl key w' m Hd Hbackend) in Hrun.
      by injection Hrun.
    + destruct (Delete_fails dst dl key m Hd Hbackend) as [Hfail _].
      by rewrite Hrun in Hfail.
Qed.

(** The second loop: the manifest of the destination and the calls follow
    [delete_step] and [delete_calls]. *)
Lemma prune_loop src dst sl entries : src <> dst -> forall dl m m',
  deref src (heap m) = Some sl ->
  deref dst (heap m) = Some dl ->
  for_each entries (prune src dst) m = (Ok tt, m') ->
  deref dst (heap m')
    = Some (location.with_Manifest
              (fun _ => foldl (delete_step (location.Manifest sl))
                          (location.Manifest dl) entries) dl) /\
  (forall p, p <> dst -> deref p (heap m') = deref p (heap m)) /\
  calls m' = calls m ++ delete_calls dst (location.Manifest sl) entries.
Proof.
  intros Hne.
  induction entries as [|entry entries IH]; intros dl m m' Hs Hd Hrun; simpl in *.
  - unfold ret in Hrun. injection Hrun as <-.
    by rewrite with_Manifest_const, app_nil_r.
  - apply bind_Ok in Hrun as ([] & m1 & Hprune & Hrun).
    assert (Hnull : dst <> null) by eauto using deref_not_null.
    unfold delete_calls, delete_call; simpl.
    destruct (prune_completes src dst sl dl entry m m1 Hs Hd Hprune)
      as [[Hno ->] | [Hyes [w' ->]]]; unfold delete_step at 2; rewrite ?Hno, ?Hyes.
    + by apply IH.
    + set (dl1 := location.with_Manifest (delete entry.1) dl) in *.
      destruct (IH dl1 (after_Delete dst dl entry.1 w' m) m') as (Hdst & Hother & Hcalls).
      { simpl. by rewrite deref_assign_ne. }
      { apply (deref_assign_eq dst (heap m) dl1 Hnull). }
      { done. }
      split; [|split].
      * rewrite Hdst. by destruct dl.
      * intros p Hp. rewrite Hother by done. simpl. by rewrite deref_assign_ne.
      * rewrite Hcalls. simpl. by rewrite <- app_assoc.
Qed.

(** A loop whose iterations all return without a change returns without a
    change. *)
Lemma for_each_skip {A} (xs : list A) (body : A -> M W unit) m :
  (forall x, x ∈ xs -> body x m = (Ok tt, m)) ->
  for_each xs body m = (Ok tt, m).
Proof.
  induction xs as [|x xs IH]; intros Hbody; simpl; [done|].
  unfold bind. rewrite Hbody by left. apply IH. intros y Hy. apply Hbody. by right.
Qed.

Lemma push_skip dst dl entry m :
  deref dst (heap m) = Some dl ->
  needs_put (location.Manifest dl) entry = false ->
  push dst entry m = (Ok tt, m).
Proof.
  intros Hd Hno. destruct entry as [key f]. unfold needs_put in Hno; simpl in Hno.
  unfold push, bind, load. rewrite Hd.
  destruct (location.Manifest dl !! key) as [destF|]; [|done].
  apply bool_decide_eq_false in Hno. by rewrite decide_False.
Qed.

Lemma prune_skip src dst sl entry m :
  deref src (heap m) = Some sl ->
  needs_delete (location.Manifest sl) entry = false ->
  prune src dst entry m = (Ok tt, m).
Proof.
  intros Hs Hno. destruct entry as [key f]. unfold needs_delete in Hno; simpl in Hno.
  unfold prune, bind, load. rewrite Hs.
  apply bool_decide_eq_false in Hno.
  by destruct (location.Manifest sl !! key).
Qed.

(** ** [oneTimeSync] *)

Lemma range_NoDup (A : gmap string file.t) : NoDup (range A).*1.
Proof. rewrite range_perm. apply NoDup_fst_map_to_list. Qed.

Lemma elem_of_range (A : gmap string file.t) k f : (k, f) ∈ range A <-> A !! k = Some f.
Proof. rewrite range_perm. apply elem_of_map_to_list. Qed.

Lemma elem_of_range_keys (A : gmap string file.t) k :
  k ∈ (range A).*1 <-> is_Some (A !! k).
Proof.
  rewrite list_elem_of_fmap. split.
  - intros ([k' f] & -> & Hin). apply elem_of_range in Hin. by exists f.
  - intros [f Hf]. exists (k, f). split; [done|]. by apply elem_of_range.
Qed.

(** A reconciliation that completes has made the calls that [put_call] and
    [delete_call] select, in the order of the two enumerations, and has left
    the manifest of the destination as the two loops shape it. *)
Lemma oneTimeSync_completed c src dst sl dl m m' :
  src <> dst ->
  deref src (heap m) = Some sl ->
  deref dst (heap m) = Some dl ->
  oneTimeSync c src dst m = (Ok tt, m') ->
  let A := location.Manifest sl in
  let B := location.Manifest dl in
  let B1 := foldl (put_step (location.Service dl)) B (range A) in
  calls m' = calls m ++ omap (put_call dst B) (range A)
               ++ (if cli.Bool c "delete" then delete_calls dst A (range B1) else []) /\
  deref src (heap m') = Some sl /\
  deref dst (heap m')
    = Some (location.with_Manifest
              (fun _ => if cli.Bool c "delete"
                        then foldl (delete_step A) B1 (range B1) else B1) dl).
Proof.
  intros Hne Hs Hd Hrun A B B1.
  unfold oneTimeSync in Hrun.
  apply bind_Ok in Hrun as (sl' & m0 & Hload & Hrun).
  unfold load in Hload. rewrite Hs in Hload. injection Hload as <- <-.
  apply bind_Ok in Hrun as ([] & m1 & Hpush & Hrun).
  destruct (push_loop dst (range A) dl m m1 Hd Hpush) as (Hd1 & Hother1 & Hcalls1).
  rewrite (put_calls_keys _ dst (range A) B B) in Hcalls1 by auto using range_NoDup.
  fold B B1 in Hd1.
  assert (Hs1 : deref src (heap m1) = Some sl) by by rewrite Hother1.
  destruct (cli.Bool c "delete").
  - apply bind_Ok in Hrun as (dl1 & m1' & Hload & Hrun).
    unfold load in Hload. rewrite Hd1 in Hload. injection Hload as <- <-.
    destruct (prune_loop src dst sl (range B1) Hne _ m1 m' Hs1 Hd1 Hrun)
      as (Hd2 & Hother2 & Hcalls2).
    simpl in Hd2, Hcalls2. fold A in Hd2, Hcalls2.
    split; [|split].
    + by rewrite Hcalls2, Hcalls1, <- app_assoc.
    + by rewrite Hother2, Hs1.
    + rewrite Hd2. by destruct dl.
  - unfold ret in Hrun. injection Hrun as <-.
    split; [|split].
    + by rewrite Hcalls1, app_nil_r.
    + done.
    + done.
Qed.

(** A reconciliation of two locations that agree makes no call and changes
    nothing. *)
Lemma oneTimeSync_in_sync c src dst sl dl m :
  deref src (heap m) = Some sl ->
  deref dst (heap m) = Some dl ->
  (forall entry, entry ∈ range (location.Manifest sl) ->
     needs_put (location.Manifest dl) entry = false) ->
  (cli.Bool c "delete" = true ->
   forall entry, entry ∈ range (location.Manifest dl) ->
     needs_delete (location.Manifest sl) entry = false) ->
  oneTimeSync c src dst m = (Ok tt, m).
Proof.
  intros Hs Hd Hput Hdelete.
  unfold oneTimeSync, bind at 1, load at 1. rewrite Hs.
  unfold bind. rewrite for_each_skip by eauto using push_skip.
  destruct (cli.Bool c "delete"); [|done].
  unfold load. rewrite Hd.
  apply for_each_skip. eauto using prune_skip.
Qed.

(** The manifest of a bucket after the first loop, key by key. *)
Lemma pushed_lookup (A B : gmap string file.t) k :
  foldl (put_step SvcS3) B (range A) !! k
  = match A !! k with
    | Some f => if needs_put B (k, f) then Some f else B !! k
    | None => B !! k
    end.
Proof.
  destruct (A !! k) as [f|] eqn:HA.
  - apply foldl_put_step_lookup; [apply range_NoDup|by apply elem_of_range].
  - apply foldl_put_step_fresh. rewrite elem_of_range_keys, HA. by intros [? ?].
Qed.

(** The manifest of the destination after the second loop, key by key. *)
Lemma pruned_lookup (A B1 : gmap string file.t) k :
  foldl (delete_step A) B1 (range B1) !! k
  = match A !! k with
    | Some _ => B1 !! k
    | None => None
    end.
Proof.
  rewrite foldl_delete_step_lookup.
  destruct (A !! k) as [f|] eqn:HA.
  - rewrite bool_decide_eq_false_2; [done|]. by intros [_ ?].
  - destruct (B1 !! k) as [g|] eqn:HB.
    + rewrite bool_decide_eq_true_2; [done|]. split; [|done].
      apply elem_of_range_keys. by rewrite HB.
    + by destruct (bool_decide _).
Qed.

(** A pushed entry has the size of the source, and so has an entry that was
    not pushed. *)
Lemma pushed_Size (A B : gmap string file.t) k f :
  A !! k = Some f ->
  exists g, foldl (put_step SvcS3) B (range A) !! k = Some g /\
            file.Size g = file.Size f.
Proof.
  intros HA. rewrite pushed_lookup, HA. unfold needs_put; simpl.
  destruct (B !! k) as [g|]; [|by exists f].
  destruct (decide (file.Size f <> file.Size g)) as [Hne|Heq].
  - rewrite bool_decide_eq_true_2 by done. by exists f.
  - rewrite bool_decide_eq_false_2 by done. exists g. split; [done|].
    symmetry. by apply dec_stable.
Qed.

(** *** The reconciliation onto a directory

    [Put] on a directory leaves the manifest alone, so the first loop leaves
    the manifest of the destination as it found it, whatever it has pushed. *)

(** X10. A reconciliation onto a directory that completes has made a put for
    every entry of the source that the manifest of the destination lacks or
    has in another size, yet the manifest of the destination has gained no
    entry: it is what it was, or with the flag [delete] what it was without
    the keys that the source lacks. *)
Lemma oneTimeSync_directory c src dst sl dl fi m m' :
  src <> dst ->
  deref src (heap m) = Some sl ->
  deref dst (heap m) = Some dl ->
  location.Service dl = SvcFileInfo fi ->
  oneTimeSync c src dst m = (Ok tt, m') ->
  let A := location.Manifest sl in
  let B := location.Manifest dl in
  (exists puts deletes,
     calls m' = calls m ++ puts ++ deletes /\
     puts ≡ₚ omap (put_call dst B) (map_to_list A)) /\
  forall k,
    manifest_at dst m' !! k
    = if cli.Bool c "delete" then (match A !! k with Some _ => B !! k | None => None end)
      else B !! k.
Proof.
  intros Hne Hs Hd Hsvc Hrun A B.
  destruct (oneTimeSync_completed c src dst sl dl m m' Hne Hs Hd Hrun)
    as (Hcalls & _ & Hd').
  rewrite foldl_put_step_other in * by by rewrite Hsvc.
  rewrite (manifest_at_deref dst m' _ Hd'). simpl.
  split.
  - eexists _, _. split; [done|]. by rewrite range_perm.
  - intros k. destruct (cli.Bool c "delete"); [apply pruned_lookup|done].
Qed.

(** *** The reconciliation onto a bucket

    For a destination that is a bucket, [Put] keeps the manifest, and the
    reconciliation does what the specification says of it. *)

(** X5. Without the flag [delete]: a put for every entry of the source that
    the destination lacks or has in another size and for no other, the keys
    of both manifests afterwards, and the sizes of the source. *)
Lemma oneTimeSync_bucket c src dst sl dl m m' :
  src <> dst ->
  deref src (heap m) = Some sl ->
  deref dst (heap m) = Some dl ->
  location.Service dl = SvcS3 ->
  cli.Bool c "delete" = false ->
  oneTimeSync c src dst m = (Ok tt, m') ->
  let A := location.Manifest sl in
  let B := location.Manifest dl in
  (exists puts, calls m' = calls m ++ puts /\
                puts ≡ₚ omap (put_call dst B) (map_to_list A)) /\
  dom (manifest_at dst m') = dom A ∪ dom B /\
  (forall k f, A !! k = Some f ->
     exists g, manifest_at dst m' !! k = Some g /\ file.Size g = file.Size f).
Proof.
  intros Hne Hs Hd Hsvc Hflag Hrun A B.
  destruct (oneTimeSync_completed c src dst sl dl m m' Hne Hs Hd Hrun)
    as (Hcalls & _ & Hd').
  rewrite Hflag, Hsvc in *. rewrite app_nil_r in Hcalls.
  rewrite (manifest_at_deref dst m' _ Hd'). simpl.
  subst A B. set (A := location.Manifest sl) in *. set (B := location.Manifest dl) in *.
  split; [|split].
  - eexists. split; [done|]. by rewrite range_perm.
  - apply set_eq. intros k. rewrite elem_of_union, !elem_of_dom.
    destruct (A !! k) as [f|] eqn:HA.
    + destruct (pushed_Size A B k f HA) as (g & -> & _). split; eauto.
    + rewrite pushed_lookup, HA. split; [by right|]. by intros [[? ?]|?].
  - intros k f HA. by apply pushed_Size.
Qed.

(** X6. With the flag [delete]: a delete for every key of the destination
    that the source lacks and for no other, and the keys of the source
    afterwards. *)
Lemma oneTimeSync_delete_bucket c src dst sl dl m m' :
  src <> dst ->
  deref src (heap m) = Some sl ->
  deref dst (heap m) = Some dl ->
  location.Service dl = SvcS3 ->
  cli.Bool c "delete" = true ->
  oneTimeSync c src dst m = (Ok tt, m') ->
  let A := location.Manifest sl in
  let B := location.Manifest dl in
  (exists puts deletes,
     calls m' = calls m ++ puts ++ deletes /\
     puts ≡ₚ omap (put_call dst B) (map_to_list A) /\
     forall cl, cl ∈ deletes <->
       exists k, cl = CallDelete dst k /\ is_Some (B !! k) /\ A !! k = None) /\
  dom (manifest_at dst m') = dom A /\
  (forall k f, A !! k = Some f ->
     exists g, manifest_at dst m' !! k = Some g /\ file.Size g = file.Size f).
Proof.
  intros Hne Hs Hd Hsvc Hflag Hrun A B.
  destruct (oneTimeSync_completed c src dst sl dl m m' Hne Hs Hd Hrun)
    as (Hcalls & _ & Hd').
  rewrite Hflag, Hsvc in *.
  rewrite (manifest_at_deref dst m' _ Hd'). simpl.
  subst A B. set (A := location.Manifest sl) in *. set (B := location.Manifest dl) in *.
  split; [|split].
  - eexists _, _. split; [done|]. split; [by rewrite range_perm|].
    intros cl. unfold delete_calls. rewrite list_elem_of_omap. split.
    + intros ([k g] & Hin & Hcall). unfold delete_call, needs_delete in Hcall.
      simpl in Hcall. case_bool_decide as HA; [|done]. injection Hcall as <-.
      exists k. split; [done|]. split; [|done].
      apply elem_of_range in Hin. rewrite pushed_lookup, HA in Hin.
      by rewrite Hin.
    + intros (k & -> & [g HB] & HA). exists (k, g). split.
      * apply elem_of_range. by rewrite pushed_lookup, HA.
      * unfold delete_call, needs_delete; simpl. by rewrite bool_decide_eq_true_2.
  - apply set_eq. intros k. rewrite !elem_of_dom, pruned_lookup.
    destruct (A !! k) as [f|] eqn:HA.
    + destruct (pushed_Size A B k f HA) as (g & -> & _). split; eauto.
    + split; by intros [? ?].
  - intros k f HA. rewrite pruned_lookup, HA. by apply pushed_Size.
Qed.

(** X7. A second reconciliation onto a bucket, right after one that
    completed, makes no call and changes nothing. *)
Lemma oneTimeSync_twice_bucket c src dst sl dl m m' :
  src <> dst ->
  deref src (heap m) = Some sl ->
  deref dst (heap m) = Some dl ->
  location.Service dl = SvcS3 ->
  oneTimeSync c src dst m = (Ok tt, m') ->
  oneTimeSync c src dst m' = (Ok tt, m').
Proof.
  intros Hne Hs Hd Hsvc Hrun.
  destruct (oneTimeSync_completed c src dst sl dl m m' Hne Hs Hd Hrun)
    as (_ & Hs' & Hd').
  rewrite Hsvc in Hd'.
  apply (oneTimeSync_in_sync c src dst sl _ m' Hs' Hd'); simpl.
  - intros [k f] Hin. apply elem_of_range in Hin.
    assert (exists g, foldl (put_step SvcS3) (location.Manifest dl)
                        (range (location.Manifest sl)) !! k = Some g
                      /\ file.Size g = file.Size f) as (g & Hg & Hsize)
      by by apply pushed_Size.
    unfold needs_put; simpl.
    destruct (cli.Bool c "delete").
    + rewrite pruned_lookup, Hin, Hg. by rewrite bool_decide_eq_false_2 by congruence.
    + rewrite Hg. by rewrite bool_decide_eq_false_2 by congruence.
  - intros -> [k g] Hin. apply elem_of_range in Hin.
    rewrite pruned_lookup in Hin. unfold needs_delete; simpl.
    destruct (location.Manifest sl !! k); [|done].
    by rewrite bool_decide_eq_false_2.
Qed.

(** ** Events *)

(** The handler on its own.  For a key of the source manifest, handling a
    [Remove] event calls [Delete] on the destination once, for that key, and
    then removes the key from the source manifest: when the backend of the
    destination removes the object, the handler returns, the key is in
    neither manifest and no other call has been made. *)
Theorem handleEvent_Remove_deletes_once l loc dloc key name w' m :
  deref l (heap m) = Some loc ->
  location.Type_ loc = Source ->
  deref (location.Destination loc) (heap m) = Some dloc ->
  is_Some (location.Manifest loc !! key) ->
  backend_delete dloc key (world m) = Some w' ->
  exists m',
    handleEvent l key (fsnotify.mkEvent name fsnotify.Remove) m = (Ok tt, m') /\
    calls m' = calls m ++ [CallDelete (location.Destination loc) key] /\
    world m' = w' /\
    manifest_at l m' = delete key (location.Manifest loc) /\
    manifest_at l m' !! key = None /\
    manifest_at (location.Destination loc) m' !! key = None.
Proof.
  intros Hl Hsrc Hd _ Hdel.
  pose proof (Delete_completes _ _ key w' m Hd Hdel) as HDelete.
  assert (Hnl : l <> null) by eauto using deref_not_null.
  assert (Hnd : location.Destination loc <> null) by eauto using deref_not_null.
  cbv beta iota delta [handleEvent bind load]; simpl.
  rewrite Hl; simpl. rewrite decide_True by done. simpl.
  rewrite HDelete.
  cbv beta iota delta [update_Manifest bind load after_Delete]; simpl.
  destruct (decide (l = location.Destination loc)) as [Heq|Hne].
  - rewrite <- Heq in *. rewrite deref_assign_eq by done.
    eexists; split; [reflexivity|]. unfold manifest_at; simpl.
    rewrite assign_assign, deref_assign_eq by done; simpl.
    assert (dloc = loc) as -> by congruence.
    rewrite delete_delete_eq, lookup_delete_eq. done.
  - rewrite deref_assign_ne, Hl by done.
    eexists; split; [reflexivity|]. unfold manifest_at; simpl.
    rewrite deref_assign_eq by done; simpl.
    rewrite deref_assign_ne, deref_assign_eq by done; simpl.
    by rewrite !lookup_delete_eq.
Qed.

(** When the backend of the destination refuses, the call has still been
    made once and the process ends. *)
Lemma handleEvent_Remove_refused l loc dloc key name m :
  deref l (heap m) = Some loc ->
  location.Type_ loc = Source ->
  deref (location.Destination loc) (heap m) = Some dloc ->
  backend_delete dloc key (world m) = None ->
  let r := handleEvent l key (fsnotify.mkEvent name fsnotify.Remove) m in
  fst r <> Ok tt /\
  calls (snd r) = calls m ++ [CallDelete (location.Destination loc) key].
Proof.
  intros Hl Hsrc Hd Hdel.
  pose proof (Delete_fails _ _ key m Hd Hdel) as [Hfail _].
  pose proof (Delete_calls (location.Destination loc) key m) as Hcalls.
  cbv beta iota delta [handleEvent bind load]; simpl.
  rewrite Hl; simpl. rewrite decide_True by done. simpl.
  destruct (Delete _ key m) as [[[]| |] m1]; simpl in *; done.
Qed.

(** The loop of [Watch] does not reach the handler for a path that is gone,
    as the path of a [Remove] event is: [os.Lstat] returns no [FileInfo], and
    the call of [IsDir] on it panics. *)
Lemma Watch_event_gone l event m :
  os_Lstat (fsnotify.Name event) (world m) = None ->
  Watch_event l event m = (Panic "nil pointer dereference", m).
Proof. intros Hgone. unfold Watch_event, bind, inspect. by rewrite Hgone. Qed.

(** C7. A [Remove] event reaches the handler through the loop of [Watch],
    which calls [os.Lstat] on the path of the event first.  For a file that
    was removed, [os.Lstat] finds nothing, and the call of [IsDir] on the nil
    [FileInfo] panics: the loop ends, no delete has reached the destination,
    the world is as it was, and the key of the event is in the source
    manifest as before, in every further event as well.  The handler called
    with the same key and event would have made the one call of [Delete]. *)
Theorem Watch_Remove_of_removed_file l loc event events m :
  deref l (heap m) = Some loc ->
  location.Type_ loc = Source ->
  fsnotify.Op event = fsnotify.Remove ->
  os_Lstat (fsnotify.Name event) (world m) = None ->
  let key := watchKey (location.Path loc) (fsnotify.Name event) in
  is_Some (location.Manifest loc !! key) ->
  let r := for_each (event :: events) (Watch_event l) m in
  fst r = Panic "nil pointer dereference" /\
  calls (snd r) = calls m /\
  world (snd r) = world m /\
  manifest_at l (snd r) = location.Manifest loc /\
  is_Some (manifest_at l (snd r) !! key) /\
  calls (snd (handleEvent l key event m))
  = calls m ++ [CallDelete (location.Destination loc) key].
Proof.
  intros Hl Hsrc Hop Hgone key Hkey r. subst r.
  assert (for_each (event :: events) (Watch_event l) m
          = (Panic "nil pointer dereference", m)) as ->.
  { cbn [for_each]. unfold bind. by rewrite (Watch_event_gone l event m Hgone). }
  cbn [fst snd].
  split; [done|]. split; [done|]. split; [done|].
  split; [by apply manifest_at_deref|].
  split; [by rewrite (manifest_at_deref l m loc Hl)|].
  unfold handleEvent, bind at 1, load. rewrite Hl, decide_True by done.
  rewrite Hop. simpl. unfold bind.
  pose proof (Delete_calls (location.Destination loc) key m) as Hcalls.
  destruct (Delete (location.Destination loc) key m) as [[[]|msg|msg] m1];
    simpl in *; [|done..].
  unfold update_Manifest, bind, load. by destruct (deref l (heap m1)).
Qed.


Lemma constructFile_event event fi m :
  os_Stat (fsnotify.Name event) (world m) = Some fi ->
  constructFile (InEvent event) m = (Ok (event_file (fsnotify.Name event) fi), m).
Proof. intros Hstat. unfold_M. by rewrite Hstat. Qed.

(** [handleEvent] on a source, by the operation of the event. *)
Lemma handleEvent_Create l loc key name fi m :
  deref l (heap m) = Some loc ->
  location.Type_ loc = Source ->
  os_Stat name (world m) = Some fi ->
  handleEvent l key (fsnotify.mkEvent name fsnotify.Create) m
  = Put (location.Destination loc) key (event_file name fi)
      (with_heap (assign l (location.with_Manifest
                              (insert key (event_file name fi)) loc) (heap m)) m).
Proof.
  intros Hl Hsrc Hstat.
  cbv beta iota delta [handleEvent constructFile update_Manifest bind load ask ret]; simpl.
  rewrite Hl; simpl. rewrite decide_True by done; simpl.
  rewrite Hstat; simpl. by rewrite Hl.
Qed.

Lemma handleEvent_Write l loc key name fi m :
  deref l (heap m) = Some loc ->
  location.Type_ loc = Source ->
  os_Stat name (world m) = Some fi ->
  handleEvent l key (fsnotify.mkEvent name fsnotify.Write) m
  = Put (location.Destination loc) key (event_file name fi) m.
Proof.
  intros Hl Hsrc Hstat.
  cbv beta iota delta [handleEvent constructFile update_Manifest bind load ask ret]; simpl.
  rewrite Hl; simpl. rewrite decide_True by done; simpl.
  by rewrite Hstat.
Qed.

Lemma handleEvent_no_Stat l loc key name op m :
  deref l (heap m) = Some loc ->
  location.Type_ loc = Source ->
  op = fsnotify.Create \/ op = fsnotify.Write ->
  os_Stat name (world m) = None ->
  handleEvent l key (fsnotify.mkEvent name op) m = (Fatal "os.Stat", m).
Proof.
  intros Hl Hsrc Hop Hstat.
  cbv beta iota delta [handleEvent constructFile update_Manifest bind load ask ret]; simpl.
  rewrite Hl; simpl. rewrite decide_True by done; simpl.
  destruct Hop as [-> | ->]; simpl; by rewrite Hstat.
Qed.

(** C5, amended. On a source whose destination is another location, a
    [Write] event and a [Create] event for the same path end alike, reach the
    destination with the same calls and leave the world and the destination
    location in the same state.  They differ in the source manifest: [Write]
    leaves it as it was, [Create] has stored the file made of the event under
    the key.  The call the two make is one [Put] on the destination, with the
    key and the file made of the event; when the backend of the destination
    takes the file, both return, the world is as the backend has left it, and
    the destination has the entry that [Put] stores.  When [os.Stat] does not
    find the path, neither makes a call. *)
Theorem handleEvent_Write_vs_Create l loc key name m :
  deref l (heap m) = Some loc ->
  location.Type_ loc = Source ->
  location.Destination loc <> l ->
  let created := handleEvent l key (fsnotify.mkEvent name fsnotify.Create) m in
  let written := handleEvent l key (fsnotify.mkEvent name fsnotify.Write) m in
  fst created = fst written /\
  calls (snd created) = calls (snd written) /\
  world (snd created) = world (snd written) /\
  deref (location.Destination loc) (heap (snd created))
    = deref (location.Destination loc) (heap (snd written)) /\
  manifest_at l (snd written) = location.Manifest loc /\
  (forall fi, os_Stat name (world m) = Some fi ->
     manifest_at l (snd created) = <[key := event_file name fi]> (location.Manifest loc)) /\
  (forall fi, os_Stat name (world m) = Some fi ->
     calls (snd written)
     = calls m ++ [CallPut (location.Destination loc) key (event_file name fi)] /\
     calls (snd created)
     = calls m ++ [CallPut (location.Destination loc) key (event_file name fi)]) /\
  (forall fi dloc w',
     os_Stat name (world m) = Some fi ->
     deref (location.Destination loc) (heap m) = Some dloc ->
     backend_put dloc key (event_file name fi) (world m) = Some w' ->
     fst written = Ok tt /\ fst created = Ok tt /\
     world (snd written) = w' /\ world (snd created) = w' /\
     manifest_at (location.Destination loc) (snd written)
     = Put_Manifest (location.Service dloc) key (event_file name fi)
         (location.Manifest dloc) /\
     manifest_at (location.Destination loc) (snd created)
     = Put_Manifest (location.Service dloc) key (event_file name fi)
         (location.Manifest dloc)) /\
  (os_Stat name (world m) = None ->
     fst written = Fatal "os.Stat" /\ fst created = Fatal "os.Stat" /\
     calls (snd written) = calls m /\ calls (snd created) = calls m).
Proof.
  intros Hl Hsrc Hne created written. subst created written.
  assert (Hnl : l <> null) by eauto using deref_not_null.
  destruct (os_Stat name (world m)) as [fi|] eqn:Hstat.
  - rewrite (handleEvent_Create l loc key name fi m), (handleEvent_Write l loc key name fi m)
      by done.
    rewrite Put_frame by done. simpl.
    destruct (Put_manifest_at l (location.Destination loc) key (event_file name fi) m)
      as [Hsame | [Heq _]]; [|congruence].
    split; [done|]. split; [done|]. split; [done|].
    split; [by rewrite deref_assign_ne by done|].
    split; [by rewrite Hsame, (manifest_at_deref l m loc)|].
    split.
    { intros fi' [= <-]. unfold manifest_at; simpl. by rewrite deref_assign_eq by done. }
    split.
    { intros fi' [= <-]. split; apply Put_calls. }
    split; [|done].
    intros fi' dloc w' [= <-] Hd Hput.
    assert (Hnd : location.Destination loc <> null) by eauto using deref_not_null.
    rewrite (Put_completes _ dloc key (event_file name fi) w' m Hd Hput). simpl.
    assert (Hentry : manifest_at (location.Destination loc)
                       (after_Put (location.Destination loc) dloc key
                          (event_file name fi) w' m)
                     = Put_Manifest (location.Service dloc) key (event_file name fi)
                         (location.Manifest dloc)).
    { unfold manifest_at, after_Put; simpl. by rewrite deref_assign_eq by done. }
    repeat split; try done.
    unfold manifest_at in *; simpl in *. by rewrite deref_assign_ne by done.
  - rewrite !(handleEvent_no_Stat l loc key name _ m) by auto. simpl.
    repeat split; try done. by apply manifest_at_deref.
Qed.

(** C9. The file made of a [Create] or [Write] event has size [0] whatever
    size [os.Stat] reports: only the name, the directory and the result of
    [os.Stat] are filled in.  [Create] stores that file in the source
    manifest, and after either event every entry of the source manifest that
    was not there before is that file. *)
Theorem watch_file_Size_zero event fi l loc key m :
  os_Stat (fsnotify.Name event) (world m) = Some fi ->
  deref l (heap m) = Some loc ->
  location.Type_ loc = Source ->
  fsnotify.Op event = fsnotify.Create \/ fsnotify.Op event = fsnotify.Write ->
  exists f,
    constructFile (InEvent event) m = (Ok f, m) /\
    file.Size f = 0 /\
    file.Name f = filepath.Base (fsnotify.Name event) /\
    file.Path f = filepath.Dir (fsnotify.Name event) /\
    file.LastModified f = 0 /\
    file.Object f = ObjFileInfo fi /\
    (fsnotify.Op event = fsnotify.Create ->
       manifest_at l (snd (handleEvent l key event m)) !! key = Some f) /\
    (forall k g,
       manifest_at l (snd (handleEvent l key event m)) !! k = Some g ->
       location.Manifest loc !! k = Some g \/ (k = key /\ g = f /\ file.Size g = 0)).
Proof.
  intros Hstat Hl Hsrc Hop.
  assert (Hnl : l <> null) by eauto using deref_not_null.
  exists (event_file (fsnotify.Name event) fi).
  rewrite (constructFile_event event fi m Hstat).
  destruct event as [name op]; simpl in *.
  repeat split; try done.
  - intros ->. rewrite (handleEvent_Create l loc key name fi m) by done.
    match goal with |- manifest_at l (snd (Put ?d key ?f ?m1)) !! key = _ =>
      destruct (Put_manifest_at l d key f m1) as [-> | [_ ->]] end.
    + unfold manifest_at; simpl. rewrite deref_assign_eq by done; simpl.
      apply lookup_insert_eq.
    + apply lookup_insert_eq.
  - intros k g. destruct Hop as [-> | ->].
    + rewrite (handleEvent_Create l loc key name fi m) by done.
      match goal with |- manifest_at l (snd (Put ?d key ?f ?m1)) !! k = _ -> _ =>
        destruct (Put_manifest_at l d key f m1) as [-> | [_ ->]] end.
      all: unfold manifest_at; simpl; rewrite deref_assign_eq by done; simpl.
      all: rewrite ?insert_insert_eq, lookup_insert; case_decide; naive_solver.
    + rewrite (handleEvent_Write l loc key name fi m) by done.
      match goal with |- manifest_at l (snd (Put ?d key ?f ?m1)) !! k = _ -> _ =>
        destruct (Put_manifest_at l d key f m1) as [-> | [_ ->]] end.
      all: rewrite (manifest_at_deref l m loc) by done.
      all: rewrite ?lookup_insert; try case_decide; naive_solver.
Qed.

(** ** The variable [noop] is never read *)

Lemma oblivious_ret {A} (a : A) : oblivious (W:=W) (ret a).
Proof. done. Qed.

Lemma oblivious_fatal {A} msg : oblivious (W:=W) (A:=A) (fatal msg).
Proof. done. Qed.

Lemma oblivious_panic {A} msg : oblivious (W:=W) (A:=A) (panic msg).
Proof. done. Qed.

Lemma oblivious_bind {A B} (c : M W A) (k : A -> M W B) :
  oblivious c -> (forall a, oblivious (k a)) -> oblivious (bind c k).
Proof.
  intros Hc Hk b m. unfold bind. rewrite Hc.
  destruct (c m) as [[a|msg|msg] m1]; simpl; [apply Hk|done..].
Qed.

Lemma oblivious_load p : oblivious (W:=W) (load p).
Proof. intros b m. unfold load; simpl. by destruct (deref p (heap m)). Qed.

Lemma oblivious_record c : oblivious (W:=W) (record c).
Proof. done. Qed.

Lemma oblivious_ask {A} (op : W -> option A) msg : oblivious (ask op msg).
Proof. intros b m. unfold ask; simpl. by destruct (op (world m)). Qed.

Lemma oblivious_perform (op : W -> option W) msg : oblivious (perform op msg).
Proof. intros b m. unfold perform; simpl. by destruct (op (world m)). Qed.

Lemma oblivious_inspect {A} (q : W -> A) : oblivious (inspect q).
Proof. done. Qed.

Lemma oblivious_get_recurse : oblivious (W:=W) get_recurse.
Proof. done. Qed.

Lemma oblivious_set_recurse b : oblivious (W:=W) (set_recurse b).
Proof. done. Qed.

Lemma oblivious_watcher_Add path : oblivious (W:=W) (watcher_Add path).
Proof. done. Qed.

Lemma oblivious_for_each {A} (xs : list A) (body : A -> M W unit) :
  (forall x, oblivious (body x)) -> oblivious (for_each xs body).
Proof.
  intros Hbody. induction xs as [|x xs IH]; simpl.
  - apply oblivious_ret.
  - apply oblivious_bind; auto.
Qed.

Create HintDb oblivious.
#[local] Hint Resolve oblivious_ret oblivious_fatal oblivious_panic oblivious_load
  oblivious_record oblivious_ask oblivious_perform oblivious_inspect
  oblivious_get_recurse oblivious_set_recurse oblivious_watcher_Add : oblivious.

(** Follows the shape of a computation down to the operations above. *)
Ltac oblivious_step :=
  match goal with
  | |- oblivious (bind _ _) => apply oblivious_bind; [|intros ?]
  | |- oblivious (for_each _ _) => apply oblivious_for_each; intros ?
  | |- oblivious (match ?x with _ => _ end) => destruct x
  | |- oblivious (let '(_, _) := ?x in _) => destruct x
  | |- oblivious _ => solve [auto with oblivious]
  end.

Lemma oblivious_update_Manifest p g : oblivious (W:=W) (update_Manifest p g).
Proof. unfold update_Manifest. repeat oblivious_step. done. Qed.
#[local] Hint Resolve oblivious_update_Manifest : oblivious.

Lemma oblivious_file_Open f : oblivious (W:=W) (file_Open f).
Proof. unfold file_Open. repeat oblivious_step. Qed.
#[local] Hint Resolve oblivious_file_Open : oblivious.

Lemma oblivious_constructFile input : oblivious (W:=W) (constructFile input).
Proof. unfold constructFile. repeat oblivious_step. Qed.
#[local] Hint Resolve oblivious_constructFile : oblivious.

Lemma oblivious_Put l key f : oblivious (W:=W) (Put l key f).
Proof. unfold Put. repeat oblivious_step. Qed.

Lemma oblivious_Delete l key : oblivious (W:=W) (Delete l key).
Proof. unfold Delete. repeat oblivious_step. Qed.
#[local] Hint Resolve oblivious_Put oblivious_Delete : oblivious.

Lemma oblivious_handleEvent l key event : oblivious (W:=W) (handleEvent l key event).
Proof. unfold handleEvent. repeat oblivious_step. Qed.
#[local] Hint Resolve oblivious_handleEvent : oblivious.

Lemma oblivious_buildDirManifest depth l dir :
  oblivious (W:=W) (buildDirManifest depth l dir).
Proof.
  revert dir. induction depth as [|depth IH]; intros dir; simpl.
  - apply oblivious_panic.
  - repeat oblivious_step.
Qed.
#[local] Hint Resolve oblivious_buildDirManifest : oblivious.

Lemma oblivious_buildManifest depth l : oblivious (W:=W) (buildManifest depth l).
Proof. unfold buildManifest. repeat oblivious_step. Qed.

Lemma oblivious_oneTimeSync c source destination :
  oblivious (W:=W) (oneTimeSync c source destination).
Proof. unfold oneTimeSync, push, prune. repeat oblivious_step. Qed.

Lemma oblivious_Watch l events : oblivious (W:=W) (Watch l events).
Proof. unfold Watch, Watch_event. repeat oblivious_step. Qed.
#[local] Hint Resolve oblivious_buildManifest oblivious_oneTimeSync oblivious_Watch
  : oblivious.

Lemma oblivious_sync c depth source destination events :
  oblivious (W:=W) (sync c depth source destination events).
Proof. unfold sync, listManifest. repeat oblivious_step. Qed.

Lemma Before_noop_flag flag c m :
  Before (with_noop_flag flag c) m = (Ok tt, if flag then with_noop true m else m).
Proof. by destruct flag. Qed.

Lemma sync_noop_flag flag c depth source destination events :
  sync (W:=W) (with_noop_flag flag c) depth source destination events
  = sync c depth source destination events.
Proof. done. Qed.

(** C10. Whether the flag [noop] is given or not, the command ends in the
    same way, has made the same calls of [Put] and [Delete], and leaves the
    same world, the same two locations and the same watches: [Before] stores
    the flag in the variable [noop], and nothing that runs afterwards reads
    the variable. *)
Theorem noop_never_consulted c depth source destination events m :
  let run flag := command (with_noop_flag flag c) depth source destination events m in
  fst (run true) = fst (run false) /\
  calls (snd (run true)) = calls (snd (run false)) /\
  world (snd (run true)) = world (snd (run false)) /\
  heap (snd (run true)) = heap (snd (run false)) /\
  watched (snd (run true)) = watched (snd (run false)) /\
  noop (snd (run true)) = true /\
  noop (snd (run false)) = noop m.
Proof.
  intros run. subst run. unfold command, bind.
  rewrite !Before_noop_flag, !sync_noop_flag.
  rewrite (oblivious_sync c depth source destination events true m).
  pose proof (oblivious_sync c depth source destination events (noop m) m) as Hm.
  replace (with_noop (noop m) m) with m in Hm by by destruct m.
  destruct (sync c depth source destination events m) as [r m1] eqn:Hrun; simpl in *.
  repeat split; try done.
  injection Hm as ->. done.
Qed.

End Properties.

(** * The program in the small world *)

(** ** Events *)

(** A [Remove] event for [/src/b], with the directory [/dst] as the
    destination. *)
Lemma handleEvent_Remove_deletes_once_witness :
  exists w' m',
    backend_delete (Toy.dir_loc Toy.B) "/b" Toy.the_world = Some w' /\
    handleEvent results0 "/b" (fsnotify.mkEvent "/src/b" fsnotify.Remove) Toy.to_directory
      = (Ok tt, m') /\
    calls m' = [CallDelete results1 "/b"] /\
    world m' = w' /\
    manifest_at results0 m' = delete "/b" Toy.A /\
    manifest_at results0 m' !! "/b" = None /\
    manifest_at results1 m' !! "/b" = None.
Proof.
  pose proof (fun w' =>
    handleEvent_Remove_deletes_once (W:=Toy.t) results0
      (Toy.source_loc Toy.A) (Toy.dir_loc Toy.B) "/b" "/src/b" w' Toy.to_directory
      eq_refl eq_refl eq_refl (ex_intro _ Toy.file_b eq_refl)) as Happlied.
  edestruct Happlied as (m' & Hrun & Hcalls & Hworld & Hsame & Hsrc & Hdst);
    [reflexivity|].
  eexists _, m'. repeat split; done.
Defined.

(** The file [/src/b] was removed and is still in both manifests when its
    [Remove] event arrives: the loop panics, no delete is made, and [/b] is
    in the source manifest afterwards. *)
Lemma Watch_Remove_of_removed_file_witness :
  let r := for_each events_of_b (Watch_event results0) b_removed in
  Toy.assoc "/src/b" (Toy.disk (world b_removed)) = None /\
  fst r = Panic "nil pointer dereference" /\
  calls (snd r) = [] /\
  manifest_at results0 (snd r) !! "/b" = Some Toy.file_b /\
  calls (snd (handleEvent results0 "/b" (fsnotify.mkEvent "/src/b" fsnotify.Remove)
                b_removed))
  = [CallDelete results1 "/b"].
Proof.
  destruct (Watch_Remove_of_removed_file (W:=Toy.t) results0 (Toy.source_loc Toy.A)
              (fsnotify.mkEvent "/src/b" fsnotify.Remove)
              [fsnotify.mkEvent "/src/a" fsnotify.Write] b_removed)
    as (Hend & Hcalls & _ & Hmanifest & _ & Hhandler);
    [reflexivity | reflexivity | reflexivity | reflexivity | by eexists |].
  split; [reflexivity|]. split; [exact Hend|]. split; [exact Hcalls|].
  split; [|exact Hhandler].
  change (manifest_at results0
            (snd (for_each events_of_b (Watch_event results0) b_removed)) = Toy.A)
    in Hmanifest.
  rewrite Hmanifest. reflexivity.
Defined.



(** The statement of the specification on [written] (C5) fails for a file
    that is not in the source manifest yet: after [Create] the manifest has the
    key, after [Write] it has not. *)
Lemma written_differs_from_created :
  manifest_at results0
    (snd (handleEvent results0 "/a" (fsnotify.mkEvent "/src/a" fsnotify.Create)
            Toy.unlisted)) !! "/a" = Some (event_file "/src/a" Toy.stat_a) /\
  manifest_at results0
    (snd (handleEvent results0 "/a" (fsnotify.mkEvent "/src/a" fsnotify.Write)
            Toy.unlisted)) !! "/a" = None /\
  ~ written_same_as_created.
Proof.
  split; [reflexivity|]. split; [reflexivity|]. intros Hclaim.
  destruct (Hclaim Toy.t _ Toy.unlisted results0 (Toy.source_loc ∅) "/a" "/src/a")
    as [_ Hentry]; done.
Qed.

(** A [Create] and a [Write] event for [/src/a] before anything was listed. *)
Lemma handleEvent_Write_vs_Create_witness :
  let created :=
    handleEvent results0 "/a" (fsnotify.mkEvent "/src/a" fsnotify.Create) Toy.unlisted in
  let written :=
    handleEvent results0 "/a" (fsnotify.mkEvent "/src/a" fsnotify.Write) Toy.unlisted in
  fst created = fst written /\
  calls (snd created) = calls (snd written) /\
  world (snd created) = world (snd written) /\
  manifest_at results0 (snd written) = ∅ /\
  manifest_at results0 (snd created) = {[ "/a" := event_file "/src/a" Toy.stat_a ]} /\
  calls (snd written) = [CallPut results1 "/a" (event_file "/src/a" Toy.stat_a)] /\
  fst written = Ok tt /\
  Toy.assoc "/dst/a" (Toy.disk (world (snd written))) = Some "0123456789".
Proof.
  destruct (handleEvent_Write_vs_Create (W:=Toy.t) results0 (Toy.source_loc ∅)
              "/a" "/src/a" Toy.unlisted)
    as (Hend & Hcalls & Hworld & _ & Hwritten & Hcreated & Hput & Hdone & _);
    [reflexivity | reflexivity | discriminate |].
  split; [exact Hend|]. split; [exact Hcalls|]. split; [exact Hworld|].
  split; [exact Hwritten|]. split; [apply Hcreated; reflexivity|].
  split; [exact (proj1 (Hput Toy.stat_a eq_refl))|].
  edestruct (Hdone Toy.stat_a (Toy.dir_loc ∅)) as (Hok & _ & Hw & _);
    [reflexivity..|].
  split; [exact Hok|]. rewrite Hw. reflexivity.
Defined.

(** The file made of a [Create] event for [/src/a], a file of ten bytes. *)
Lemma watch_file_Size_zero_witness :
  exists f,
    constructFile (InEvent (fsnotify.mkEvent "/src/a" fsnotify.Create)) Toy.unlisted
      = (Ok f, Toy.unlisted) /\
    fi_Size Toy.stat_a = 10 /\
    file.Size f = 0 /\
    manifest_at results0
      (snd (handleEvent results0 "/a" (fsnotify.mkEvent "/src/a" fsnotify.Create)
              Toy.unlisted)) !! "/a" = Some f.
Proof.
  destruct (watch_file_Size_zero (W:=Toy.t)
              (fsnotify.mkEvent "/src/a" fsnotify.Create) Toy.stat_a
              results0 (Toy.source_loc ∅) "/a" Toy.unlisted)
    as (f & Hf & Hsize & _ & _ & _ & _ & Hcreate & _);
    [reflexivity | reflexivity | reflexivity | by left |].
  exists f. repeat split; try done. by apply Hcreate.
Defined.

(** ** [Put] on a directory and the reconciliation that relies on it *)

(** C2. [Put] of the source file [a] on the directory [/dst] completes and
    writes the bytes to [/dst/a], yet the manifest of the destination has no
    entry for the key afterwards.  The same call on the bucket stores the
    entry. *)
Theorem Put_directory_skips_Manifest :
  let r := Put results1 "/a" Toy.file_a Toy.to_directory in
  fst r = Ok tt /\
  Toy.assoc "/dst/a" (Toy.disk (world (snd r))) = Some "0123456789" /\
  manifest_at results1 (snd r) !! "/a" = None /\
  manifest_at results1 (snd (Put results1 "/a" Toy.file_a Toy.to_bucket)) !! "/a"
    = Some Toy.file_a.
Proof. repeat split. Qed.

(** C1. Without the flag [delete], the reconciliation of the scenario onto
    the directory makes the one call the specification expects and completes,
    yet the manifest of the destination still lacks the key [/a] of the
    source: its keys are those of [B], not those of [A] and [B]. *)
Theorem oneTimeSync_directory_misses_key :
  let r := oneTimeSync (Toy.flags false) results0 results1 Toy.to_directory in
  fst r = Ok tt /\
  calls (snd r) = [CallPut results1 "/a" Toy.file_a] /\
  Toy.A !! "/a" = Some Toy.file_a /\
  manifest_at results1 (snd r) !! "/a" = None /\
  manifest_at results1 (snd r) = Toy.B /\
  dom (manifest_at results1 (snd r)) = {[ "/b"; "/c" ]} /\
  dom Toy.A ∪ dom Toy.B = {[ "/a"; "/b"; "/c" ]} /\
  dom (manifest_at results1 (snd r)) <> dom Toy.A ∪ dom Toy.B.
Proof.
  repeat split. intros Hdom.
  by apply (f_equal (fun keys : gset string => bool_decide ("/a" ∈ keys))) in Hdom.
Qed.

(** C3. A second reconciliation right after the first one calls [Put] for
    [/a] again when the destination is the directory. *)
Theorem oneTimeSync_directory_repeats_put :
  let first := oneTimeSync (Toy.flags false) results0 results1 Toy.to_directory in
  let second := oneTimeSync (Toy.flags false) results0 results1 (snd first) in
  fst first = Ok tt /\
  fst second = Ok tt /\
  calls (snd second) = calls (snd first) ++ [CallPut results1 "/a" Toy.file_a].
Proof. repeat split. Qed.

(** C6. With the flag [delete], the reconciliation of the scenario onto the
    directory calls [Delete] for [/c], the one key of [B] that [A] lacks, and
    completes, yet the manifest of the destination does not have the keys of
    [A]: [/a] is missing. *)
Theorem oneTimeSync_delete_directory_misses_key :
  let r := oneTimeSync (Toy.flags true) results0 results1 Toy.to_directory in
  fst r = Ok tt /\
  calls (snd r) = [CallPut results1 "/a" Toy.file_a; CallDelete results1 "/c"] /\
  manifest_at results1 (snd r) !! "/c" = None /\
  Toy.A !! "/a" = Some Toy.file_a /\
  manifest_at results1 (snd r) !! "/a" = None /\
  dom (manifest_at results1 (snd r)) = {[ "/b" ]} /\
  dom Toy.A = {[ "/a"; "/b" ]} /\
  dom (manifest_at results1 (snd r)) <> dom Toy.A.
Proof.
  repeat split. intros Hdom.
  by apply (f_equal (fun keys : gset string => bool_decide ("/a" ∈ keys))) in Hdom.
Qed.

(** The scenario of the specification onto the bucket: one put, for [/a];
    with the flag [delete] one delete, for [/c]; the keys of the destination
    afterwards are those of both sides, or with the flag those of the source;
    a second reconciliation makes no further call. *)
Example oneTimeSync_bucket_scenario :
  let kept := oneTimeSync (Toy.flags false) results0 results1 Toy.to_bucket in
  let pruned := oneTimeSync (Toy.flags true) results0 results1 Toy.to_bucket in
  fst kept = Ok tt /\
  calls (snd kept) = [CallPut results1 "/a" Toy.file_a] /\
  dom (manifest_at results1 (snd kept)) = {[ "/a"; "/b"; "/c" ]} /\
  fst pruned = Ok tt /\
  calls (snd pruned) = [CallPut results1 "/a" Toy.file_a; CallDelete results1 "/c"] /\
  dom (manifest_at results1 (snd pruned)) = {[ "/a"; "/b" ]} /\
  oneTimeSync (Toy.flags false) results0 results1 (snd kept) = (Ok tt, snd kept) /\
  oneTimeSync (Toy.flags true) results0 results1 (snd pruned) = (Ok tt, snd pruned).
Proof. repeat split. Qed.

(** The second run read with the manifests built anew: the command run
    twice from [/src] to the bucket, each time listing both sides first.  The
    listing of the bucket asks for the prefix [l.Path], which is the whole
    argument [s3://bucket/], while [Put] has stored the objects under their
    keys; the second run finds nothing and puts both files again. *)
Lemma sync_bucket_repeats_puts :
  let first := sync (Toy.flags false) 8 results0 results1 []
                 (Toy.machine_of (Toy.source_loc ∅) (Toy.s3_loc ∅)) in
  let second := sync (Toy.flags false) 8 results0 results1 []
                  (Toy.restart (Toy.source_loc ∅) (Toy.s3_loc ∅) (snd first)) in
  fst first = Ok tt /\
  fst second = Ok tt /\
  calls (snd first) = [CallPut results1 "/a" Toy.file_a; CallPut results1 "/b" Toy.file_b] /\
  calls (snd second) = calls (snd first).
Proof. repeat split. Qed.

(** * Further properties of the program *)

(** ** Relations between the machine before and after *)

#[local] Instance same_but_Manifest_preorder : PreOrder same_but_Manifest.
Proof.
  split.
  - intros loc. unfold same_but_Manifest. by destruct loc.
  - intros loc1 loc2 loc3 H12 H23. unfold same_but_Manifest in *.
    rewrite H23, H12. by destruct loc1.
Qed.

Lemma same_but_Manifest_with g loc : same_but_Manifest loc (location.with_Manifest g loc).
Proof. unfold same_but_Manifest. by destruct loc. Qed.

#[local] Instance stores_related_preorder rel :
  (forall p, PreOrder (rel p)) -> PreOrder (stores_related rel).
Proof.
  intros Hrel. split.
  - intros h p. by destruct (deref p h); constructor.
  - intros h1 h2 h3 H12 H23 p. specialize (H12 p). specialize (H23 p).
    destruct H12 as [loc1 loc2 H12|]; inversion H23; subst; constructor.
    by etrans.
Qed.

#[local] Instance but_Manifest_of_preorder l p : PreOrder (but_Manifest_of l p).
Proof. unfold but_Manifest_of. case_decide; apply _. Qed.

#[local] Instance same_at_preorder k : PreOrder (same_at k).
Proof.
  split.
  - intros loc. by split.
  - intros loc1 loc2 loc3 [H12 Hk12] [H23 Hk23]. split; [by etrans|congruence].
Qed.

(** An assignment to the location at [p] relates the stores when it relates
    the old value of the location to the new one. *)
Lemma stores_related_assign rel p h loc loc' :
  (forall q, Reflexive (rel q)) ->
  deref p h = Some loc ->
  rel p loc loc' ->
  stores_related rel h (assign p loc' h).
Proof.
  intros Hrefl Hp Hrel q. destruct (decide (q = p)) as [->|Hne].
  - rewrite Hp, deref_assign_eq by eauto using deref_not_null. by constructor.
  - rewrite deref_assign_ne by done. by destruct (deref q h); constructor.
Qed.

Section Within.
Context {W : Type} `{!Backend W} `{!MapRange}.
Context (R : relation (machine W)) `{!PreOrder R}.

Lemma within_unchanged {A} (c : M W A) : (forall m, snd (c m) = m) -> within R c.
Proof. intros Hc m. by rewrite Hc. Qed.

Lemma within_ret {A} (a : A) : within R (ret a).
Proof. by apply within_unchanged. Qed.

Lemma within_fatal {A} msg : within R (fatal (A:=A) msg).
Proof. by apply within_unchanged. Qed.

Lemma within_panic {A} msg : within R (panic (A:=A) msg).
Proof. by apply within_unchanged. Qed.

Lemma within_load p : within R (load p).
Proof. apply within_unchanged. intros m. unfold load. by destruct (deref _ _). Qed.

Lemma within_ask {A} (op : W -> option A) msg : within R (ask op msg).
Proof. apply within_unchanged. intros m. unfold ask. by destruct (op _). Qed.

Lemma within_inspect {A} (q : W -> A) : within R (inspect q).
Proof. by apply within_unchanged. Qed.

Lemma within_get_recurse : within R get_recurse.
Proof. by apply within_unchanged. Qed.

Lemma within_bind {A B} (c : M W A) (k : A -> M W B) :
  within R c -> (forall a, within R (k a)) -> within R (bind c k).
Proof.
  intros Hc Hk m. unfold bind. specialize (Hc m).
  destruct (c m) as [[a|msg|msg] m1]; simpl in *; [|done..].
  etrans; [done|]. apply Hk.
Qed.

Lemma within_for_each {A} (xs : list A) (body : A -> M W unit) :
  (forall x, x ∈ xs -> within R (body x)) -> within R (for_each xs body).
Proof.
  induction xs as [|x xs IH]; intros Hbody; simpl.
  - apply within_ret.
  - apply within_bind; [apply Hbody; left|].
    intros _. apply IH. intros y Hy. apply Hbody. by right.
Qed.

End Within.

Create HintDb within.
#[local] Hint Resolve within_ret within_fatal within_panic within_load within_ask
  within_inspect within_get_recurse : within.
#[local] Hint Extern 1 (PreOrder _) => apply _ : within.

(** Follows the shape of a computation down to its operations. *)
Ltac within_step :=
  match goal with
  | |- within _ (bind _ _) => apply within_bind; [apply _| |intros ?]
  | |- within _ (for_each _ _) => apply within_for_each; [apply _|intros ? _]
  | |- within _ (match ?x with _ => _ end) => destruct x
  | |- within _ (let '(_, _) := ?x in _) => destruct x
  | |- within _ _ => solve [auto with within]
  end.

(** ** Listing a location *)

#[local] Instance lists_only_preorder {W} l : PreOrder (lists_only (W:=W) l).
Proof.
  split.
  - intros m. by repeat split.
  - intros m1 m2 m3 (Hw & Hc & Hwa & Hn & Hr & Hh) (Hw' & Hc' & Hwa' & Hn' & Hr' & Hh').
    repeat split; try congruence. by etrans.
Qed.

Section Listing.
Context {W : Type} `{!Backend W} `{!MapRange}.
Implicit Types (m : machine W) (l p : ptr).

Lemma lists_only_update_Manifest l g : within (lists_only l) (update_Manifest (W:=W) l g).
Proof.
  intros m. unfold update_Manifest, bind, load.
  destruct (deref l (heap m)) as [loc|] eqn:Hl; simpl; [|reflexivity].
  repeat split. apply (stores_related_assign _ l _ loc); [apply _|done|].
  unfold but_Manifest_of. rewrite decide_True by done. apply same_but_Manifest_with.
Qed.
#[local] Hint Resolve lists_only_update_Manifest : within.

Lemma lists_only_buildDirManifest depth l : forall dir,
  within (lists_only l) (buildDirManifest (W:=W) depth l dir).
Proof.
  induction depth as [|depth IH]; intros dir; simpl; repeat within_step.
Qed.
#[local] Hint Resolve lists_only_buildDirManifest : within.

Lemma lists_only_buildManifest depth l :
  within (lists_only l) (buildManifest (W:=W) depth l).
Proof. unfold buildManifest, constructFile. repeat within_step. Qed.

(** X4. [buildManifest] only lists: however it ends, the world, the calls and
    the watches are what they were, the other location is untouched, and the
    location itself differs at most in its manifest. *)
Theorem buildManifest_reads_only depth l m :
  let m' := snd (buildManifest depth l m) in
  world m' = world m /\ calls m' = calls m /\ watched m' = watched m /\
  (forall p, p <> l -> deref p (heap m') = deref p (heap m)) /\
  (forall loc, deref l (heap m) = Some loc ->
     exists loc', deref l (heap m') = Some loc' /\ same_but_Manifest loc loc').
Proof.
  destruct (lists_only_buildManifest depth l m) as (Hw & Hc & Hwa & _ & _ & Hh).
  simpl. repeat split; try done.
  - intros p Hne. specialize (Hh p). unfold but_Manifest_of in Hh.
    rewrite decide_False in Hh by done. by destruct Hh as [? ? ->|].
  - intros loc Hl. specialize (Hh l). unfold but_Manifest_of in Hh.
    rewrite decide_True, Hl in Hh by done. inversion Hh; subst. eauto.
Qed.

End Listing.

(** ** What the listings store *)

Section Listing_entries.
Context {W : Type} `{!Backend W} `{!MapRange}.
Implicit Types (m : machine W) (l p : ptr) (loc : location.t).

(** A loop whose iterations each update the manifest of the location at [l]
    updates it with all of them, in their order. *)
Lemma for_each_update {X} l (update : X -> gmap string file.t -> gmap string file.t)
    (body : X -> M W unit) (xs : list X) : forall loc m,
  (forall x loc' m', x ∈ xs -> same_but_Manifest loc loc' ->
     deref l (heap m') = Some loc' ->
     body x m' = (Ok tt, with_heap (assign l (location.with_Manifest (update x) loc')
                                      (heap m')) m')) ->
  deref l (heap m) = Some loc ->
  for_each xs body m
  = (Ok tt, with_heap (assign l (location.with_Manifest
       (fun M => foldl (fun M x => update x M) M xs) loc) (heap m)) m).
Proof.
  induction xs as [|x xs IH]; intros loc m Hbody Hl; simpl.
  - unfold ret. f_equal. destruct m; unfold with_heap; simpl in *. f_equal.
    symmetry. apply assign_same. rewrite Hl. f_equal. by destruct loc.
  - unfold bind. rewrite (Hbody x loc m) by (done || left).
    assert (Hnull : l <> null) by eauto using deref_not_null.
    rewrite (IH (location.with_Manifest (update x) loc)).
    + f_equal. unfold with_heap; simpl. f_equal. by rewrite assign_assign.
    + intros y loc' m' Hy Hsame. apply Hbody; [by right|].
      etrans; [apply same_but_Manifest_with|done].
    + simpl. by apply deref_assign_eq.
Qed.

Lemma foldl_concat {A B} (f : A -> B -> A) (a : A) (xss : list (list B)) :
  foldl (fun a xs => foldl f a xs) a xss = foldl f a (concat xss).
Proof.
  revert a. induction xss as [|xs xss IH]; intros a; simpl; [done|].
  by rewrite foldl_app, IH.
Qed.

(** What one object of the listing and one file of the walk make of the
    manifest. *)
Lemma buildManifest_object l loc loc' o m :
  same_but_Manifest loc loc' ->
  deref l (heap m) = Some loc' ->
  bind (constructFile (InS3Object o)) (fun f =>
    bind (load l) (fun loc'' =>
      update_Manifest l (insert (s3Key (location.Path loc'') (o_Key o)) f))) m
  = (Ok tt, with_heap (assign l (location.with_Manifest
       (insert (s3Key (location.Path loc) (o_Key o)) (s3_file o)) loc') (heap m)) m).
Proof.
  intros Hsame Hl.
  assert (HPath : location.Path loc' = location.Path loc) by by rewrite Hsame.
  unfold constructFile, update_Manifest, bind, ret, load; simpl.
  by rewrite !Hl, HPath.
Qed.

Lemma listed_lookup root objects : forall M k f,
  listed root objects M !! k = Some f ->
  M !! k = Some f \/
  exists o, o ∈ objects /\ k = s3Key root (o_Key o) /\ f = s3_file o.
Proof.
  unfold listed.
  induction objects as [|o objects IH]; intros M k f Hk; simpl in *; [by left|].
  apply IH in Hk as [Hk | (o' & Hin & -> & ->)].
  - destruct (decide (s3Key root (o_Key o) = k)) as [<-|Hne].
    + rewrite lookup_insert_eq in Hk. injection Hk as <-.
      right. exists o. split; [left|done].
    + rewrite lookup_insert_ne in Hk by done. by left.
  - right. exists o'. split; [by right|done].
Qed.

Lemma listed_is_Some root objects : forall M o,
  o ∈ objects -> is_Some (listed root objects M !! s3Key root (o_Key o)).
Proof.
  assert (Hkeep : forall objects (M : gmap string file.t) (k : string),
            is_Some (M !! k) -> is_Some (listed root objects M !! k)).
  { clear. unfold listed.
    induction objects as [|o objects IH]; intros M k Hk; simpl; [done|].
    apply IH. rewrite lookup_insert. case_decide; [by eexists|done]. }
  unfold listed in *.
  induction objects as [|o' objects IH]; intros M o Hin; [by inversion Hin|].
  simpl. apply elem_of_cons in Hin as [->|Hin]; [|by apply IH].
  apply Hkeep. rewrite lookup_insert_eq. by eexists.
Qed.

(** X1. [buildManifest] on a bucket discards the manifest it finds and stores
    every object of every page of the listing, under the key made of a
    separator and the key of the object without the prefix [l.Path], with the
    size the listing reports; the manifest has no other entry.  It completes
    when the listing ends without an error and is fatal otherwise. *)
Theorem buildManifest_bucket_lists_all depth l loc pages (ok : bool) m :
  deref l (heap m) = Some loc ->
  location.Service loc = SvcS3 ->
  s3_ListObjectsV2Pages (location.Bucket loc) (location.Path loc) (world m) = (pages, ok) ->
  let r := buildManifest depth l m in
  fst r = (if ok then Ok tt else Fatal "ListObjectsV2Pages") /\
  manifest_at l (snd r) = listed (location.Path loc) (concat pages) ∅ /\
  (forall o, o ∈ concat pages ->
     is_Some (manifest_at l (snd r) !! s3Key (location.Path loc) (o_Key o))) /\
  (forall k f, manifest_at l (snd r) !! k = Some f ->
     exists o, o ∈ concat pages /\ k = s3Key (location.Path loc) (o_Key o) /\
               f = s3_file o /\ file.Size f = o_Size o).
Proof.
  intros Hl Hsvc Hlist r.
  assert (Hnull : l <> null) by eauto using deref_not_null.
  set (loc0 := location.with_Manifest (fun _ => ∅) loc).
  set (m0 := with_heap (assign l loc0 (heap m)) m).
  assert (Hl0 : deref l (heap m0) = Some loc0) by by apply deref_assign_eq.
  assert (Hrun : r = (if ok then Ok tt else Fatal "ListObjectsV2Pages",
                      with_heap (assign l (location.with_Manifest
                        (fun _ => listed (location.Path loc) (concat pages) ∅) loc)
                        (heap m)) m)).
  { subst r. unfold buildManifest.
    unfold bind at 1, update_Manifest at 1, bind at 1, load at 1. rewrite Hl.
    fold loc0. fold m0. unfold bind at 1, load at 1. rewrite Hl0.
    change (location.Service loc0) with (location.Service loc). rewrite Hsvc.
    unfold bind at 1, inspect at 1.
    change (world m0) with (world m). change (location.Bucket loc0) with (location.Bucket loc).
    change (location.Path loc0) with (location.Path loc). rewrite Hlist. simpl.
    unfold bind at 1.
    rewrite (for_each_update l
               (fun page M => foldl (fun M o => <[s3Key (location.Path loc) (o_Key o)
                                                   := s3_file o]> M) M page)
               _ pages loc0 m0); [|intros page loc' m' _ Hsame Hl'|done].
    - unfold with_heap, m0, loc0, location.with_Manifest; simpl.
      rewrite assign_assign, foldl_concat. by destruct ok.
    - apply (for_each_update l (fun o => insert (s3Key (location.Path loc) (o_Key o))
                                           (s3_file o))); [|done].
      intros o loc'' m'' _ Hsame' Hl''.
      apply (buildManifest_object l loc loc'' o m''); [|done].
      etrans; [apply (same_but_Manifest_with (fun _ => ∅))|]. by etrans. }
  rewrite Hrun. simpl. unfold manifest_at; simpl. rewrite deref_assign_eq by done. simpl.
  split; [done|]. split; [done|]. split.
  - intros o Hin. by apply listed_is_Some.
  - intros k f Hk. apply listed_lookup in Hk as [Hk | (o & Hin & -> & ->)]; [done|].
    by exists o.
Qed.

(** The key of a plainly named entry of the root is the name behind a
    separator. *)
Lemma dirKey_plain root name :
  plain_name (String.list_ascii_of_string name) ->
  dirKey root (join root name) = "/" +:+ name.
Proof.
  intros Hplain. rewrite dirKey_join.
  destruct (Clean_rooted_key [String.list_ascii_of_string name]) as [Hclean _];
    [done|by constructor|].
  unfold rooted_key, rooted_path in Hclean. simpl in Hclean.
  by rewrite app_nil_r, String.string_of_list_ascii_of_string in Hclean.
Qed.

Lemma foldl_insert_lookup {X} (key : X -> string) (val : X -> file.t) (xs : list X) :
  forall (M : gmap string file.t) k v,
  NoDup (key <$> xs) ->
  foldl (fun M x => <[key x := val x]> M) M xs !! k = Some v <->
  (exists x, x ∈ xs /\ k = key x /\ v = val x) \/
  ((k ∉ (key <$> xs)) /\ M !! k = Some v).
Proof.
  induction xs as [|x xs IH]; intros M k v Hnodup; simpl.
  - split.
    + intros Hk. right. split; [apply not_elem_of_nil|done].
    + intros [(x & Hin & _)|[_ Hk]]; [by inversion Hin|done].
  - rewrite fmap_cons in Hnodup. apply NoDup_cons in Hnodup as [Hfresh Hnodup].
    rewrite IH by done. split.
    + intros [(y & Hin & -> & ->)|[Hk HM]].
      * left. exists y. split; [by right|done].
      * destruct (decide (key x = k)) as [<-|Hne].
        -- rewrite lookup_insert_eq in HM. injection HM as <-.
           left. exists x. split; [left|done].
        -- rewrite lookup_insert_ne in HM by done. right. split; [|done].
           rewrite not_elem_of_cons. by split.
    + intros [(y & Hin & -> & ->)|[Hk HM]].
      * apply elem_of_cons in Hin as [->|Hin].
        -- right. split; [done|]. apply lookup_insert_eq.
        -- left. by exists y.
      * apply not_elem_of_cons in Hk as [Hne Hk]. right. split; [done|].
        by rewrite lookup_insert_ne.
Qed.

(** One file of the walk. *)
Lemma buildDirManifest_file l loc loc' dir fi m :
  same_but_Manifest loc loc' ->
  deref l (heap m) = Some loc' ->
  bind (load l) (fun loc'' =>
    update_Manifest l (insert (dirKey (location.Path loc'') (join dir (fi_Name fi)))
                         (walk_file dir fi))) m
  = (Ok tt, with_heap (assign l (location.with_Manifest
       (insert (dirKey (location.Path loc) (join dir (fi_Name fi))) (walk_file dir fi))
       loc') (heap m)) m).
Proof.
  intros Hsame Hl.
  assert (HPath : location.Path loc' = location.Path loc) by by rewrite Hsame.
  unfold update_Manifest, bind, load; simpl. by rewrite !Hl, HPath.
Qed.

(** X2. [buildManifest] on a directory without subdirectories, whose files
    [ReadDir] reports under plain and distinct names, completes and stores
    each file under the key made of a separator and its name, with the name,
    size and modification time of the listing and the directory as its path;
    the manifest has no other entry. *)
Theorem buildManifest_flat_directory depth l loc fi0 files m :
  deref l (heap m) = Some loc ->
  location.Service loc = SvcFileInfo fi0 ->
  ioutil_ReadDir (location.Path loc) (world m) = Some files ->
  Forall (fun fi => fi_IsDir fi = false /\
                    plain_name (String.list_ascii_of_string (fi_Name fi))) files ->
  NoDup (fi_Name <$> files) ->
  let r := buildManifest (S depth) l m in
  fst r = Ok tt /\
  forall k f,
    manifest_at l (snd r) !! k = Some f <->
    exists fi, fi ∈ files /\ k = "/" +:+ fi_Name fi /\
               f = walk_file (location.Path loc) fi.
Proof.
  intros Hl Hsvc Hread Hfiles Hnodup r.
  assert (Hnull : l <> null) by eauto using deref_not_null.
  set (loc0 := location.with_Manifest (fun _ => ∅) loc).
  set (m0 := with_heap (assign l loc0 (heap m)) m).
  assert (Hl0 : deref l (heap m0) = Some loc0) by by apply deref_assign_eq.
  assert (Hrun : r = (Ok tt, with_heap (assign l (location.with_Manifest
                        (fun _ => walked (location.Path loc) (location.Path loc) files ∅) loc) (heap m)) m)).
  { subst r. unfold buildManifest.
    unfold bind at 1, update_Manifest at 1, bind at 1, load at 1. rewrite Hl.
    fold loc0. fold m0. unfold bind at 1, load at 1. rewrite Hl0.
    change (location.Service loc0) with (location.Service loc). rewrite Hsvc.
    change (location.Path loc0) with (location.Path loc). simpl.
    unfold bind at 1, ask at 1. change (world m0) with (world m). rewrite Hread.
    rewrite (for_each_update l
               (fun fi => insert (dirKey (location.Path loc) (join (location.Path loc) (fi_Name fi))) (walk_file (location.Path loc) fi))
               _ files loc0 m0); [|intros fi loc' m' Hin Hsame Hl'|done].
    - unfold with_heap, m0, loc0, location.with_Manifest, walked; simpl.
      by rewrite assign_assign.
    - rewrite Forall_forall in Hfiles. destruct (Hfiles fi Hin) as [-> _].
      apply (buildDirManifest_file l loc loc' (location.Path loc) fi m'); [|done].
      etrans; [apply (same_but_Manifest_with (fun _ => ∅))|done]. }
  rewrite Hrun. simpl. split; [done|]. intros k f.
  unfold manifest_at; simpl. rewrite deref_assign_eq by done. simpl.
  assert (Hkeys : forall fi, fi ∈ files ->
            dirKey (location.Path loc) (join (location.Path loc) (fi_Name fi)) = "/" +:+ fi_Name fi).
  { intros fi Hin. rewrite Forall_forall in Hfiles.
    apply dirKey_plain. by apply Hfiles. }
  assert (Hsame : walked (location.Path loc) (location.Path loc) files ∅
                  = foldl (fun M fi => <["/" +:+ fi_Name fi := walk_file (location.Path loc) fi]> M)
                      ∅ files).
  { unfold walked. generalize (∅ : gmap string file.t).
    clear -Hkeys. induction files as [|fi files IH]; intros M; simpl; [done|].
    rewrite Hkeys by left. apply IH. intros fi' Hin. apply Hkeys. by right. }
  rewrite Hsame.
  rewrite (foldl_insert_lookup (fun fi => "/" +:+ fi_Name fi) (walk_file (location.Path loc))).
  - split; [intros [?|[_ ?]]; done|by left].
  - replace ((fun fi => "/" +:+ fi_Name fi) <$> files)
      with (String.append "/" <$> (fi_Name <$> files))
      by by rewrite <- list_fmap_compose.
    apply NoDup_fmap_2; [|done]. intros x y Heq. simpl in Heq. by injection Heq.
Qed.

End Listing_entries.

Section Walk.
Context {W : Type} `{!Backend W} `{!MapRange}.
Implicit Types (m : machine W) (l p : ptr) (loc : location.t).

(** A sequence keeps what its two parts keep. *)
Lemma bind_invariant {A B} (I : machine W -> Prop) (c : M W A) (k : A -> M W B) :
  (forall m, I m -> I (snd (c m))) ->
  (forall a m, I m -> I (snd (k a m))) ->
  forall m, I m -> I (snd (bind c k m)).
Proof.
  intros Hc Hk m HI. unfold bind. specialize (Hc m HI).
  destruct (c m) as [[a|msg|msg] m1]; simpl in *; [by apply Hk|done..].
Qed.

Lemma within_after (R : relation (machine W)) `{!PreOrder R} {A} (c : M W A) m0 m :
  within R c -> R m0 m -> R m0 (snd (c m)).
Proof. intros Hc H0. etrans; [done|apply Hc]. Qed.

(** A sequence ends in [Q] when its first part establishes what makes the
    second part end in [Q], and that is enough for [Q] should the first part
    not return. *)
Lemma bind_post {A B} (I I1 Q : machine W -> Prop) (c : M W A) (k : A -> M W B) :
  (forall m, I m -> I1 (snd (c m))) ->
  (forall m, I1 m -> Q m) ->
  (forall a m, I1 m -> Q (snd (k a m))) ->
  forall m, I m -> Q (snd (bind c k m)).
Proof.
  intros Hc HQ Hk m HI. unfold bind. specialize (Hc m HI).
  destruct (c m) as [[a|msg|msg] m1]; simpl in *; [by apply Hk|by apply HQ..].
Qed.

(** A loop keeps what each of its iterations keeps. *)
Lemma for_each_invariant {A} (I : machine W -> Prop) (xs : list A)
    (body : A -> M W unit) :
  (forall x m, x ∈ xs -> I m -> I (snd (body x m))) ->
  forall m, I m -> I (snd (for_each xs body m)).
Proof.
  induction xs as [|x xs IH]; intros Hbody m HI; simpl; [done|].
  unfold bind. pose proof (Hbody x m (list_elem_of_here _ _) HI) as HI1.
  destruct (body x m) as [[[]|msg|msg] m1]; simpl in *; [|done..].
  apply IH; [|done]. intros y m' Hy. apply Hbody. by right.
Qed.

(** One call of the walk. *)
Lemma buildDirManifest_S depth l dir m :
  buildDirManifest (S depth) l dir m
  = match ioutil_ReadDir dir (world m) with
    | Some files =>
        for_each files (fun fi =>
          if fi_IsDir fi then buildDirManifest depth l (join dir (fi_Name fi))
          else bind (load l) (fun loc =>
                 update_Manifest l
                   (insert (dirKey (location.Path loc) (join dir (fi_Name fi)))
                      (walk_file dir fi)))) m
    | None => (Fatal "ioutil.ReadDir", m)
    end.
Proof. simpl. unfold bind at 1, ask. by destruct (ioutil_ReadDir _ _). Qed.

(** Every entry the walk adds is a file of some directory it has read. *)
Lemma buildDirManifest_entries depth l : forall dir loc m m',
  deref l (heap m) = Some loc ->
  m' = snd (buildDirManifest depth l dir m) ->
  lists_only l m m' /\
  forall k f, manifest_at l m' !! k = Some f ->
    manifest_at l m !! k = Some f \/ walked_entry (world m) (location.Path loc) k f.
Proof.
  induction depth as [|depth IH]; intros dir loc m m' Hl ->.
  { split; [reflexivity|auto]. }
  rewrite buildDirManifest_S.
  destruct (ioutil_ReadDir dir (world m)) as [files|] eqn:Hread; simpl;
    [|split; [reflexivity|auto]].
  pose (I := fun m' : machine W =>
    lists_only l m m' /\
    forall k f, manifest_at l m' !! k = Some f ->
      manifest_at l m !! k = Some f \/ walked_entry (world m) (location.Path loc) k f).
  apply (for_each_invariant I); [|split; [reflexivity|auto]].
  intros fi m1 Hin [Hlists Hentries].
  assert (exists loc1, deref l (heap m1) = Some loc1 /\ same_but_Manifest loc loc1)
    as (loc1 & Hl1 & Hsame).
  { destruct Hlists as (_ & _ & _ & _ & _ & Hh). specialize (Hh l).
    unfold but_Manifest_of in Hh. rewrite decide_True, Hl in Hh by done.
    inversion Hh; subst. eauto. }
  assert (HPath : location.Path loc1 = location.Path loc) by by rewrite Hsame.
  assert (Hworld : world m1 = world m) by apply Hlists.
  destruct (fi_IsDir fi) eqn:Hdir.
  - destruct (IH (join dir (fi_Name fi)) loc1 m1 _ Hl1 eq_refl) as [Hlists' Hentries'].
    split; [by etrans|]. intros k f Hk.
    destruct (Hentries' k f Hk) as [Hold|Hnew]; [by apply Hentries|].
    right. by rewrite <- HPath, <- Hworld.
  - rewrite (buildDirManifest_file l loc loc1 dir fi m1 Hsame Hl1). simpl.
    assert (Hnull : l <> null) by eauto using deref_not_null.
    split.
    + etrans; [done|]. repeat split.
      apply (stores_related_assign _ l _ loc1); [apply _|done|].
      unfold but_Manifest_of. rewrite decide_True by done. apply same_but_Manifest_with.
    + intros k f. unfold manifest_at at 1. simpl.
      rewrite deref_assign_eq by done. simpl. rewrite lookup_insert.
      case_decide as Hkey.
      * intros [= <-]. right. exists dir, files, fi. by rewrite <- Hkey.
      * intros Hk. apply Hentries. unfold manifest_at. by rewrite Hl1.
Qed.

(** X3. Whatever the depth of the tree and however [buildManifest] ends on a
    directory, every entry of the manifest afterwards is a file that
    [ReadDir] has reported in some directory and that is no directory itself,
    stored with its name, size and modification time under the key made of
    its path: a directory never becomes an entry, and no entry of the
    manifest before survives. *)
Theorem buildManifest_directory_entries depth l loc fi0 m k f :
  deref l (heap m) = Some loc ->
  location.Service loc = SvcFileInfo fi0 ->
  manifest_at l (snd (buildManifest depth l m)) !! k = Some f ->
  walked_entry (world m) (location.Path loc) k f.
Proof.
  intros Hl Hsvc.
  assert (Hnull : l <> null) by eauto using deref_not_null.
  unfold buildManifest.
  unfold bind at 1, update_Manifest at 1, bind at 1, load at 1. rewrite Hl.
  set (loc0 := location.with_Manifest (fun _ => ∅) loc).
  set (m0 := with_heap (assign l loc0 (heap m)) m).
  assert (Hl0 : deref l (heap m0) = Some loc0) by by apply deref_assign_eq.
  unfold bind at 1, load at 1. rewrite Hl0.
  change (location.Service loc0) with (location.Service loc). rewrite Hsvc.
  destruct (buildDirManifest_entries depth l (location.Path loc0) loc0 m0 _ Hl0 eq_refl)
    as [_ Hentries].
  intros Hk. destruct (Hentries k f Hk) as [Hold|Hnew]; [|done].
  unfold manifest_at in Hold. by rewrite Hl0 in Hold.
Qed.

End Walk.

(** ** What the reconciliation never does *)

#[local] Instance reconciles_only_preorder {W} d deletes :
  PreOrder (reconciles_only (W:=W) d deletes).
Proof.
  split.
  - intros m. split; [exists []; by rewrite app_nil_r|]. by repeat split.
  - intros m1 m2 m3 ((cs & Hcs & Hall) & Hwa & Hn & Hr & Hh)
      ((cs' & Hcs' & Hall') & Hwa' & Hn' & Hr' & Hh').
    split; [|repeat split; try congruence; by etrans].
    exists (cs ++ cs'). split; [by rewrite Hcs', Hcs, app_assoc|].
    by apply Forall_app.
Qed.

Section Reconciles_only.
Context {W : Type} `{!Backend W} `{!MapRange}.
Implicit Types (m : machine W) (l d p : ptr).

Lemma reconciles_only_record d deletes c :
  on_destination d deletes c -> within (reconciles_only d deletes) (record (W:=W) c).
Proof.
  intros Hc m. split; [exists [c]; split; [done|by constructor]|].
  by repeat split.
Qed.

Lemma reconciles_only_perform d deletes (op : W -> option W) msg :
  within (reconciles_only d deletes) (perform op msg).
Proof.
  intros m. unfold perform. destruct (op (world m)); simpl; [|reflexivity].
  split; [exists []; by rewrite app_nil_r|]. by repeat split.
Qed.

Lemma reconciles_only_update_Manifest d deletes g :
  within (reconciles_only d deletes) (update_Manifest (W:=W) d g).
Proof.
  intros m. unfold update_Manifest, bind, load.
  destruct (deref d (heap m)) as [loc|] eqn:Hd; simpl; [|reflexivity].
  split; [exists []; by rewrite app_nil_r|]. repeat split.
  apply (stores_related_assign _ d _ loc); [apply _|done|].
  unfold but_Manifest_of. rewrite decide_True by done. apply same_but_Manifest_with.
Qed.
#[local] Hint Resolve reconciles_only_perform reconciles_only_update_Manifest : within.

Lemma reconciles_only_Put d deletes key f :
  within (reconciles_only d deletes) (Put (W:=W) d key f).
Proof.
  unfold Put, file_Open.
  apply within_bind; [apply _|by apply reconciles_only_record|intros _].
  repeat within_step.
Qed.

Lemma reconciles_only_Delete d key :
  within (reconciles_only d true) (Delete (W:=W) d key).
Proof.
  unfold Delete.
  apply within_bind; [apply _|by apply reconciles_only_record|intros _].
  repeat within_step.
Qed.
#[local] Hint Resolve reconciles_only_Put reconciles_only_Delete : within.

Lemma reconciles_only_oneTimeSync c src dst :
  within (reconciles_only dst (cli.Bool c "delete")) (oneTimeSync (W:=W) c src dst).
Proof.
  unfold oneTimeSync, push, prune.
  destruct (cli.Bool c "delete"); repeat within_step.
Qed.

(** X9. However [oneTimeSync] ends, every call it has made is a [Put] on the
    destination, or with the flag [delete] a [Delete] on the destination; the
    source location and the watches are what they were, and the destination
    differs at most in its manifest. *)
Theorem oneTimeSync_touches_destination_only c src dst m :
  let m' := snd (oneTimeSync c src dst m) in
  (exists cs, calls m' = calls m ++ cs /\
              Forall (on_destination dst (cli.Bool c "delete")) cs) /\
  watched m' = watched m /\
  (forall p, p <> dst -> deref p (heap m') = deref p (heap m)) /\
  (forall loc, deref dst (heap m) = Some loc ->
     exists loc', deref dst (heap m') = Some loc' /\ same_but_Manifest loc loc').
Proof.
  destruct (reconciles_only_oneTimeSync c src dst m) as (Hcs & Hwa & _ & _ & Hh).
  simpl. repeat split; try done.
  - intros p Hne. specialize (Hh p). unfold but_Manifest_of in Hh.
    rewrite decide_False in Hh by done. by destruct Hh as [? ? ->|].
  - intros loc Hd. specialize (Hh dst). unfold but_Manifest_of in Hh.
    rewrite decide_True, Hd in Hh by done. inversion Hh; subst. eauto.
Qed.

End Reconciles_only.

(** ** The loop of [Watch] *)

#[local] Instance only_Manifests_preorder {W} : PreOrder (only_Manifests (W:=W)).
Proof. unfold only_Manifests. split; [intros m|intros m1 m2 m3 ? ?]; [reflexivity|by etrans]. Qed.

#[local] Instance keeps_key_preorder {W} k : PreOrder (keeps_key (W:=W) k).
Proof. unfold keeps_key. split; [intros m|intros m1 m2 m3 ? ?]; [reflexivity|by etrans]. Qed.

Section Watching.
Context {W : Type} `{!Backend W} `{!MapRange}.
Implicit Types (m : machine W) (l d p : ptr) (loc : location.t).

Lemma keeps_key_same_heap {A} k (c : M W A) :
  (forall m, heap (snd (c m)) = heap m) -> within (keeps_key k) c.
Proof. intros Hc m. unfold keeps_key. rewrite Hc. reflexivity. Qed.

Lemma keeps_key_record k c : within (keeps_key k) (record (W:=W) c).
Proof. by apply keeps_key_same_heap. Qed.

Lemma keeps_key_perform k (op : W -> option W) msg : within (keeps_key k) (perform op msg).
Proof.
  apply keeps_key_same_heap. intros m. unfold perform. by destruct (op (world m)).
Qed.

Lemma keeps_key_watcher_Add k path : within (keeps_key k) (watcher_Add (W:=W) path).
Proof. by apply keeps_key_same_heap. Qed.

(** An update of the manifest at one key keeps every other key. *)
Lemma keeps_key_update_Manifest k p g :
  (forall M : gmap string file.t, g M !! k = M !! k) ->
  within (keeps_key k) (update_Manifest (W:=W) p g).
Proof.
  intros Hg m. unfold update_Manifest, bind, load.
  destruct (deref p (heap m)) as [loc|] eqn:Hp; simpl; [|reflexivity].
  apply (stores_related_assign _ p _ loc); [apply _|done|].
  split; [apply same_but_Manifest_with|]. simpl. apply Hg.
Qed.

#[local] Hint Resolve keeps_key_record keeps_key_perform keeps_key_watcher_Add : within.

Lemma keeps_key_Put k p key f : k <> key -> within (keeps_key k) (Put (W:=W) p key f).
Proof.
  intros Hne. unfold Put, file_Open. repeat within_step.
  apply keeps_key_update_Manifest. intros M. by apply lookup_insert_ne.
Qed.

Lemma keeps_key_Delete k p key : k <> key -> within (keeps_key k) (Delete (W:=W) p key).
Proof.
  intros Hne. unfold Delete. repeat within_step.
  apply keeps_key_update_Manifest. intros M. by apply lookup_delete_ne.
Qed.

Lemma keeps_key_handleEvent k l key event :
  k <> key -> within (keeps_key k) (handleEvent (W:=W) l key event).
Proof.
  intros Hne. unfold handleEvent, constructFile.
  repeat within_step;
    first [ by apply keeps_key_Put | by apply keeps_key_Delete
          | apply keeps_key_update_Manifest; intros M;
            by rewrite ?lookup_insert_ne, ?lookup_delete_ne ].
Qed.

Lemma keeps_key_manifest_at k p m m' :
  keeps_key k m m' -> manifest_at p m' !! k = manifest_at p m !! k.
Proof.
  intros Hkeep. specialize (Hkeep p). unfold manifest_at.
  by destruct Hkeep as [loc loc' [_ ->]|].
Qed.

Lemma keeps_key_deref k l loc m m' :
  keeps_key k m m' -> deref l (heap m) = Some loc ->
  exists loc', deref l (heap m') = Some loc' /\ same_but_Manifest loc loc'.
Proof.
  intros Hkeep Hl. specialize (Hkeep l). rewrite Hl in Hkeep.
  inversion Hkeep as [? loc' [Hsame _]|]; subst. eauto.
Qed.

(** One event of the loop. *)
Lemma keeps_key_Watch_event k l loc event m :
  deref l (heap m) = Some loc ->
  watchKey (location.Path loc) (fsnotify.Name event) <> k ->
  keeps_key k m (snd (Watch_event l event m)).
Proof.
  intros Hl Hne. unfold Watch_event. unfold bind at 1, inspect.
  destruct (os_Lstat _ _) as [fi|]; [|reflexivity].
  destruct (fi_IsDir fi).
  - unfold bind, get_recurse. destruct (recurse m); [|reflexivity].
    apply keeps_key_watcher_Add.
  - unfold bind at 1, load. rewrite Hl. by apply keeps_key_handleEvent.
Qed.

(** X15. The loop of [Watch] changes the manifests at the keys of the events
    it is given and nowhere else: however it ends, a key that is the key of
    none of the events has in both manifests the entry it had, or none as
    before. *)
Theorem Watch_keeps_other_keys l loc events k p m :
  deref l (heap m) = Some loc ->
  (forall event, event ∈ events ->
     watchKey (location.Path loc) (fsnotify.Name event) <> k) ->
  manifest_at p (snd (Watch l events m)) !! k = manifest_at p m !! k.
Proof.
  intros Hl Hevents. apply keeps_key_manifest_at.
  unfold Watch. unfold bind at 1, load. rewrite Hl.
  apply (bind_invariant (keeps_key k m)); [| |reflexivity].
  { intros m1. apply within_after; [apply _|apply keeps_key_watcher_Add]. }
  intros _. apply bind_invariant.
  { intros m1. apply within_after; [apply _|auto with within]. }
  intros rec. apply bind_invariant.
  { intros m1. apply within_after; [apply _|]. destruct rec; repeat within_step. }
  intros _. apply for_each_invariant.
  intros event m1 Hin Hkeep.
  destruct (keeps_key_deref k l loc m m1 Hkeep Hl) as (loc1 & Hl1 & Hsame).
  etrans; [done|]. apply (keeps_key_Watch_event k l loc1); [done|].
  replace (location.Path loc1) with (location.Path loc) by by rewrite Hsame.
  by apply Hevents.
Qed.

Lemma only_Manifests_same_heap {A} (c : M W A) :
  (forall m, heap (snd (c m)) = heap m) -> within only_Manifests c.
Proof. intros Hc m. unfold only_Manifests. rewrite Hc. reflexivity. Qed.

Lemma only_Manifests_record c : within only_Manifests (record (W:=W) c).
Proof. by apply only_Manifests_same_heap. Qed.

Lemma only_Manifests_perform (op : W -> option W) msg : within only_Manifests (perform op msg).
Proof.
  apply only_Manifests_same_heap. intros m. unfold perform. by destruct (op (world m)).
Qed.

Lemma only_Manifests_watcher_Add path : within only_Manifests (watcher_Add (W:=W) path).
Proof. by apply only_Manifests_same_heap. Qed.

Lemma only_Manifests_update_Manifest p g :
  within only_Manifests (update_Manifest (W:=W) p g).
Proof.
  intros m. unfold update_Manifest, bind, load.
  destruct (deref p (heap m)) as [loc|] eqn:Hp; simpl; [|reflexivity].
  apply (stores_related_assign _ p _ loc); [apply _|done|].
  apply same_but_Manifest_with.
Qed.

#[local] Hint Resolve only_Manifests_record only_Manifests_perform
  only_Manifests_watcher_Add only_Manifests_update_Manifest : within.

Lemma only_Manifests_handleEvent l key event :
  within only_Manifests (handleEvent (W:=W) l key event).
Proof. unfold handleEvent, constructFile, Put, Delete, file_Open. repeat within_step. Qed.
#[local] Hint Resolve only_Manifests_handleEvent : within.

Lemma only_Manifests_Watch_event l event :
  within only_Manifests (Watch_event (W:=W) l event).
Proof. unfold Watch_event. repeat within_step. Qed.

Lemma only_Manifests_deref l loc m m' :
  only_Manifests m m' -> deref l (heap m) = Some loc ->
  exists loc', deref l (heap m') = Some loc' /\ same_but_Manifest loc loc'.
Proof.
  intros Hkeep Hl. specialize (Hkeep l). rewrite Hl in Hkeep.
  inversion Hkeep; subst. eauto.
Qed.

Lemma constructFile_machine input m : snd (constructFile input m) = m.
Proof.
  unfold constructFile, bind, ask, ret.
  destruct input; simpl; [by destruct (os_Stat _ _)|done..].
Qed.

Lemma update_Manifest_calls p g m : calls (snd (update_Manifest p g m)) = calls m.
Proof. unfold update_Manifest, bind, load. by destruct (deref _ _). Qed.

(** The calls of one event: none, or the one call the event stands for. *)
Lemma handleEvent_calls l loc event m :
  deref l (heap m) = Some loc ->
  exists cs,
    calls (snd (handleEvent l (watchKey (location.Path loc) (fsnotify.Name event)) event m))
      = calls m ++ cs /\
    sublist (action_of <$> cs)
      (option_list (event_action (location.Destination loc) (location.Path loc) event)).
Proof.
  intros Hl. unfold handleEvent, event_action.
  set (key := watchKey _ _). set (d := location.Destination loc).
  assert (Hnone : forall (m' : machine W) acts, calls m' = calls m ->
            exists cs, calls m' = calls m ++ cs /\ sublist (action_of <$> cs) acts).
  { intros m' acts Hm'. exists []. rewrite app_nil_r. split; [done|apply sublist_nil_l]. }
  unfold bind at 1, load at 1. rewrite Hl.
  destruct (decide (location.Type_ loc = Source)); [|by apply Hnone].
  destruct (decide (fsnotify.Op event = fsnotify.Create)).
  { unfold bind at 1. pose proof (constructFile_machine (InEvent event) m) as Hm.
    destruct (constructFile _ m) as [[f| |] m1]; simpl in *; subst m1;
      [|by apply Hnone..].
    unfold bind at 1. pose proof (update_Manifest_calls l (insert key f) m) as Hm.
    destruct (update_Manifest _ _ m) as [[[]| |] m2]; simpl in *; [|by apply Hnone..].
    exists [CallPut d key f]. split; [by rewrite Put_calls, Hm|done]. }
  destruct (decide (fsnotify.Op event = fsnotify.Write)).
  { unfold bind at 1. pose proof (constructFile_machine (InEvent event) m) as Hm.
    destruct (constructFile _ m) as [[f| |] m1]; simpl in *; subst m1;
      [|by apply Hnone..].
    exists [CallPut d key f]. split; [by rewrite Put_calls|done]. }
  destruct (decide (fsnotify.Op event = fsnotify.Remove)); [|by apply Hnone].
  unfold bind at 1. fold d. pose proof (Delete_calls d key m) as Hm.
  exists [CallDelete d key]. split; [|done].
  destruct (Delete d key m) as [[[]| |] m1]; simpl in *; [|done..].
  by rewrite update_Manifest_calls.
Qed.

Lemma Watch_event_calls l loc event m :
  deref l (heap m) = Some loc ->
  exists cs,
    calls (snd (Watch_event l event m)) = calls m ++ cs /\
    sublist (action_of <$> cs)
      (option_list (event_action (location.Destination loc) (location.Path loc) event)).
Proof.
  intros Hl.
  assert (Hnone : forall (m' : machine W) acts, calls m' = calls m ->
            exists cs, calls m' = calls m ++ cs /\ sublist (action_of <$> cs) acts).
  { intros m' acts Hm'. exists []. rewrite app_nil_r. split; [done|apply sublist_nil_l]. }
  unfold Watch_event. unfold bind at 1, inspect.
  destruct (os_Lstat _ _) as [fi|]; [|by apply Hnone].
  destruct (fi_IsDir fi).
  - unfold bind, get_recurse. destruct (recurse m); by apply Hnone.
  - unfold bind at 1, load. rewrite Hl. by apply handleEvent_calls.
Qed.

(** The events handled one after the other. *)
Lemma Watch_events_calls l loc events : forall loc1 m1,
  deref l (heap m1) = Some loc1 ->
  same_but_Manifest loc loc1 ->
  exists cs,
    calls (snd (for_each events (Watch_event l) m1)) = calls m1 ++ cs /\
    sublist (action_of <$> cs)
      (omap (event_action (location.Destination loc) (location.Path loc)) events).
Proof.
  induction events as [|event events IH]; intros loc1 m1 Hl1 Hsame.
  { exists []. simpl. by rewrite app_nil_r. }
  destruct (Watch_event_calls l loc1 event m1 Hl1) as (cs1 & Hcs1 & Hsub1).
  replace (location.Destination loc1) with (location.Destination loc) in Hsub1
    by by rewrite Hsame.
  replace (location.Path loc1) with (location.Path loc) in Hsub1 by by rewrite Hsame.
  assert (Hsplit : omap (event_action (location.Destination loc) (location.Path loc))
                     (event :: events)
                   = option_list (event_action (location.Destination loc)
                                    (location.Path loc) event)
                     ++ omap (event_action (location.Destination loc)
                                (location.Path loc)) events).
  { simpl. by destruct (event_action _ _ event). }
  rewrite Hsplit. simpl. unfold bind.
  pose proof (only_Manifests_Watch_event l event m1) as Hkeep.
  destruct (Watch_event l event m1) as [[[]| |] m2]; simpl in *.
  - destruct (only_Manifests_deref l loc1 m1 m2 Hkeep Hl1) as (loc2 & Hl2 & Hsame2).
    destruct (IH loc2 m2 Hl2) as (cs2 & Hcs2 & Hsub2); [by etrans|].
    exists (cs1 ++ cs2). split; [by rewrite Hcs2, Hcs1, app_assoc|].
    rewrite fmap_app. by apply sublist_app.
  - exists cs1. split; [done|]. by apply sublist_inserts_r.
  - exists cs1. split; [done|]. by apply sublist_inserts_r.
Qed.

(** X16. The calls the loop of [Watch] makes follow the events: however the
    loop ends, the calls made since it started are, in the order of the
    events, at most one call for each event, on the destination and for the
    key of the event, a [Put] for [Create] and [Write] and a [Delete] for
    [Remove]; no other call is made and no two calls change places. *)
Theorem Watch_calls_follow_events l loc events m :
  deref l (heap m) = Some loc ->
  exists cs,
    calls (snd (Watch l events m)) = calls m ++ cs /\
    sublist (action_of <$> cs)
      (omap (event_action (location.Destination loc) (location.Path loc)) events).
Proof.
  intros Hl.
  set (Q := fun m' : machine W => exists cs,
         calls m' = calls m ++ cs /\
         sublist (action_of <$> cs)
           (omap (event_action (location.Destination loc) (location.Path loc)) events)).
  set (I := fun m' : machine W => heap m' = heap m /\ calls m' = calls m).
  assert (HIQ : forall m', I m' -> Q m').
  { intros m' [_ Hc]. exists []. rewrite app_nil_r. split; [done|apply sublist_nil_l]. }
  unfold Watch. unfold bind at 1, load. rewrite Hl.
  apply (bind_post I I Q); [by intros m1 [? ?]|done| |done].
  intros _. apply (bind_post I I Q); [by intros m1 [? ?]|done|].
  intros rec. apply (bind_post I I Q); [|done|].
  { intros m1 HI. destruct rec; [|done].
    apply (bind_invariant I); [| |done].
    - intros m2 HI2. unfold ask. by destruct (ioutil_ReadDir _ _).
    - intros files m2 HI2. apply (for_each_invariant I); [|done].
      intros fi m3 _ HI3. by destruct (fi_IsDir fi). }
  intros _ m1 [Hheap Hcalls].
  destruct (Watch_events_calls l loc events loc m1) as (cs & Hcs & Hsub);
    [by rewrite Hheap|reflexivity|].
  exists cs. by rewrite Hcs, Hcalls.
Qed.

End Watching.

(** ** The reconciliation of two sides that agree *)

Section Agreeing.
Context {W : Type} `{!Backend W} `{!MapRange}.
Implicit Types (m : machine W) (l d p : ptr) (loc : location.t).

(** X8. The reconciliation compares sizes and nothing else: when the
    destination has every key of the source with a file of the same size,
    and with the flag [delete] has no key the source lacks, [oneTimeSync]
    completes without a call and changes nothing, whatever the names, the
    modification times and the bytes of the files are. *)
Theorem oneTimeSync_same_sizes c src dst sl dl m :
  deref src (heap m) = Some sl ->
  deref dst (heap m) = Some dl ->
  (forall k f, location.Manifest sl !! k = Some f ->
     exists g, location.Manifest dl !! k = Some g /\ file.Size g = file.Size f) ->
  (cli.Bool c "delete" = true ->
   forall k, is_Some (location.Manifest dl !! k) -> is_Some (location.Manifest sl !! k)) ->
  oneTimeSync c src dst m = (Ok tt, m).
Proof.
  intros Hs Hd Hsizes Hkeys.
  apply (oneTimeSync_in_sync c src dst sl dl m Hs Hd).
  - intros [k f] Hin. apply elem_of_range in Hin.
    destruct (Hsizes k f Hin) as (g & Hg & Hsize).
    unfold needs_put; simpl. rewrite Hg.
    by rewrite bool_decide_eq_false_2 by congruence.
  - intros Hflag [k g] Hin. apply elem_of_range in Hin.
    destruct (Hkeys Hflag k) as [f Hf]; [by eexists|].
    unfold needs_delete; simpl. rewrite Hf.
    by rewrite bool_decide_eq_false_2.
Qed.

End Agreeing.

(** ** A walk that returns has every file of the tree *)

Section Walk_complete.
Context {W : Type} `{!Backend W} `{!MapRange}.
Implicit Types (m : machine W) (l p : ptr) (loc : location.t).

(** A directory below [dir] is [dir] or lies below one of its
    subdirectories. *)
Lemma reached_first (w : W) dir d :
  reached w dir d ->
  d = dir \/
  exists files fi,
    ioutil_ReadDir dir w = Some files /\ fi ∈ files /\ fi_IsDir fi = true /\
    reached w (join dir (fi_Name fi)) d.
Proof.
  induction 1 as [|d files fi Hreached IH Hread Hin Hdir]; [by left|].
  right. destruct IH as [->|(files0 & fi0 & Hread0 & Hin0 & Hdir0 & Hrest)].
  - exists files, fi. repeat split; try done. constructor.
  - exists files0, fi0. repeat split; try done. by econstructor.
Qed.

Lemma walking_lists_only w l root m m' :
  lists_only l m m' -> walking w l root m -> walking w l root m'.
Proof.
  intros (Hw & _ & _ & _ & _ & Hheap) (<- & loc & Hl & HPath).
  split; [done|]. specialize (Hheap l). rewrite Hl in Hheap.
  inversion Hheap as [? loc' Hrel|]; subst. exists loc'. split; [done|].
  unfold but_Manifest_of in Hrel. rewrite decide_True in Hrel by done.
  rewrite Hrel. by destruct loc.
Qed.

Lemma gains_keys_trans l m1 m2 m3 :
  gains_keys l m1 m2 -> gains_keys l m2 m3 -> gains_keys l m1 m3.
Proof. intros H12 H23 k Hk. by apply H23, H12. Qed.

(** A walk that returns has stored a file for every file of every directory
    below the one it started in. *)
Lemma buildDirManifest_complete w l root depth : forall dir m m',
  walking w l root m ->
  buildDirManifest depth l dir m = (Ok tt, m') ->
  gains_keys l m m' /\
  forall d files fi,
    reached w dir d ->
    ioutil_ReadDir d w = Some files -> fi ∈ files -> fi_IsDir fi = false ->
    is_Some (manifest_at l m' !! dirKey root (join d (fi_Name fi))).
Proof.
  induction depth as [|depth IH]; intros dir m m' Hwalking Hrun; [done|].
  rewrite buildDirManifest_S in Hrun.
  assert (Hw : world m = w) by apply Hwalking. rewrite Hw in Hrun.
  destruct (ioutil_ReadDir dir w) as [files0|] eqn:Hread0; [|done].
  set (body := fun fi : FileInfo => _) in Hrun.
  set (covered := fun (fi : FileInfo) (m1 : machine W) =>
         if fi_IsDir fi then
           forall d files fi',
             reached w (join dir (fi_Name fi)) d ->
             ioutil_ReadDir d w = Some files -> fi' ∈ files -> fi_IsDir fi' = false ->
             is_Some (manifest_at l m1 !! dirKey root (join d (fi_Name fi')))
         else is_Some (manifest_at l m1 !! dirKey root (join dir (fi_Name fi)))).
  assert (Hmono : forall fi m1 m2, gains_keys l m1 m2 -> covered fi m1 -> covered fi m2).
  { intros fi m1 m2 Hgain. unfold covered. destruct (fi_IsDir fi); [|apply Hgain].
    intros Hall d files fi' ? ? ? ?. by eapply Hgain, Hall. }
  assert (Hbody : forall fi m1 m2,
            walking w l root m1 -> body fi m1 = (Ok tt, m2) ->
            walking w l root m2 /\ gains_keys l m1 m2 /\ covered fi m2).
  { intros fi m1 m2 Hwalking1 Hfi. unfold body, covered in *.
    destruct (fi_IsDir fi) eqn:Hdir.
    - destruct (IH _ _ _ Hwalking1 Hfi) as [Hgain Hall].
      split; [|by split].
      apply (walking_lists_only w l root m1); [|done].
      pose proof (lists_only_buildDirManifest depth l (join dir (fi_Name fi)) m1) as Hl1.
      by rewrite Hfi in Hl1.
    - destruct Hwalking1 as (Hw1 & loc1 & Hl1 & HPath).
      assert (Hnull : l <> null) by eauto using deref_not_null.
      unfold bind, load, update_Manifest, bind, load in Hfi. rewrite Hl1 in Hfi.
      simpl in Hfi. rewrite Hl1 in Hfi. injection Hfi as <-.
      split; [|split].
      + split; [done|]. eexists. split; [by apply deref_assign_eq|by destruct loc1].
      + intros k Hk. unfold manifest_at in *. simpl.
        rewrite deref_assign_eq by done. rewrite Hl1 in Hk. simpl.
        apply lookup_insert_is_Some'. by right.
      + unfold manifest_at. simpl. rewrite deref_assign_eq by done. simpl.
        rewrite HPath. apply lookup_insert_is_Some'. by left. }
  assert (Hloop : forall xs m1,
            walking w l root m1 -> for_each xs body m1 = (Ok tt, m') ->
            gains_keys l m1 m' /\ forall fi, fi ∈ xs -> covered fi m').
  { induction xs as [|x xs IHxs]; intros m1 Hwalking1 Hxs; simpl in Hxs.
    - unfold ret in Hxs. injection Hxs as <-. split; [by intros k|].
      intros fi Hin. by apply elem_of_nil in Hin.
    - apply bind_Ok in Hxs as ([] & m2 & Hx & Hxs).
      destruct (Hbody x m1 m2 Hwalking1 Hx) as (Hwalking2 & Hgain & Hcovered).
      destruct (IHxs m2 Hwalking2 Hxs) as [Hgain' Hall].
      split; [by eapply gains_keys_trans|].
      intros fi Hin. apply elem_of_cons in Hin as [->|Hin]; [|by apply Hall].
      by apply (Hmono x m2 m'). }
  destruct (Hloop files0 m Hwalking Hrun) as [Hgain Hall].
  split; [done|].
  intros d files fi Hreached Hread Hin Hfile.
  destruct (reached_first w dir d Hreached)
    as [->|(files1 & fi1 & Hread1 & Hin1 & Hdir1 & Hrest)].
  - rewrite Hread0 in Hread. injection Hread as <-.
    specialize (Hall fi Hin). unfold covered in Hall. by rewrite Hfile in Hall.
  - rewrite Hread0 in Hread1. injection Hread1 as <-.
    specialize (Hall fi1 Hin1). unfold covered in Hall. rewrite Hdir1 in Hall.
    by apply (Hall d files fi).
Qed.

(** X21. A listing of a directory that returns has every file of the tree:
    for every directory below the path of the location, and every file that
    [ReadDir] reports in it and that is no directory itself, the manifest
    has an entry under the key made of the path of the file. *)
Theorem buildManifest_directory_complete depth l loc fi0 m m' dir files fi :
  deref l (heap m) = Some loc ->
  location.Service loc = SvcFileInfo fi0 ->
  buildManifest depth l m = (Ok tt, m') ->
  reached (world m) (location.Path loc) dir ->
  ioutil_ReadDir dir (world m) = Some files ->
  fi ∈ files ->
  fi_IsDir fi = false ->
  is_Some (manifest_at l m' !! dirKey (location.Path loc) (join dir (fi_Name fi))).
Proof.
  intros Hl Hsvc Hrun Hreached Hread Hin Hfile.
  assert (Hnull : l <> null) by eauto using deref_not_null.
  unfold buildManifest in Hrun.
  unfold bind at 1, update_Manifest at 1, bind at 1, load at 1 in Hrun.
  rewrite Hl in Hrun.
  set (loc0 := location.with_Manifest (fun _ => ∅) loc) in *.
  set (m0 := with_heap (assign l loc0 (heap m)) m) in *.
  assert (Hl0 : deref l (heap m0) = Some loc0) by by apply deref_assign_eq.
  unfold bind at 1, load at 1 in Hrun. rewrite Hl0 in Hrun.
  change (location.Service loc0) with (location.Service loc) in Hrun.
  rewrite Hsvc in Hrun.
  change (location.Path loc0) with (location.Path loc) in Hrun.
  destruct (buildDirManifest_complete (world m) l (location.Path loc) depth
              (location.Path loc) m0 m') as [_ Hall]; [|done|by eapply Hall].
  split; [done|]. by exists loc0.
Qed.

End Walk_complete.

(** ** A reconciliation that is interrupted *)

Section Interrupted.
Context {W : Type} `{!Backend W} `{!MapRange}.
Implicit Types (m : machine W) (l d p : ptr) (loc : location.t).

(** A loop returns, or it ends with the first iteration that does not. *)
Lemma for_each_stops {A} (xs : list A) (body : A -> M W unit) : forall m,
  (exists m', for_each xs body m = (Ok tt, m')) \/
  (exists xs1 x xs2 m1,
     xs = xs1 ++ x :: xs2 /\ for_each xs1 body m = (Ok tt, m1) /\
     fst (body x m1) <> Ok tt /\ for_each xs body m = body x m1).
Proof.
  induction xs as [|x xs IH]; intros m; [left; by exists m|].
  destruct (body x m) as [[[]|msg|msg] m1] eqn:Hbody.
  - destruct (IH m1) as [[m' Hrun]|(xs1 & y & xs2 & m2 & -> & Hrun & Hfail & Hend)].
    + left. exists m'. simpl. unfold bind. by rewrite Hbody.
    + right. exists (x :: xs1), y, xs2, m2. simpl. unfold bind. rewrite Hbody.
      by repeat split.
  - right. exists [], x, xs, m. simpl. unfold bind. rewrite Hbody. by repeat split.
  - right. exists [], x, xs, m. simpl. unfold bind. rewrite Hbody. by repeat split.
Qed.

Lemma push_calls dst dl entry m :
  deref dst (heap m) = Some dl ->
  calls (snd (push dst entry m))
  = calls m ++ option_list (put_call dst (location.Manifest dl) entry).
Proof.
  intros Hd. destruct entry as [key f].
  unfold push, bind, load, put_call, needs_put; simpl. rewrite Hd.
  destruct (location.Manifest dl !! key) as [destF|]; [|apply Put_calls].
  destruct (decide (file.Size f <> file.Size destF)) as [Hne|Heq].
  - rewrite bool_decide_eq_true_2 by done. apply Put_calls.
  - rewrite bool_decide_eq_false_2 by done. simpl. by rewrite app_nil_r.
Qed.

Lemma prune_calls src dst sl entry m :
  deref src (heap m) = Some sl ->
  calls (snd (prune src dst entry m))
  = calls m ++ option_list (delete_call dst (location.Manifest sl) entry).
Proof.
  intros Hs. destruct entry as [key f].
  unfold prune, bind, load, delete_call, needs_delete; simpl. rewrite Hs.
  destruct (location.Manifest sl !! key) as [srcF|].
  - rewrite bool_decide_eq_false_2 by done. simpl. by rewrite app_nil_r.
  - rewrite bool_decide_eq_true_2 by done. apply Delete_calls.
Qed.

Lemma put_calls_app svc dst entries1 entries2 : forall B,
  put_calls svc dst B (entries1 ++ entries2)
  = put_calls svc dst B entries1
      ++ put_calls svc dst (foldl (put_step svc) B entries1) entries2.
Proof.
  induction entries1 as [|entry entries1 IH]; intros B; simpl; [done|].
  by rewrite IH, app_assoc.
Qed.

Lemma put_calls_one svc dst B entry :
  put_calls svc dst B [entry] = option_list (put_call dst B entry).
Proof. simpl. unfold put_call. destruct (needs_put B entry); by rewrite ?app_nil_r. Qed.

(** The calls of the first loop, however it ends. *)
Lemma push_loop_prefix dst dl entries m :
  deref dst (heap m) = Some dl ->
  exists cs,
    calls (snd (for_each entries (push dst) m)) = calls m ++ cs /\
    cs `prefix_of` put_calls (location.Service dl) dst (location.Manifest dl) entries.
Proof.
  intros Hd.
  destruct (for_each_stops entries (push dst) m)
    as [[m' Hrun]|(xs1 & x & xs2 & m1 & -> & Hrun & _ & ->)].
  - destruct (push_loop dst entries dl m m' Hd Hrun) as (_ & _ & Hcalls).
    rewrite Hrun. eexists. split; [done|reflexivity].
  - destruct (push_loop dst xs1 dl m m1 Hd Hrun) as (Hd1 & _ & Hcalls).
    rewrite (push_calls dst _ x m1 Hd1), Hcalls, <- app_assoc. simpl.
    eexists. split; [done|].
    rewrite (put_calls_app _ _ xs1 (x :: xs2)).
    apply prefix_app. change (x :: xs2) with ([x] ++ xs2).
    rewrite put_calls_app, put_calls_one. by apply prefix_app_r.
Qed.

(** The calls of the second loop, however it ends. *)
Lemma prune_loop_prefix src dst sl dl entries m :
  src <> dst ->
  deref src (heap m) = Some sl ->
  deref dst (heap m) = Some dl ->
  exists cs,
    calls (snd (for_each entries (prune src dst) m)) = calls m ++ cs /\
    cs `prefix_of` delete_calls dst (location.Manifest sl) entries.
Proof.
  intros Hne Hs Hd.
  destruct (for_each_stops entries (prune src dst) m)
    as [[m' Hrun]|(xs1 & x & xs2 & m1 & -> & Hrun & _ & ->)].
  - destruct (prune_loop src dst sl entries Hne dl m m' Hs Hd Hrun) as (_ & _ & Hcalls).
    rewrite Hrun. eexists. split; [done|reflexivity].
  - destruct (prune_loop src dst sl xs1 Hne dl m m1 Hs Hd Hrun) as (_ & Hother & Hcalls).
    assert (Hs1 : deref src (heap m1) = Some sl) by by rewrite Hother.
    rewrite (prune_calls src dst sl x m1 Hs1), Hcalls, <- app_assoc.
    eexists. split; [done|].
    unfold delete_calls. rewrite omap_app. apply prefix_app.
    simpl. destruct (delete_call dst (location.Manifest sl) x); simpl;
      [by apply prefix_cons, prefix_nil|apply prefix_nil].
Qed.

(** The calls of the two loops, however they end. *)
Lemma oneTimeSync_calls_planned c src dst sl dl m :
  src <> dst ->
  deref src (heap m) = Some sl ->
  deref dst (heap m) = Some dl ->
  let A := location.Manifest sl in
  let B := location.Manifest dl in
  let B1 := foldl (put_step (location.Service dl)) B (range A) in
  exists cs,
    calls (snd (oneTimeSync c src dst m)) = calls m ++ cs /\
    cs `prefix_of`
      omap (put_call dst B) (range A)
        ++ (if cli.Bool c "delete" then delete_calls dst A (range B1) else []).
Proof.
  intros Hne Hs Hd A B B1.
  assert (Hputs : put_calls (location.Service dl) dst B (range A)
                  = omap (put_call dst B) (range A))
    by (apply put_calls_keys; auto using range_NoDup).
  unfold oneTimeSync, bind at 1, load at 1. rewrite Hs. fold A. unfold bind at 1.
  destruct (push_loop_prefix dst dl (range A) m Hd) as (cs1 & Hcalls1 & Hprefix1).
  fold B in Hprefix1. rewrite Hputs in Hprefix1.
  destruct (for_each (range A) (push dst) m) as [[[]|msg|msg] m1] eqn:Hpush;
    simpl in Hcalls1.
  2,3: exists cs1; split; [done|by apply prefix_app_r].
  destruct (push_loop dst (range A) dl m m1 Hd Hpush) as (Hd1 & Hother & Hcalls).
  fold B in Hcalls. rewrite Hputs in Hcalls. fold A B B1 in Hd1.
  destruct (cli.Bool c "delete").
  - unfold bind at 1, load at 1. rewrite Hd1.
    assert (Hs1 : deref src (heap m1) = Some sl) by by rewrite Hother.
    destruct (prune_loop_prefix src dst sl _ (range B1) m1 Hne Hs1 Hd1)
      as (cs & Hcalls2 & Hprefix).
    exists (omap (put_call dst B) (range A) ++ cs).
    split; [|by apply prefix_app].
    cbn [location.Manifest location.with_Manifest].
    by rewrite Hcalls2, Hcalls, app_assoc.
  - exists (omap (put_call dst B) (range A)). rewrite app_nil_r. by split.
Qed.

(** X12. A reconciliation that is interrupted has made an initial segment of
    the calls of one that completes: however [oneTimeSync] ends, the calls it
    has made are, in their order, the first of the puts that the entries of
    the source need, in the order the map of the source is visited, followed
    with the flag [delete] by the first of the deletes; it has made all of
    them when it returns. *)
Theorem oneTimeSync_calls_prefix c src dst sl dl m :
  src <> dst ->
  deref src (heap m) = Some sl ->
  deref dst (heap m) = Some dl ->
  let A := location.Manifest sl in
  let B := location.Manifest dl in
  let B1 := foldl (put_step (location.Service dl)) B (range A) in
  let planned :=
    omap (put_call dst B) (range A)
      ++ (if cli.Bool c "delete" then delete_calls dst A (range B1) else []) in
  exists cs,
    calls (snd (oneTimeSync c src dst m)) = calls m ++ cs /\
    cs `prefix_of` planned /\
    (fst (oneTimeSync c src dst m) = Ok tt -> cs = planned).
Proof.
  intros Hne Hs Hd A B B1 planned.
  destruct (oneTimeSync_calls_planned c src dst sl dl m Hne Hs Hd)
    as (cs & Hcalls & Hprefix).
  exists cs. split; [done|]. split; [done|]. intros Hend.
  destruct (oneTimeSync c src dst m) as [r m'] eqn:Hrun. simpl in *. subst r.
  destruct (oneTimeSync_completed c src dst sl dl m m' Hne Hs Hd Hrun)
    as (Hcalls' & _ & _).
  rewrite Hcalls in Hcalls'. by apply app_inv_head in Hcalls'.
Qed.

End Interrupted.

(** ** The file of an event and the path it is opened at *)

Lemma string_of_list_ascii_app (a b : list ascii) :
  String.string_of_list_ascii (a ++ b)
  = String.string_of_list_ascii a +:+ String.string_of_list_ascii b.
Proof. induction a as [|c a IH]; simpl; [done|by rewrite IH]. Qed.

Lemma rooted_path_snoc names n :
  rooted_path (names ++ [n]) = rooted_path names ++ slash :: n.
Proof.
  unfold rooted_path. rewrite map_app, concat_app. simpl. by rewrite app_nil_r.
Qed.

Lemma skip_all (p : ascii -> bool) l c rest :
  Forall (fun a => p a = true) l -> p c = false ->
  filepath.skip p (l ++ c :: rest) = c :: rest.
Proof.
  intros Hl Hc. induction Hl as [|a l Ha Hl IH]; simpl; [by rewrite Hc|by rewrite Ha].
Qed.

Lemma span_all (p : ascii -> bool) l c rest :
  Forall (fun a => p a = true) l -> p c = false ->
  filepath.span p (l ++ c :: rest) = l.
Proof.
  intros Hl Hc. induction Hl as [|a l Ha Hl IH]; simpl; [by rewrite Hc|].
  by rewrite Ha, IH.
Qed.

Lemma plain_name_rev n :
  plain_name n ->
  Forall (fun a => negb (filepath.is_sep a) = true) (rev n) /\
  exists c r, rev n = c :: r /\ filepath.is_sep c = false.
Proof.
  intros (Hne & Hsep & _).
  assert (Hrev : Forall (fun a => a <> slash) (rev n)).
  { apply Forall_forall. intros a Ha. apply list_elem_of_In, in_rev in Ha.
    rewrite Forall_forall in Hsep. by apply Hsep, list_elem_of_In. }
  split.
  - eapply Forall_impl; [done|]. intros a Ha. simpl. by rewrite is_sep_false.
  - destruct (rev n) as [|c r] eqn:Hn.
    + apply (f_equal (@rev ascii)) in Hn. rewrite rev_involutive in Hn. done.
    + exists c, r. split; [done|]. apply Forall_cons in Hrev as [Hc _].
      by apply is_sep_false.
Qed.

(** [Base] of a rooted key is its last name. *)
Lemma Base_rooted_key names n :
  plain_name n ->
  filepath.Base (rooted_key (names ++ [n])) = String.string_of_list_ascii n.
Proof.
  intros Hn. destruct (plain_name_rev n Hn) as (Hall & c & r & Hrev & Hc).
  unfold filepath.Base, rooted_key.
  rewrite String.list_ascii_of_string_of_list_ascii, rooted_path_snoc.
  destruct (rooted_path names ++ slash :: n) as [|a p] eqn:Hp.
  { by destruct (rooted_path names). }
  rewrite <- Hp. clear a p Hp.
  rewrite rev_app_distr. cbn [rev]. rewrite <- app_assoc. cbn [app].
  assert (Hskip : filepath.skip filepath.is_sep (rev n ++ slash :: rev (rooted_path names))
                  = rev n ++ slash :: rev (rooted_path names)).
  { rewrite Hrev. simpl. by rewrite Hc. }
  rewrite Hskip, span_all by done.
  rewrite Hrev. by rewrite <- (rev_involutive n), Hrev.
Qed.

Lemma at_boundary_rooted_dir ns :
  filepath.at_boundary (rooted_path ns ++ [slash]) = true.
Proof. by destruct ns. Qed.

(** The loop of [Clean] on a rooted sequence of plain names that ends in a
    separator. *)
Lemma clean_loop_plain_dir ns : forall n fuel out,
  plain_name n ->
  Forall plain_name ns ->
  (2 + 2 * length ns <= fuel)%nat ->
  (1 <= length out)%nat ->
  filepath.clean_loop fuel true (n ++ rooted_path ns ++ [slash]) out 1
  = rev (rooted_path ns) ++ rev n
      ++ (if (length out =? 1)%nat then out else slash :: out).
Proof.
  induction ns as [|n2 ns IH]; intros n fuel out Hn Hns Hfuel Hout.
  all: destruct fuel as [|fuel]; [lia|].
  all: rewrite clean_loop_name by auto using at_boundary_rooted_dir.
  - destruct fuel as [|fuel]; [simpl in Hfuel; lia|].
    cbn [rooted_path map concat app filepath.clean_loop].
    change (filepath.is_sep slash) with true. cbn iota. by destruct fuel.
  - apply Forall_cons in Hns as [Hn2 Hns].
    destruct fuel as [|fuel]; [simpl in Hfuel; lia|].
    change (rooted_path (n2 :: ns) ++ [slash])
      with (slash :: (n2 ++ rooted_path ns) ++ [slash]).
    rewrite <- app_assoc.
    cbn [filepath.clean_loop]. change (filepath.is_sep slash) with true. cbn iota.
    rewrite IH; [|done|done|simpl in *; lia|].
    2:{ rewrite length_app, length_rev. destruct (length out =? 1)%nat; simpl; lia. }
    replace (length (rev n ++ _) =? 1)%nat with false.
    2:{ symmetry. apply Nat.eqb_neq. rewrite length_app, length_rev.
        destruct Hn as (Hne & _). destruct n; [done|].
        destruct (length out =? 1)%nat; simpl; lia. }
    change (rooted_path (n2 :: ns)) with (slash :: n2 ++ rooted_path ns).
    cbn [rev]. rewrite rev_app_distr. by rewrite <- !app_assoc.
Qed.

(** [Dir] of a rooted key of two names or more is the key of the names but
    the last. *)
Lemma Dir_rooted_key names n :
  names <> [] -> Forall plain_name names -> plain_name n ->
  filepath.Dir (rooted_key (names ++ [n])) = rooted_key names.
Proof.
  intros Hne Hnames Hn. destruct (plain_name_rev n Hn) as (Hall & _).
  unfold filepath.Dir, rooted_key at 1.
  rewrite String.list_ascii_of_string_of_list_ascii, rooted_path_snoc.
  rewrite rev_app_distr. cbn [rev]. rewrite <- app_assoc. cbn [app].
  rewrite skip_all by done. cbn [rev]. rewrite rev_involutive.
  destruct names as [|n0 ns]; [done|].
  apply Forall_cons in Hnames as [Hn0 Hns].
  pose proof (length_rooted_path ns Hns) as Hlen.
  unfold filepath.Clean. rewrite String.list_ascii_of_string_of_list_ascii.
  change (rooted_path (n0 :: ns) ++ [slash])
    with (slash :: (n0 ++ rooted_path ns) ++ [slash]).
  rewrite <- app_assoc.
  change (filepath.is_sep slash) with true. cbn iota.
  rewrite clean_loop_plain_dir; [|done|done| |simpl; lia].
  2:{ simpl. rewrite !length_app. simpl. lia. }
  change (length [slash] =? 1)%nat with true. cbn iota.
  destruct (rev (rooted_path ns) ++ rev n0 ++ [slash]) as [|a out] eqn:Hout.
  { apply (f_equal length) in Hout. rewrite !length_app in Hout. simpl in Hout. lia. }
  rewrite <- Hout. unfold rooted_key.
  change (rooted_path (n0 :: ns)) with (slash :: n0 ++ rooted_path ns).
  by rewrite !rev_app_distr, !rev_involutive.
Qed.

Section Event_file.
Context {W : Type} `{!Backend W} `{!MapRange}.
Implicit Types (m : machine W) (l d p : ptr) (loc : location.t).

(** X13. The file made of an event is opened at the path of the event: for
    a path of two plain names or more, each behind one separator,
    [constructFile] splits the path into [Dir] and [Base], and [Open] joins
    the two to the path again; [Put] then reads the file the event names. *)
Theorem event_file_opens_its_path names n event fi m :
  names <> [] -> Forall plain_name names -> plain_name n ->
  fsnotify.Name event = rooted_key (names ++ [n]) ->
  os_Stat (fsnotify.Name event) (world m) = Some fi ->
  exists f,
    constructFile (InEvent event) m = (Ok f, m) /\
    file.Path f = rooted_key names /\
    file.Name f = String.string_of_list_ascii n /\
    join (file.Path f) (file.Name f) = fsnotify.Name event /\
    file_Open f m
    = match os_Open (fsnotify.Name event) (world m) with
      | Some r => (Ok (Some r), m)
      | None => (Fatal "error opening file:", m)
      end.
Proof.
  intros Hne Hnames Hn Hname Hstat.
  exists (event_file (fsnotify.Name event) fi).
  assert (HPath : filepath.Dir (fsnotify.Name event) = rooted_key names)
    by (rewrite Hname; by apply Dir_rooted_key).
  assert (HName : filepath.Base (fsnotify.Name event) = String.string_of_list_ascii n)
    by (rewrite Hname; by apply Base_rooted_key).
  assert (Hjoin : join (filepath.Dir (fsnotify.Name event))
                    (filepath.Base (fsnotify.Name event)) = fsnotify.Name event).
  { rewrite HPath, HName, Hname. unfold join, rooted_key.
    rewrite rooted_path_snoc, string_of_list_ascii_app. done. }
  split; [by apply constructFile_event|].
  split; [done|]. split; [done|]. split; [done|].
  unfold file_Open, event_file, bind, ask, ret. cbn [file.Object file.Path file.Name].
  rewrite Hjoin. by destruct (os_Open _ _).
Qed.

End Event_file.

(** ** [Put] of a file that was listed in a bucket *)

Section Listed_object.
Context {W : Type} `{!Backend W} `{!MapRange}.
Implicit Types (m : machine W) (l d p : ptr) (loc : location.t).

(** X11. A file made of an object of a bucket listing has no bytes to read:
    [Open] returns the nil reader and opens nothing.  [Put] of such a file on
    a bucket sends the object without a body and stores the entry; on a
    directory it creates the file, and so empties one that exists, and then
    panics in the copy. *)
Theorem Put_listed_object l loc key o m :
  deref l (heap m) = Some loc ->
  let r := Put l key (s3_file o) m in
  calls (snd r) = calls m ++ [CallPut l key (s3_file o)] /\
  match location.Service loc with
  | SvcS3 =>
      match s3_PutObject (location.Bucket loc) key None (world m) with
      | Some w' => r = (Ok tt, after_Put l loc key (s3_file o) w' m)
      | None => fst r = Fatal "PutObject" /\ world (snd r) = world m /\
                heap (snd r) = heap m
      end
  | SvcFileInfo _ =>
      match os_Create (join (location.Path loc) key) (world m) with
      | Some w' => fst r = Panic "nil pointer dereference" /\ world (snd r) = w' /\
                   heap (snd r) = heap m
      | None => fst r = Fatal "error creating:" /\ world (snd r) = world m /\
                heap (snd r) = heap m
      end
  | SvcOther => fst r = Fatal "can't handle" /\ world (snd r) = world m /\
                heap (snd r) = heap m
  end.
Proof.
  intros Hl r. subst r. split; [apply Put_calls|].
  unfold Put, bind, record, file_Open, load, perform, update_Manifest, bind, load, ret,
    panic, fatal, after_Put; simpl.
  rewrite Hl; simpl.
  destruct (location.Service loc) eqn:Hsvc; simpl.
  - destruct (s3_PutObject _ _ _ _) as [w'|]; simpl; [|done].
    by rewrite Hl.
  - by destruct (os_Create _ _) as [w'|].
  - done.
Qed.

End Listed_object.

(** ** The loop of [Watch] at a path that is gone *)

Section Gone.
Context {W : Type} `{!Backend W} `{!MapRange}.
Implicit Types (m : machine W) (l d p : ptr) (loc : location.t).

Lemma for_each_app_Ok {A} (xs ys : list A) (body : A -> M W unit) m m1 :
  for_each xs body m = (Ok tt, m1) ->
  for_each (xs ++ ys) body m = for_each ys body m1.
Proof.
  revert m. induction xs as [|x xs IH]; intros m Hxs; simpl in *.
  - unfold ret in Hxs. by injection Hxs as ->.
  - unfold bind in *. destruct (body x m) as [[[]| |] m2]; [|done..].
    by apply IH.
Qed.

(** X17. The loop of [Watch] ends at the first event whose path [os.Lstat]
    does not find, as the path of a file that was removed: the call of
    [IsDir] on the nil [FileInfo] panics, the event does not reach the
    handler, and no later event is handled; the machine is as the events
    before have left it. *)
Theorem Watch_stops_at_gone_path l before event after m m1 :
  Watch l before m = (Ok tt, m1) ->
  os_Lstat (fsnotify.Name event) (world m1) = None ->
  Watch l (before ++ event :: after) m = (Panic "nil pointer dereference", m1).
Proof.
  unfold Watch. intros Hbefore Hgone.
  unfold bind at 1. unfold bind at 1 in Hbefore.
  destruct (load l m) as [[loc| |] m2]; [|done..].
  unfold bind at 1. unfold bind at 1 in Hbefore.
  destruct (watcher_Add _ m2) as [[[]| |] m3]; [|done..].
  unfold bind at 1. unfold bind at 1 in Hbefore.
  destruct (get_recurse m3) as [[rec| |] m4]; [|done..].
  unfold bind at 1. unfold bind at 1 in Hbefore.
  match goal with
  | |- context [for_each _ _ ?m'] => idtac
  | |- (let (_, _) := ?c in _) = _ => destruct c as [[[]| |] m5]; [|done..]
  end.
  rewrite (for_each_app_Ok _ _ _ _ _ Hbefore). simpl.
  unfold bind. by rewrite Watch_event_gone.
Qed.

End Gone.

(** ** The flags [recursive] and [one-time] *)

#[local] Instance settled_preorder {W} : PreOrder (settled (W:=W)).
Proof.
  split.
  - intros m. by repeat split.
  - intros m1 m2 m3 (Hr12 & Hw12 & H12) (Hr23 & Hw23 & H23).
    split; [congruence|]. split; [congruence|by etrans].
Qed.

Section Flags.
Context {W : Type} `{!Backend W} `{!MapRange}.
Implicit Types (m : machine W) (l d p : ptr) (loc : location.t).

Lemma Bool_noop c : cli.Bool c "noop" = cli.noop_flag c.
Proof. done. Qed.

Lemma Bool_recurse c : cli.Bool c "recurse" = false.
Proof. done. Qed.

Lemma Bool_delete c : cli.Bool c "delete" = cli.delete_flag c.
Proof. done. Qed.

(** X18. The flags [recursive] and [one-time] have no effect: two command
    lines that agree on [noop] and [delete] run the command in the same way,
    to the same end and the same machine.  [Before] asks for a flag
    [recurse], which was not declared, and nothing asks for [one-time]. *)
Theorem recursive_and_one_time_unused c c' depth source destination events m :
  cli.noop_flag c = cli.noop_flag c' ->
  cli.delete_flag c = cli.delete_flag c' ->
  command c depth source destination events m
  = command c' depth source destination events m.
Proof.
  intros Hnoop Hdelete. unfold command, Before, sync, oneTimeSync.
  by rewrite !Bool_noop, !Bool_recurse, !Bool_delete, Hnoop, Hdelete.
Qed.

Lemma settled_same {A} (c : M W A) :
  (forall m, heap (snd (c m)) = heap m /\ recurse (snd (c m)) = recurse m /\
             watched (snd (c m)) = watched m) ->
  within settled c.
Proof.
  intros Hc m. destruct (Hc m) as (Hh & Hr & Hw).
  split; [done|]. split; [done|]. unfold only_Manifests. rewrite Hh. reflexivity.
Qed.

Lemma settled_record c : within settled (record (W:=W) c).
Proof. by apply settled_same. Qed.

Lemma settled_perform (op : W -> option W) msg : within settled (perform op msg).
Proof. apply settled_same. intros m. unfold perform. by destruct (op (world m)). Qed.

Lemma settled_update_Manifest p g : within settled (update_Manifest (W:=W) p g).
Proof.
  intros m. split; [|split].
  - unfold update_Manifest, bind, load. by destruct (deref p (heap m)).
  - unfold update_Manifest, bind, load. by destruct (deref p (heap m)).
  - apply only_Manifests_update_Manifest.
Qed.

#[local] Hint Resolve settled_record settled_perform settled_update_Manifest : within.

Lemma settled_handleEvent l key event : within settled (handleEvent (W:=W) l key event).
Proof. unfold handleEvent, constructFile, Put, Delete, file_Open. repeat within_step. Qed.

Lemma settled_buildDirManifest depth l : forall dir,
  within settled (buildDirManifest (W:=W) depth l dir).
Proof.
  induction depth as [|depth IH]; intros dir; simpl; [auto with within|].
  repeat within_step.
Qed.

Lemma settled_buildManifest depth l : within settled (buildManifest (W:=W) depth l).
Proof.
  unfold buildManifest, constructFile.
  repeat within_step; apply settled_buildDirManifest.
Qed.

Lemma settled_listManifest l : within settled (listManifest (W:=W) l).
Proof. unfold listManifest. repeat within_step. Qed.

Lemma settled_oneTimeSync c src dst : within settled (oneTimeSync (W:=W) c src dst).
Proof.
  unfold oneTimeSync, push, prune, Put, Delete, file_Open.
  destruct (cli.Bool c "delete"); repeat within_step.
Qed.

Lemma settled_deref l loc m m' :
  settled m m' -> deref l (heap m) = Some loc ->
  exists loc', deref l (heap m') = Some loc' /\ location.Path loc' = location.Path loc.
Proof.
  intros (_ & _ & Hkeep) Hl.
  destruct (only_Manifests_deref l loc m m' Hkeep Hl) as (loc' & Hl' & Hsame).
  exists loc'. split; [done|]. by rewrite Hsame.
Qed.

(** Without [recurse], the loop of [Watch] watches the root and nothing
    else. *)
Lemma Watch_root_only l loc events m :
  recurse m = false ->
  deref l (heap m) = Some loc ->
  recurse (snd (Watch l events m)) = false /\
  watched (snd (Watch l events m)) = watched m ++ [location.Path loc].
Proof.
  intros Hrec Hl.
  assert (Watch l events m
          = for_each events (Watch_event l)
              (with_watched (watched m ++ [location.Path loc]) m)) as ->.
  { unfold Watch, bind, load, watcher_Add, get_recurse, ret. rewrite Hl. simpl.
    by rewrite Hrec. }
  set (I := fun m' : machine W =>
         recurse m' = false /\ watched m' = watched m ++ [location.Path loc]).
  change (I (snd (for_each events (Watch_event l)
                    (with_watched (watched m ++ [location.Path loc]) m)))).
  apply for_each_invariant; [|done].
  intros event m' _ HI.
  unfold Watch_event, bind at 1, inspect.
  destruct (os_Lstat _ _) as [fi|]; [|done].
  destruct (fi_IsDir fi).
  - unfold bind, get_recurse. destruct HI as [Hrec' ?]. by rewrite Hrec'.
  - revert m' HI. apply bind_invariant.
    + intros m' HI. unfold load. by destruct (deref l (heap m')).
    + intros loc' m' [Hrec' Hwatched'].
      destruct (settled_handleEvent l
                  (watchKey (location.Path loc') (fsnotify.Name event)) event m')
        as (Hr & Hw & _).
      split; congruence.
Qed.

(** X19. Whatever flags the command is given, [recursive] among them, it
    never sets the variable [recurse] and watches nothing but the root of the
    source: when the variable is unset at the start, as it is in a new
    process, it is unset at the end, and the watches added are none, if the
    command ends before it starts to watch, or the path of the source. *)
Theorem command_watches_the_root_only c depth source destination events loc m :
  recurse m = false ->
  deref source (heap m) = Some loc ->
  let m' := snd (command c depth source destination events m) in
  recurse m' = false /\
  (watched m' = watched m \/ watched m' = watched m ++ [location.Path loc]).
Proof.
  intros Hrec Hl m'. subst m'.
  set (Q := fun m' : machine W =>
         recurse m' = false /\
         (watched m' = watched m \/ watched m' = watched m ++ [location.Path loc])).
  assert (HQ : forall m1, settled m m1 -> Q m1).
  { intros m1 (Hr & Hw & _). split; [congruence|by left]. }
  change (Q (snd (command c depth source destination events m))).
  unfold command.
  apply (bind_post (settled m) (settled m) Q); [| done | | reflexivity].
  { intros m0 H0. etrans; [done|]. apply settled_same.
    intros m1. unfold Before, bind, set_noop, set_recurse, ret.
    rewrite Bool_recurse. destruct (cli.Bool c "noop"); by repeat split. }
  intros _ m0 H0. unfold sync.
  revert m0 H0.
  apply (bind_post (settled m) (settled m) Q); [|done|].
  { intros m1 H1. etrans; [done|]. apply settled_buildManifest. }
  intros _. apply (bind_post (settled m) (settled m) Q); [|done|].
  { intros m1 H1. etrans; [done|]. apply settled_listManifest. }
  intros _. apply (bind_post (settled m) (settled m) Q); [|done|].
  { intros m1 H1. etrans; [done|]. apply settled_buildManifest. }
  intros _. apply (bind_post (settled m) (settled m) Q); [|done|].
  { intros m1 H1. etrans; [done|]. apply settled_listManifest. }
  intros _. apply (bind_post (settled m) (settled m) Q); [|done|].
  { intros m1 H1. etrans; [done|]. apply settled_oneTimeSync. }
  intros _ m1 H1.
  destruct (settled_deref source loc m m1 H1 Hl) as (loc1 & Hl1 & HPath).
  destruct H1 as (Hr1 & Hw1 & _).
  destruct (Watch_root_only source loc1 events m1) as [Hr Hw]; [congruence|done|].
  split; [done|]. right. by rewrite Hw, Hw1, HPath.
Qed.

End Flags.

(** ** The order of [sync] *)

Section Sync_order.
Context {W : Type} `{!Backend W} `{!MapRange}.
Implicit Types (m : machine W) (l d p : ptr) (loc : location.t).

Lemma buildManifest_Ok_deref depth l m m1 :
  buildManifest depth l m = (Ok tt, m1) -> is_Some (deref l (heap m1)).
Proof.
  intros Hrun.
  assert (is_Some (deref l (heap m))) as [loc Hl].
  { unfold buildManifest, bind at 1, update_Manifest, bind, load in Hrun.
    destruct (deref l (heap m)); [by eexists|done]. }
  pose proof (lists_only_buildManifest depth l m) as (_ & _ & _ & _ & _ & Hheap).
  rewrite Hrun in Hheap. specialize (Hheap l). rewrite Hl in Hheap.
  inversion Hheap. by eexists.
Qed.

Lemma listManifest_Ok l m :
  is_Some (deref l (heap m)) -> listManifest l m = (Ok tt, m).
Proof. intros [loc Hl]. unfold listManifest, bind, load. by rewrite Hl. Qed.

(** X14. [sync] lists both sides before it acts: either both listings
    return, and [sync] goes on with the reconciliation and the watch from
    the machine they leave, or [sync] ends there, and then the world, the
    calls and the watches are what they were: nothing is put or deleted
    after a listing that failed. *)
Theorem sync_lists_before_it_acts c depth source destination events m :
  (exists m1 m2,
     buildManifest depth source m = (Ok tt, m1) /\
     buildManifest depth destination m1 = (Ok tt, m2) /\
     sync c depth source destination events m
     = bind (oneTimeSync c source destination) (fun _ => Watch source events) m2) \/
  (let r := sync c depth source destination events m in
   fst r <> Ok tt /\ world (snd r) = world m /\ calls (snd r) = calls m /\
   watched (snd r) = watched m).
Proof.
  pose proof (lists_only_buildManifest depth source m) as Hfirst.
  destruct (buildManifest depth source m) as [r1 m1] eqn:H1.
  assert (Hstop1 : r1 <> Ok tt ->
            sync c depth source destination events m
            = (match r1 with Ok _ => Ok tt | Fatal s => Fatal s | Panic s => Panic s end,
               m1)).
  { intros Hr1. unfold sync, bind at 1. rewrite H1. by destruct r1 as [[]| |]. }
  destruct Hfirst as (Hw1 & Hc1 & Hwa1 & _). simpl in *.
  destruct r1 as [[]|msg|msg].
  2,3: right; cbv zeta; rewrite Hstop1 by done; simpl; by repeat split.
  clear Hstop1.
  pose proof (lists_only_buildManifest depth destination m1) as Hsecond.
  pose proof (listManifest_Ok source m1 (buildManifest_Ok_deref _ _ _ _ H1)) as Hlist1.
  destruct (buildManifest depth destination m1) as [r2 m2] eqn:H2.
  assert (Hgo : sync c depth source destination events m
                = bind (fun _ => (r2, m2))
                    (fun _ => bind (listManifest destination)
                      (fun _ => bind (oneTimeSync c source destination)
                        (fun _ => Watch source events))) m).
  { unfold sync. unfold bind at 1. rewrite H1.
    unfold bind at 1. rewrite Hlist1. unfold bind at 1. rewrite H2.
    by unfold bind at 4. }
  destruct Hsecond as (Hw2 & Hc2 & Hwa2 & _). simpl in *.
  destruct r2 as [[]|msg|msg].
  2,3: right; cbv zeta; rewrite Hgo; unfold bind at 1; simpl;
       repeat split; [done|congruence..].
  left. exists m1, m2. split; [done|]. split; [done|].
  pose proof (listManifest_Ok destination m2 (buildManifest_Ok_deref _ _ _ _ H2)) as Hlist2.
  rewrite Hgo. unfold bind at 1. unfold bind at 1. by rewrite Hlist2.
Qed.

End Sync_order.

(** ** The refusal of [handleEvent] *)

Section Refusal.
Context {W : Type} `{!Backend W} `{!MapRange} `{!Client W}.
Implicit Types (m : machine W) (l d p : ptr) (loc : location.t).

Lemma never_at {A} msg (c : M W A) m : never msg c -> fst (c m) <> Fatal msg.
Proof. intros Hc. apply Hc. Qed.

Lemma never_ret {A} msg (a : A) : never (W:=W) msg (ret a).
Proof. done. Qed.

Lemma never_panic {A} msg msg' : never (W:=W) (A:=A) msg (panic msg').
Proof. done. Qed.

Lemma never_fatal {A} msg msg' : msg' <> msg -> never (W:=W) (A:=A) msg (fatal msg').
Proof. intros Hne m. simpl. congruence. Qed.

Lemma never_load msg p : never (W:=W) msg (load p).
Proof. intros m. unfold load. by destruct (deref p (heap m)). Qed.

Lemma never_ask {A} msg (op : W -> option A) msg' : msg' <> msg -> never msg (ask op msg').
Proof. intros Hne m. unfold ask. destruct (op (world m)); simpl; congruence. Qed.

Lemma never_perform msg (op : W -> option W) msg' :
  msg' <> msg -> never msg (perform op msg').
Proof. intros Hne m. unfold perform. destruct (op (world m)); simpl; congruence. Qed.

Lemma never_inspect {A} msg (q : W -> A) : never msg (inspect q).
Proof. done. Qed.

Lemma never_get_recurse msg : never (W:=W) msg get_recurse.
Proof. done. Qed.

Lemma never_record msg c : never (W:=W) msg (record c).
Proof. done. Qed.

Lemma never_watcher_Add msg path : never (W:=W) msg (watcher_Add path).
Proof. done. Qed.

Lemma never_update_Manifest msg p g : never (W:=W) msg (update_Manifest p g).
Proof. intros m. unfold update_Manifest, bind, load. by destruct (deref p (heap m)). Qed.

Lemma never_set_result msg i loc : never (W:=W) msg (set_result i loc).
Proof. intros m. unfold set_result. by destruct (result i). Qed.

Lemma never_bind {A B} msg (c : M W A) (k : A -> M W B) :
  never msg c -> (forall a, never msg (k a)) -> never msg (bind c k).
Proof.
  intros Hc Hk m. unfold bind. specialize (Hc m).
  destruct (c m) as [[a|msg'|msg'] m1]; simpl in *; [apply Hk| |done].
  intros [= ->]. by apply Hc.
Qed.

Lemma never_for_each {A} msg (xs : list A) (body : A -> M W unit) :
  (forall x, never msg (body x)) -> never msg (for_each xs body).
Proof.
  intros Hbody. induction xs as [|x xs IH]; simpl; [apply never_ret|].
  by apply never_bind.
Qed.

Create HintDb never.
#[local] Hint Resolve never_ret never_panic never_load never_inspect never_get_recurse
  never_record never_watcher_Add never_update_Manifest never_set_result : never.
#[local] Hint Extern 1 (never _ (fatal _)) =>
  apply never_fatal; unfold refusal; discriminate : never.
#[local] Hint Extern 1 (never _ (ask _ _)) =>
  apply never_ask; unfold refusal; discriminate : never.
#[local] Hint Extern 1 (never _ (perform _ _)) =>
  apply never_perform; unfold refusal; discriminate : never.

Ltac never_step :=
  match goal with
  | |- never _ (bind _ _) => apply never_bind; [|intros ?]
  | |- never _ (for_each _ _) => apply never_for_each; intros ?
  | |- never _ (match ?x with _ => _ end) => destruct x
  | |- never _ (let '(_, _) := ?x in _) => destruct x
  | |- never _ _ => solve [auto with never]
  end.

Lemma never_Put l key f : never (W:=W) refusal (Put l key f).
Proof. unfold Put, file_Open. repeat never_step. Qed.

Lemma never_Delete l key : never (W:=W) refusal (Delete l key).
Proof. unfold Delete. repeat never_step. Qed.

Lemma never_constructFile input : never (W:=W) refusal (constructFile input).
Proof. unfold constructFile. repeat never_step. Qed.

#[local] Hint Resolve never_Put never_Delete never_constructFile : never.

Lemma never_buildDirManifest depth l : forall dir,
  never (W:=W) refusal (buildDirManifest depth l dir).
Proof. induction depth as [|depth IH]; intros dir; simpl; repeat never_step. Qed.

#[local] Hint Resolve never_buildDirManifest : never.

Lemma never_buildManifest depth l : never (W:=W) refusal (buildManifest depth l).
Proof. unfold buildManifest. repeat never_step. Qed.

Lemma never_listManifest l : never (W:=W) refusal (listManifest l).
Proof. unfold listManifest. repeat never_step. Qed.

Lemma never_oneTimeSync c src dst : never (W:=W) refusal (oneTimeSync c src dst).
Proof. unfold oneTimeSync, push, prune. repeat never_step. Qed.

Lemma never_locate i param : never (W:=W) refusal (locate i param).
Proof. unfold locate. repeat never_step. Qed.

Lemma never_locate_all params : forall i, never (W:=W) refusal (locate_all i params).
Proof.
  induction params as [|param params IH]; intros i; simpl; [apply never_ret|].
  apply never_bind; [apply never_locate|]. intros [err|]; [apply never_ret|apply IH].
Qed.

Lemma never_getLocations args : never (W:=W) refusal (getLocations args).
Proof.
  unfold getLocations. case_decide; [|by apply never_fatal].
  apply never_bind; [done|]. intros _.
  apply never_bind; [apply never_locate_all|]. intros [err|]; [apply never_ret|].
  apply never_bind; [apply never_load|]. intros r0.
  apply never_bind; [done|]. intros _. apply never_ret.
Qed.

(** A location stays a source while only manifests change. *)
Lemma is_source_only_Manifests l m m' :
  only_Manifests m m' -> is_source l m -> is_source l m'.
Proof.
  intros Hkeep (loc & Hl & Htype).
  destruct (only_Manifests_deref l loc m m' Hkeep Hl) as (loc' & Hl' & Hsame).
  exists loc'. split; [done|]. by rewrite Hsame.
Qed.

Lemma safe_of {A} l msg (c : M W A) :
  never msg c -> within only_Manifests c -> safe (is_source l) msg c.
Proof.
  intros Hnever Hkeep m Hsrc. split; [apply Hnever|].
  by apply (is_source_only_Manifests l m).
Qed.

Lemma safe_settled {A} l msg (c : M W A) :
  never msg c -> within settled c -> safe (is_source l) msg c.
Proof.
  intros Hnever Hkeep. apply safe_of; [done|]. intros m. apply Hkeep.
Qed.

Lemma safe_bind {A B} (I : machine W -> Prop) msg (c : M W A) (k : A -> M W B) :
  safe I msg c -> (forall a, safe I msg (k a)) -> safe I msg (bind c k).
Proof.
  intros Hc Hk m HI. unfold bind. destruct (Hc m HI) as [Hend HI1].
  destruct (c m) as [[a|msg'|msg'] m1]; simpl in *; [by apply Hk| |done].
  split; [|done]. intros [= ->]. by apply Hend.
Qed.

Lemma safe_for_each {A} (I : machine W -> Prop) msg (xs : list A)
    (body : A -> M W unit) :
  (forall x, safe I msg (body x)) -> safe I msg (for_each xs body).
Proof.
  intros Hbody. induction xs as [|x xs IH]; simpl; [by intros m|].
  by apply safe_bind.
Qed.

(** On a source, the handler does not get to its refusal. *)
Lemma safe_handleEvent l key event :
  safe (is_source l) refusal (handleEvent l key event).
Proof.
  intros m Hsrc. split.
  - destruct Hsrc as (loc & Hl & Htype).
    unfold handleEvent, bind at 1, load. rewrite Hl, decide_True by done.
    apply never_at. repeat never_step.
  - apply (is_source_only_Manifests l m); [|done]. apply only_Manifests_handleEvent.
Qed.

Lemma safe_Watch_event l event : safe (is_source l) refusal (Watch_event l event).
Proof.
  unfold Watch_event.
  apply safe_bind; [apply safe_of; [done|by apply only_Manifests_same_heap]|].
  intros [fi|]; [|apply safe_of; [done|by apply only_Manifests_same_heap]].
  destruct (fi_IsDir fi).
  - apply safe_of; [repeat never_step|].
    apply only_Manifests_same_heap. intros m. unfold bind, get_recurse.
    by destruct (recurse m).
  - apply safe_bind.
    + apply safe_of; [apply never_load|].
      apply only_Manifests_same_heap. intros m. unfold load. by destruct (deref _ _).
    + intros loc. apply safe_handleEvent.
Qed.

Lemma safe_Watch l events : safe (is_source l) refusal (Watch l events).
Proof.
  unfold Watch.
  assert (Hsame : forall {A} (c : M W A),
            never refusal c -> (forall m, heap (snd (c m)) = heap m) ->
            safe (is_source l) refusal c).
  { intros A c Hnever Hheap. apply safe_of; [done|by apply only_Manifests_same_heap]. }
  apply safe_bind.
  { apply Hsame; [apply never_load|]. intros m. unfold load. by destruct (deref _ _). }
  intros loc. apply safe_bind; [by apply Hsame|]. intros _.
  apply safe_bind; [by apply Hsame|]. intros rec.
  apply safe_bind; [|intros _; apply safe_for_each; intros event; apply safe_Watch_event].
  destruct rec; [|by apply Hsame].
  apply safe_bind.
  { apply Hsame; [apply never_ask; unfold refusal; discriminate|].
    intros m. unfold ask. by destruct (ioutil_ReadDir _ _). }
  intros files. apply safe_for_each. intros fi.
  destruct (fi_IsDir fi); by apply Hsame.
Qed.

Lemma safe_sync c depth source destination events :
  safe (is_source source) refusal (sync c depth source destination events).
Proof.
  unfold sync.
  apply safe_bind;
    [apply safe_settled; [apply never_buildManifest|apply settled_buildManifest]|].
  intros _. apply safe_bind;
    [apply safe_settled; [apply never_listManifest|apply settled_listManifest]|].
  intros _. apply safe_bind;
    [apply safe_settled; [apply never_buildManifest|apply settled_buildManifest]|].
  intros _. apply safe_bind;
    [apply safe_settled; [apply never_listManifest|apply settled_listManifest]|].
  intros _. apply safe_bind;
    [apply safe_settled; [apply never_oneTimeSync|apply settled_oneTimeSync]|].
  intros _. apply safe_Watch.
Qed.

(** What [getLocations] returns: the two cells, the first a source that
    points to the second, each with the argument as its path, and the world
    as it was. *)
Lemma getLocations_returns args source destination m m' :
  getLocations args m = (Ok (Located source destination), m') ->
  source = results0 /\ destination = results1 /\
  world m' = world m /\ calls m' = calls m /\ watched m' = watched m /\
  exists a0 a1 loc0 loc1,
    args = [a0; a1] /\ heap m' = mkStore loc0 loc1 /\
    location.Type_ loc0 = Source /\ location.Destination loc0 = results1 /\
    location.Path loc0 = a0 /\
    location.Type_ loc1 = Destination /\ location.Destination loc1 = null /\
    location.Path loc1 = a1.
Proof.
  unfold getLocations. case_decide as Hlen; [|done].
  destruct args as [|a0 [|a1 [|]]]; try done. clear Hlen.
  unfold locate_all, locate, bind, ask, set_result, result, load, ret. simpl.
  intros Hrun.
  repeat (case_match; simplify_eq/=; try done).
  all: repeat split; eexists _, _, _, _; by repeat split.
Qed.

(** X20. [sync] never ends in the refusal of [handleEvent]: whatever the
    arguments, the flags, the events and the collaborators, the location
    that [sync] watches is the first one that [getLocations] returns, which
    is a source and stays one, so that the [log.Fatal] with the message
    [we don't do this] is not reached. *)
Theorem sync_never_refuses_an_event c depth args events m :
  fst (sync_Action c depth args events m) <> Fatal "we don't do this".
Proof.
  change (fst (sync_Action c depth args events m) <> Fatal refusal).
  unfold sync_Action, bind.
  pose proof (never_getLocations args m) as Hnever.
  destruct (getLocations args m) as [[[source destination|err]|msg|msg] m'] eqn:Hrun;
    simpl in *; [|done| |done].
  2:{ intros [= ->]. by apply Hnever. }
  destruct (getLocations_returns args source destination m m' Hrun)
    as (-> & -> & _ & _ & _ & a0 & a1 & loc0 & loc1 & _ & Hheap & Htype & _).
  apply safe_sync. exists loc0. by rewrite Hheap.
Qed.

End Refusal.

(** * The further properties in the small world *)

(** The bucket lists the objects [/b] and [/c] under the prefix [/]; the
    manifest built from the listing has their keys and nothing of the
    manifest before. *)
Lemma buildManifest_bucket_lists_all_witness :
  let r := buildManifest 0 results1 listed_anew in
  fst r = Ok tt /\
  manifest_at results1 (snd r)
    = listed "/" [mkObject "/b" 5 0; mkObject "/c" 1 0] ∅ /\
  manifest_at results1 (snd r) !! "/a" = None /\
  is_Some (manifest_at results1 (snd r) !! "/b").
Proof.
  destruct (buildManifest_bucket_lists_all (W:=Toy.t) 0 results1 (prefix_loc Toy.A)
              [[mkObject "/b" 5 0; mkObject "/c" 1 0]] true listed_anew)
    as (Hend & Hlisted & Hall & _); [reflexivity..|].
  split; [exact Hend|]. split; [exact Hlisted|]. split; [reflexivity|].
  apply (Hall (mkObject "/b" 5 0)). apply list_elem_of_here.
Defined.

(** The directory [/src] holds the files [a] and [b] and no directory. *)
Lemma buildManifest_flat_directory_witness :
  let r := buildManifest 1 results0 Toy.unlisted in
  fst r = Ok tt /\
  manifest_at results0 (snd r) !! "/a"
    = Some (walk_file "/src" (mkFileInfo "a" 10 false 0)).
Proof.
  destruct (buildManifest_flat_directory (W:=Toy.t) 0 results0 (Toy.source_loc ∅)
              Toy.src_dir [mkFileInfo "a" 10 false 0; mkFileInfo "b" 5 false 0]
              Toy.unlisted) as [Hend Hentries]; [reflexivity..| | |].
  - repeat constructor; done.
  - by apply (bool_decide_unpack _).
  - split; [exact Hend|]. apply Hentries.
    exists (mkFileInfo "a" 10 false 0). split; [apply list_elem_of_here|done].
Defined.

(** The entry [/a] of the manifest built from [/src] is the file [a] that
    [ReadDir] reports in [/src]. *)
Lemma buildManifest_directory_entries_witness :
  walked_entry Toy.the_world "/src" "/a" (walk_file "/src" (mkFileInfo "a" 10 false 0)).
Proof.
  apply (buildManifest_directory_entries (W:=Toy.t) 8 results0 (Toy.source_loc ∅)
           Toy.src_dir Toy.unlisted); reflexivity.
Defined.

(** The events of the file [a] leave the entries of [/b] alone. *)
Lemma Watch_keeps_other_keys_witness :
  manifest_at results1 (snd (Watch results0 events_of_a Toy.to_bucket)) !! "/b"
    = Some Toy.dst_b /\
  manifest_at results0 (snd (Watch results0 events_of_a Toy.to_bucket)) !! "/b"
    = Some Toy.file_b.
Proof.
  assert (Hkeys : forall event, event ∈ events_of_a ->
            watchKey (location.Path (Toy.source_loc Toy.A)) (fsnotify.Name event) <> "/b").
  { intros event Hin. unfold events_of_a in Hin.
    repeat (apply elem_of_cons in Hin as [->|Hin]; [done|]).
    by apply elem_of_nil in Hin. }
  split.
  - rewrite (Watch_keeps_other_keys (W:=Toy.t) results0 (Toy.source_loc Toy.A)
               events_of_a "/b" results1 Toy.to_bucket eq_refl Hkeys).
    reflexivity.
  - rewrite (Watch_keeps_other_keys (W:=Toy.t) results0 (Toy.source_loc Toy.A)
               events_of_a "/b" results0 Toy.to_bucket eq_refl Hkeys).
    reflexivity.
Defined.

(** The calls for the events of the file [a]: a put for [Create], none for
    [Chmod], a put for [Write]. *)
Lemma Watch_calls_follow_events_witness :
  exists cs,
    calls (snd (Watch results0 events_of_a Toy.to_bucket)) = cs /\
    sublist (action_of <$> cs) [PutAt results1 "/a"; PutAt results1 "/a"].
Proof.
  destruct (Watch_calls_follow_events (W:=Toy.t) results0 (Toy.source_loc Toy.A)
              events_of_a Toy.to_bucket eq_refl) as (cs & Hcalls & Hsub).
  exists cs. split; [exact Hcalls|exact Hsub].
Defined.

(** The source and the directory hold [b] with five bytes each, and other
    bytes: nothing is pushed. *)
Lemma oneTimeSync_same_sizes_witness :
  oneTimeSync (Toy.flags true) results0 results1 same_sizes = (Ok tt, same_sizes) /\
  Toy.assoc "/src/b" (Toy.disk Toy.the_world) = Some "01234" /\
  Toy.assoc "/dst/b" (Toy.disk Toy.the_world) = Some "43210".
Proof.
  split; [|split; reflexivity].
  apply (oneTimeSync_same_sizes (W:=Toy.t) (Toy.flags true) results0 results1
           (Toy.source_loc {[ "/b" := Toy.file_b ]}) (Toy.dir_loc {[ "/b" := Toy.dst_b ]})
           same_sizes eq_refl eq_refl).
  - intros k f Hk. cbn [location.Manifest Toy.source_loc Toy.dir_loc] in *.
    apply lookup_singleton_Some in Hk as [<- <-].
    exists Toy.dst_b. split; reflexivity.
  - intros _ k [g Hk]. cbn [location.Manifest Toy.source_loc Toy.dir_loc] in *.
    apply lookup_singleton_Some in Hk as [<- <-].
    by eexists.
Defined.

(** The scenario of the specification onto the bucket, without the flag
    [delete]: the keys afterwards are those of both sides. *)
Lemma oneTimeSync_bucket_witness :
  let m' := snd (oneTimeSync (Toy.flags false) results0 results1 Toy.to_bucket) in
  (exists puts, calls m' = puts /\
     puts ≡ₚ omap (put_call results1 Toy.B) (map_to_list Toy.A)) /\
  dom (manifest_at results1 m') = dom Toy.A ∪ dom Toy.B.
Proof.
  destruct (oneTimeSync_bucket (W:=Toy.t) (Toy.flags false) results0 results1
              (Toy.source_loc Toy.A) (Toy.s3_loc Toy.B) Toy.to_bucket
              (snd (oneTimeSync (Toy.flags false) results0 results1 Toy.to_bucket)))
    as (Hcalls & Hdom & _); [discriminate|reflexivity..|].
  split; [exact Hcalls|exact Hdom].
Defined.

(** The same scenario with the flag [delete]: the keys afterwards are those
    of the source. *)
Lemma oneTimeSync_delete_bucket_witness :
  let m' := snd (oneTimeSync (Toy.flags true) results0 results1 Toy.to_bucket) in
  dom (manifest_at results1 m') = dom Toy.A /\
  exists g, manifest_at results1 m' !! "/a" = Some g /\ file.Size g = 10.
Proof.
  destruct (oneTimeSync_delete_bucket (W:=Toy.t) (Toy.flags true) results0 results1
              (Toy.source_loc Toy.A) (Toy.s3_loc Toy.B) Toy.to_bucket
              (snd (oneTimeSync (Toy.flags true) results0 results1 Toy.to_bucket)))
    as (_ & Hdom & Hsizes); [discriminate|reflexivity..|].
  split; [exact Hdom|]. apply (Hsizes "/a" Toy.file_a). reflexivity.
Defined.

(** The scenario onto the bucket, run a second time. *)
Lemma oneTimeSync_twice_bucket_witness :
  let m' := snd (oneTimeSync (Toy.flags true) results0 results1 Toy.to_bucket) in
  oneTimeSync (Toy.flags true) results0 results1 m' = (Ok tt, m').
Proof.
  apply (oneTimeSync_twice_bucket (W:=Toy.t) (Toy.flags true) results0 results1
           (Toy.source_loc Toy.A) (Toy.s3_loc Toy.B) Toy.to_bucket);
    [discriminate|reflexivity..].
Defined.

(** The scenario onto the directory with the flag [delete]: the manifest of
    the destination keeps [/b] and has neither [/a] nor [/c]. *)
Lemma oneTimeSync_directory_witness :
  let m' := snd (oneTimeSync (Toy.flags true) results0 results1 Toy.to_directory) in
  manifest_at results1 m' !! "/a" = None /\
  manifest_at results1 m' !! "/b" = Some Toy.dst_b /\
  manifest_at results1 m' !! "/c" = None.
Proof.
  destruct (oneTimeSync_directory (W:=Toy.t) (Toy.flags true) results0 results1
              (Toy.source_loc Toy.A) (Toy.dir_loc Toy.B) Toy.dst_dir Toy.to_directory
              (snd (oneTimeSync (Toy.flags true) results0 results1 Toy.to_directory)))
    as [_ Hkeys]; [discriminate|reflexivity..|].
  split; [exact (Hkeys "/a")|]. split; [exact (Hkeys "/b")|exact (Hkeys "/c")].
Defined.

(** An object of the listing put on the directory [/dst]: the file [/dst/b],
    which held five bytes, is empty afterwards, and the process has
    panicked. *)
Lemma Put_listed_object_witness :
  let r := Put results1 "/b" (s3_file (mkObject "/b" 5 0)) Toy.to_directory in
  fst r = Panic "nil pointer dereference" /\
  Toy.assoc "/dst/b" (Toy.disk Toy.the_world) = Some "43210" /\
  Toy.assoc "/dst/b" (Toy.disk (world (snd r))) = Some EmptyString.
Proof.
  destruct (Put_listed_object (W:=Toy.t) results1 (Toy.dir_loc Toy.B) "/b"
              (mkObject "/b" 5 0) Toy.to_directory eq_refl) as [_ Hput].
  destruct Hput as (Hend & Hworld & _).
  split; [exact Hend|]. split; [reflexivity|]. by rewrite Hworld.
Defined.

(** The file [/src/b] is gone when its [Remove] event arrives: the loop
    panics, the bucket is never asked to delete [/b], and the [Write] event
    that follows is lost. *)
Lemma Watch_stops_at_gone_path_witness :
  let r := Watch results0 events_of_b b_removed in
  fst r = Panic "nil pointer dereference" /\
  calls (snd r) = [] /\
  manifest_at results1 (snd r) !! "/b" = Some Toy.dst_b.
Proof.
  pose proof (Watch_stops_at_gone_path (W:=Toy.t) results0 []
                (fsnotify.mkEvent "/src/b" fsnotify.Remove)
                [fsnotify.mkEvent "/src/a" fsnotify.Write] b_removed
                (snd (Watch results0 [] b_removed)) eq_refl eq_refl) as Hrun.
  change (Watch results0 events_of_b b_removed
          = (Panic "nil pointer dereference", snd (Watch results0 [] b_removed))) in Hrun.
  cbv zeta. rewrite Hrun. repeat split.
Defined.

(** The command with and without the flags [recursive] and [one-time]. *)
Lemma recursive_and_one_time_unused_witness :
  command (cli.mk false true false true) 8 results0 results1 events_of_a Toy.unlisted
  = command (cli.mk false false false false) 8 results0 results1 events_of_a Toy.unlisted.
Proof.
  apply (recursive_and_one_time_unused (W:=Toy.t)); reflexivity.
Defined.

(** The command with the flag [recursive] in the small world. *)
Lemma command_watches_the_root_only_witness :
  let m' := snd (command (cli.mk false true false false) 8 results0 results1
                   events_of_a Toy.unlisted) in
  recurse m' = false /\ (watched m' = [] \/ watched m' = ["/src"]).
Proof.
  apply (command_watches_the_root_only (W:=Toy.t) (cli.mk false true false false) 8
           results0 results1 events_of_a (Toy.source_loc ∅) Toy.unlisted);
    reflexivity.
Defined.

(** The file [/src/b] cannot be read: the reconciliation ends with the put
    for [/b], and the delete for [/c] that was to follow is not made. *)
Lemma oneTimeSync_calls_prefix_witness :
  let r := oneTimeSync (Toy.flags true) results0 results1 b_unreadable in
  fst r = Fatal "error opening file:" /\
  calls (snd r) `prefix_of`
    [CallPut results1 "/a" Toy.file_a; CallPut results1 "/b" Toy.file_b;
     CallDelete results1 "/c"] /\
  calls (snd r) = [CallPut results1 "/a" Toy.file_a; CallPut results1 "/b" Toy.file_b].
Proof.
  destruct (oneTimeSync_calls_prefix (W:=Toy.t) (Toy.flags true) results0 results1
              (Toy.source_loc Toy.A) (Toy.s3_loc {[ "/c" := Toy.dst_c ]}) b_unreadable)
    as (cs & Hcalls & Hprefix & _); [discriminate|reflexivity..|].
  split; [reflexivity|]. split.
  - change (calls (snd (oneTimeSync (Toy.flags true) results0 results1 b_unreadable)) = cs)
      in Hcalls.
    rewrite Hcalls. exact Hprefix.
  - reflexivity.
Defined.

(** A [Write] event for [/src/a]: the file is opened at [/src/a]. *)
Lemma event_file_opens_its_path_witness :
  exists f,
    constructFile (InEvent (fsnotify.mkEvent "/src/a" fsnotify.Write)) Toy.to_bucket
      = (Ok f, Toy.to_bucket) /\
    file.Path f = "/src" /\ file.Name f = "a" /\
    file_Open f Toy.to_bucket = (Ok (Some "0123456789"), Toy.to_bucket).
Proof.
  destruct (event_file_opens_its_path (W:=Toy.t)
              [String.list_ascii_of_string "src"] (String.list_ascii_of_string "a")
              (fsnotify.mkEvent "/src/a" fsnotify.Write) Toy.stat_a Toy.to_bucket)
    as (f & Hf & HPath & HName & _ & Hopen).
  - done.
  - repeat constructor; done.
  - repeat constructor; done.
  - reflexivity.
  - reflexivity.
  - exists f. split; [exact Hf|]. split; [exact HPath|]. split; [exact HName|].
    exact Hopen.
Defined.

(** [getLocations] for the arguments [/src] and [s3://bucket/]: the two
    locations of the scenarios above, before anything is listed. *)
Example getLocations_small_world :
  getLocations ["/src"; "s3://bucket/"] Toy.unlisted
  = (Ok (Located results0 results1),
     Toy.machine_of (Toy.source_loc ∅) (Toy.s3_loc ∅)).
Proof. reflexivity. Qed.

(** The tree [/src] with the file [x] in the directory [sub]: the file has
    the key [/sub/x]. *)
Lemma buildManifest_directory_complete_witness :
  is_Some (manifest_at results0 (snd (buildManifest 8 results0 nested)) !! "/sub/x").
Proof.
  apply (buildManifest_directory_complete (W:=Toy.t) 8 results0 (Toy.source_loc ∅)
           Toy.src_dir nested (snd (buildManifest 8 results0 nested)) "/src/sub"
           [mkFileInfo "x" 2 false 0] (mkFileInfo "x" 2 false 0));
    try reflexivity.
  - apply (reached_sub (W:=Toy.t) (world nested) "/src" "/src"
             [mkFileInfo "a" 10 false 0; mkFileInfo "sub" 0 true 0]
             (mkFileInfo "sub" 0 true 0)); [constructor|reflexivity| |reflexivity].
    apply list_elem_of_further, list_elem_of_here.
  - apply list_elem_of_here.
Defined.
